(** * vehicle-hub: signal stabilisers, snapshot builders and the hub loop

    A shallow embedding of the Python sources

      - [src/vehicle_state/stabilizers.py]  (HoldLatch, FlashDetector, EMA, OutlierClamp)
      - [src/vehicle_state/mapping.py]      (AnalogMap, PinMap, normalize_analog)
      - [src/vehicle_state/transformer.py]  (VehicleStateTransformer)
      - [src/vehicle_hub.py]                (VehicleStateBuilder, state_pump, ws_handler, main,
                                             _pick_serial_port, serial_reader_task)

    Conventions.
      - Python [int] is [Z]; millisecond clocks are [Z] and every function that
        reads a clock in the source takes the reading as an argument.
      - Python [float] is an abstract type [F] with the operations the sources
        use (class [PyNum]); a theorem stated over [F] holds for any
        implementation of them.  [QNum] is the exact-rational implementation
        used to run the examples and to state the few properties of exact
        arithmetic.
      - A method that mutates [self] returns the new object next to its result.
      - A raised exception is [None]; mutations done before the raise are kept.
      - JSON values and Python dicts with string keys are [pyval] and
        [gmap string pyval]. *)

From Stdlib Require Import ZArith QArith Qround Lia Lqa Bool Ascii.
From stdpp Require Import gmap strings list fin_maps sorting.

Set Warnings "-register-all".
Open Scope Z_scope.

(* ===================================================================== *)
(** * Python numbers *)
(* ===================================================================== *)

(** The float operations and the two string parsers of the Python runtime that
    the sources rely on.  [None] stands for a raised exception. *)
Class PyNum (F : Type) := {
  f_lit    : Q → F;               (* the float written as a decimal literal *)
  f_of_int : Z → option F;        (* float(i), int-with-float arithmetic: OverflowError *)
  f_to_int : F → option Z;        (* int(x): truncation; ValueError/OverflowError on nan/inf *)
  f_of_str : string → option F;   (* float(s): ValueError *)
  int_of_str : string → option Z; (* int(s): ValueError *)
  f_add : F → F → F;
  f_sub : F → F → F;
  f_mul : F → F → F;
  f_div : F → F → F;              (* only ever used with a non-zero divisor *)
  f_neg : F → F;
  f_ltb : F → F → bool;
  f_leb : F → F → bool;
  f_round : nat → F → F;          (* round(x, ndigits) *)
  f_nonzero : F → bool            (* bool(x) *)
}.

(** Built-in [min] and [max] on two floats: the first argument wins ties. *)
Definition py_min {F} `{PyNum F} (a b : F) : F := if f_ltb b a then b else a.
Definition py_max {F} `{PyNum F} (a b : F) : F := if f_ltb a b then b else a.

(** ** Exact rationals as floats *)

Definition Q_trunc (q : Q) : Z := Z.quot (Qnum q) (Z.pos (Qden q)).

(** Round half to even to [n] decimal places. *)
Definition Q_round (n : nat) (q : Q) : Q :=
  let s := inject_Z (10 ^ Z.of_nat n) in
  let m := Qmult q s in
  let lo := Qfloor m in
  let r := Qminus m (inject_Z lo) in
  let k := match Qcompare r (1 # 2) with
           | Lt => lo
           | Gt => lo + 1
           | Eq => if Z.even lo then lo else lo + 1
           end in
  Qred (Qdiv (inject_Z k) s).

Definition digit_of_ascii (c : ascii) : option Z :=
  let n := Z.of_nat (nat_of_ascii c) in
  if (48 <=? n) && (n <=? 57) then Some (n - 48) else None.

Fixpoint digits_to_Z (acc : Z) (s : string) : option Z :=
  match s with
  | EmptyString => Some acc
  | String c s' =>
      match digit_of_ascii c with
      | Some k => digits_to_Z (10 * acc + k) s'
      | None => None
      end
  end.

(** Plain decimal integers with an optional sign. *)
Definition Z_of_decimal (s : string) : option Z :=
  match s with
  | EmptyString => None
  | String "-"%char (String c r) => Z.opp <$> digits_to_Z 0 (String c r)
  | String "+"%char (String c r) => digits_to_Z 0 (String c r)
  | _ => digits_to_Z 0 s
  end.

#[export] Instance QNum : PyNum Q := {
  f_lit q := Qred q;
  f_of_int z := Some (inject_Z z);
  f_to_int q := Some (Q_trunc q);
  f_of_str s := inject_Z <$> Z_of_decimal s;
  int_of_str := Z_of_decimal;
  f_add a b := Qred (Qplus a b);
  f_sub a b := Qred (Qminus a b);
  f_mul a b := Qred (Qmult a b);
  f_div a b := Qred (Qdiv a b);
  f_neg a := Qred (Qopp a);
  f_ltb a b := match Qcompare a b with Lt => true | _ => false end;
  f_leb a b := match Qcompare a b with Gt => false | _ => true end;
  f_round := Q_round;
  f_nonzero a := negb (Qnum a =? 0)
}.

(* ===================================================================== *)
(** * stabilizers.py *)
(* ===================================================================== *)

Module HoldLatch.

Record t := mk {
  min_stable_ms : Z;
  hold_on_ms : Z;
  _raw_last : bool;
  _raw_last_change_ms : Z;
  _stable : bool;
  _stable_since_ms : Z;
  _hold_until_ms : Z
}.

(** [HoldLatch(min_stable_ms=m, hold_on_ms=h)] *)
Definition new (m h : Z) : t := mk m h false 0 false 0 0.

Definition set_raw (s : t) (raw : bool) (now_ms : Z) : t :=
  mk (min_stable_ms s) (hold_on_ms s) raw now_ms
     (_stable s) (_stable_since_ms s) (_hold_until_ms s).

Definition set_stable (s : t) (raw : bool) (now_ms : Z) : t :=
  mk (min_stable_ms s) (hold_on_ms s) (_raw_last s) (_raw_last_change_ms s)
     raw now_ms (_hold_until_ms s).

Definition set_hold_until (s : t) (until : Z) : t :=
  mk (min_stable_ms s) (hold_on_ms s) (_raw_last s) (_raw_last_change_ms s)
     (_stable s) (_stable_since_ms s) until.

(** The three statements of [update] before its [return]s. *)
Definition track_raw (s : t) (raw : bool) (now_ms : Z) : t :=
  if negb (eqb raw (_raw_last s)) then set_raw s raw now_ms else s.

Definition accept_stable (s : t) (raw : bool) (now_ms : Z) : t :=
  if min_stable_ms s <=? now_ms - _raw_last_change_ms s then
    if negb (eqb (_stable s) raw) then
      let s' := set_stable s raw now_ms in
      if _stable s' && (0 <? hold_on_ms s')
      then set_hold_until s' (now_ms + hold_on_ms s')
      else s'
    else s
  else s.

Definition update (s : t) (raw : bool) (now_ms : Z) : bool * t :=
  let s := track_raw s raw now_ms in
  let s := accept_stable s raw now_ms in
  if (0 <? hold_on_ms s) && negb (_stable s) && (now_ms <? _hold_until_ms s)
  then (true, s)
  else (_stable s, s).

(** Consecutive calls [update(raw, now_ms)]: the values returned, and the
    latch afterwards. *)
Fixpoint run (s : t) (calls : list (bool * Z)) : list bool * t :=
  match calls with
  | [] => ([], s)
  | (raw, now_ms) :: calls' =>
      let '(out, s') := update s raw now_ms in
      let '(outs, s'') := run s' calls' in
      (out :: outs, s'')
  end.

(** While the latch is stably ON, [_hold_until_ms] is the instant of the
    last ON-stabilisation plus [hold_on_ms]. *)
Definition armed (s : t) : Prop :=
  _stable s = true → _hold_until_ms s = _stable_since_ms s + hold_on_ms s.

End HoldLatch.

Module FlashDetector.

Record t := mk {
  window_ms : Z;
  min_toggles : Z;
  _last : bool;
  _toggle_times_ms : list Z
}.

(** [FlashDetector(window_ms=w, min_toggles=n)], after [__post_init__]. *)
Definition new (w n : Z) : t := mk w n false [].

Definition update (s : t) (value : bool) (now_ms : Z) : bool * t :=
  let '(last, times) :=
    if negb (eqb value (_last s))
    then (value, _toggle_times_ms s ++ [now_ms])
    else (_last s, _toggle_times_ms s) in
  let cutoff := now_ms - window_ms s in
  let kept := filter (λ t, cutoff ≤ t) times in
  (min_toggles s <=? Z.of_nat (length kept),
   mk (window_ms s) (min_toggles s) last kept).

Fixpoint run (s : t) (calls : list (bool * Z)) : list bool * t :=
  match calls with
  | [] => ([], s)
  | (value, now_ms) :: calls' =>
      let '(out, s') := update s value now_ms in
      let '(outs, s'') := run s' calls' in
      (out :: outs, s'')
  end.

(** The timestamps of all calls whose input differed from the previously
    seen value, [last] being the value seen before the first call.  This is
    the full record of toggles, with nothing discarded. *)
Fixpoint toggle_history (last : bool) (calls : list (bool * Z)) : list Z :=
  match calls with
  | [] => []
  | (value, now_ms) :: calls' =>
      if negb (eqb value last)
      then now_ms :: toggle_history value calls'
      else toggle_history last calls'
  end.

(** How many recorded toggles lie in the trailing window of a call at
    [now_ms]. *)
Definition toggles_in_window (w now_ms : Z) (history : list Z) : Z :=
  Z.of_nat (length (filter (λ t, now_ms - w ≤ t) history)).

End FlashDetector.

Module EMA.
Section EMA.
Context {F : Type} `{PyNum F}.

Record t := mk {
  alpha : F;
  _has : bool;
  _v : F
}.

(** [EMA(alpha=a)] *)
Definition new (a : F) : t := mk a false (f_lit 0).

Definition update (s : t) (x : F) : F * t :=
  if negb (_has s) then (x, mk (alpha s) true x)
  else
    let v := f_add (f_mul (alpha s) x)
                   (f_mul (f_sub (f_lit 1) (alpha s)) (_v s)) in
    (v, mk (alpha s) (_has s) v).

End EMA.
Arguments t F : clear implicits.
End EMA.

Module OutlierClamp.
Section OutlierClamp.
Context {F : Type} `{PyNum F}.

Record t := mk {
  max_step : F;
  _has : bool;
  _last : F
}.

(** [OutlierClamp(max_step=m)] *)
Definition new (m : F) : t := mk m false (f_lit 0).

Definition update (s : t) (x : F) : F * t :=
  if negb (_has s) then (x, mk (max_step s) true x)
  else
    let delta := f_sub x (_last s) in
    let x' :=
      if f_ltb (max_step s) delta then f_add (_last s) (max_step s)
      else if f_ltb delta (f_neg (max_step s))
           then f_sub (_last s) (max_step s)
           else x in
    (x', mk (max_step s) (_has s) x').

End OutlierClamp.
Arguments t F : clear implicits.
End OutlierClamp.

(* ===================================================================== *)
(** * Exceptions after mutation *)
(* ===================================================================== *)

(** A computation on a mutable object of type [S] that may raise: the result
    is [None] when an exception escapes, and the object is returned as the
    statements executed so far have left it. *)
Definition SE (S A : Type) : Type := S → option A * S.

#[export] Instance SE_ret {S} : MRet (SE S) := λ A a st, (Some a, st).
#[export] Instance SE_bind {S} : MBind (SE S) :=
  λ A B k c st, match c st with
                | (Some a, st') => k a st'
                | (None, st') => (None, st')
                end.

(** An expression that may raise but mutates nothing. *)
Definition lift {S A} (o : option A) : SE S A := λ st, (o, st).

(** A [for] loop threading an accumulator. *)
Fixpoint for_each {S A B} (body : B → A → SE S B) (acc : B) (l : list A) : SE S B :=
  match l with
  | [] => mret acc
  | x :: l' => acc' ← body acc x; for_each body acc' l'
  end.

(* ===================================================================== *)
(** * Python values *)
(* ===================================================================== *)

(** What [json.loads] produces, and what the snapshot dicts hold. *)
Inductive pyval (F : Type) : Type :=
  | PNone
  | PBool (b : bool)
  | PInt (z : Z)
  | PFloat (f : F)
  | PStr (s : string)
  | PList (l : list (pyval F))
  | PDict (m : gmap string (pyval F)).

Arguments PNone {F}.
Arguments PBool {F} b.
Arguments PInt {F} z.
Arguments PFloat {F} f.
Arguments PStr {F} s.
Arguments PList {F} l.
Arguments PDict {F} m.

(** An optional Python int, as in [last_rx_ms: Optional[int]]. *)
Definition POptInt {F} (o : option Z) : pyval F :=
  match o with Some z => PInt z | None => PNone end.

(** A dict literal [{k1: v1, ...}] with distinct keys. *)
Definition py_dict {F} (l : list (string * pyval F)) : pyval F :=
  PDict (list_to_map l).

(** Lookup in the source text of a dict literal. *)
Fixpoint alist_get {A} (k : string) (l : list (string * A)) : option A :=
  match l with
  | [] => None
  | (k', v) :: l' => if String.eqb k' k then Some v else alist_get k l'
  end.

Section Python_builtins.
Context {F : Type} `{PyNum F}.
Abbreviation val := (pyval F).

(** [bool(v)] *)
Definition truthy (v : val) : bool :=
  match v with
  | PNone => false
  | PBool b => b
  | PInt z => negb (z =? 0)
  | PFloat f => f_nonzero f
  | PStr s => match s with EmptyString => false | _ => true end
  | PList l => match l with [] => false | _ => true end
  | PDict m => negb (Nat.eqb (size m) 0)
  end.

(** [v or d] *)
Definition py_or (v d : val) : val := if truthy v then v else d.

(** [int(v)]; [None] for TypeError, ValueError and OverflowError. *)
Definition py_int (v : val) : option Z :=
  match v with
  | PBool b => Some (if b then 1 else 0)
  | PInt z => Some z
  | PFloat f => f_to_int f
  | PStr s => int_of_str s
  | PNone | PList _ | PDict _ => None
  end.

(** [float(v)] *)
Definition py_float (v : val) : option F :=
  match v with
  | PBool b => Some (f_lit (if b then 1 else 0))
  | PInt z => f_of_int z
  | PFloat f => Some f
  | PStr s => f_of_str s
  | PNone | PList _ | PDict _ => None
  end.

(** [isinstance(v, int)]: [bool] is a subclass of [int]. *)
Definition isinstance_int (v : val) : bool :=
  match v with PInt _ | PBool _ => true | _ => false end.

(** [m.get(k, d)] on a dict. *)
Definition dict_get (m : gmap string val) (k : string) (d : val) : val :=
  default d (m !! k).

(** The receiver of a [.get] call: anything but a dict raises
    AttributeError. *)
Definition as_dict (v : val) : option (gmap string val) :=
  match v with PDict m => Some m | _ => None end.

(** [v == s] for a string literal [s]. *)
Definition py_eq_str (v : val) (s : string) : bool :=
  match v with PStr s' => bool_decide (s' = s) | _ => false end.

End Python_builtins.

(* ===================================================================== *)
(** * Snapshot schema *)
(* ===================================================================== *)

Section Schema.
Context {F : Type}.
Abbreviation val := (pyval F).

Definition is_bool (v : val) : bool := match v with PBool _ => true | _ => false end.
Definition is_int (v : val) : bool := match v with PInt _ => true | _ => false end.
Definition is_str (v : val) : bool := match v with PStr _ => true | _ => false end.
Definition is_opt_int (v : val) : bool :=
  match v with PNone | PInt _ => true | _ => false end.
Definition is_opt_float (v : val) : bool :=
  match v with PNone | PFloat _ => true | _ => false end.
(** The Python reading of [seq: int]: an [int] object, [True] and [False]
    included. *)
Definition is_py_int (v : val) : bool :=
  match v with PInt _ | PBool _ => true | _ => false end.

(** Key [k] is present in [m] and its value passes [P]. *)
Definition has (m : gmap string val) (k : string) (P : val → bool) : bool :=
  match m !! k with Some v => P v | None => false end.

(** A dict holding at least the keys [ks], each passing [P]. *)
Definition dict_of (ks : list string) (P : val → bool) (v : val) : bool :=
  match v with
  | PDict m => forallb (λ k, has m k P) ks
  | _ => false
  end.

Definition analog_entry_ok (v : val) : bool :=
  match v with
  | PDict e => has e "raw" is_opt_int && has e "smooth" is_opt_float
               && has e "norm" is_opt_float
  | _ => false
  end.

Definition health_ok (v : val) : bool :=
  match v with
  | PDict h => has h "stale" is_bool && has h "last_rx_ms" is_opt_int
  | _ => false
  end.

(** The fixed key set of a snapshot with analog channels [channels], [seq]
    typed as [isinstance(_, int)] has it. *)
Definition snapshot_complete (channels : list string) (v : val) : bool :=
  match v with
  | PDict m =>
      has m "type" (λ t, match t with PStr s => bool_decide (s = "vehicle_state")
                                    | _ => false end)
      && has m "ts_ms" is_int
      && has m "source" is_str
      && has m "seq" is_py_int
      && has m "uptime_ms" is_int
      && has m "heartbeat" is_int
      && has m "indicators"
           (dict_of ["left"; "right"; "left_flashing"; "right_flashing"; "high_beam"]
                    is_bool)
      && has m "warnings" (dict_of ["brake"; "oil"; "charge"; "door"] is_bool)
      && has m "spares" (dict_of ["spare_1"] is_bool)
      && has m "analog" (dict_of channels analog_entry_ok)
      && has m "_health" health_ok
  | _ => false
  end.

(** [v[k1][k2]...], [None] as soon as a key is missing. *)
Fixpoint at_path (ks : list string) (v : val) : option val :=
  match ks with
  | [] => Some v
  | k :: ks' =>
      match v with
      | PDict m => m !! k ≫= at_path ks'
      | _ => None
      end
  end.

(** The schema with [seq] typed as the wire format states it: an integer, a
    boolean excluded. *)
Definition snapshot_typed (channels : list string) (v : val) : bool :=
  snapshot_complete channels v
  && match at_path ["seq"] v with Some s => is_int s | None => false end.

End Schema.

(* ===================================================================== *)
(** * vehicle_hub.py: VehicleStateBuilder *)
(* ===================================================================== *)

(** What [state["smooth"]] holds once set: the first sample is stored as the
    Python int it is, later values are floats. *)
Inductive num (F : Type) : Type :=
  | NInt (z : Z)
  | NFloat (f : F).
Arguments NInt {F} z.
Arguments NFloat {F} f.

Section Builder.
Context {F : Type} `{PyNum F}.
Abbreviation val := (pyval F).

(** [STALE_AFTER_MS], read from the environment at import time. *)
Variable STALE_AFTER_MS : Z.

(** [analog_state] is a [defaultdict] of [{"smooth": None}] cells; the only
    access, in [_smooth], sets the cell at once, so an absent key is a
    cell still holding [None]. *)
Record VehicleStateBuilder := mk_builder {
  seq : val;
  last_rx_ms : option Z;
  last_frame : gmap string val;
  analog_state : gmap string (num F)
}.

(** [VehicleStateBuilder()] *)
Definition builder_new : VehicleStateBuilder := mk_builder (PInt 0) None ∅ ∅.

(** [now] is the reading of [now_ms()]. *)
Definition update_from_uno (b : VehicleStateBuilder) (now : Z) (frame : gmap string val)
  : VehicleStateBuilder :=
  mk_builder
    (if isinstance_int (dict_get frame "seq" PNone)
     then dict_get frame "seq" PNone else seq b)
    (Some now)
    frame
    (analog_state b).

Definition num_to_float (n : num F) : option F :=
  match n with NInt z => f_of_int z | NFloat f => Some f end.

(** Code of [build] that may raise after having mutated [analog_state]. *)
Abbreviation M := (SE (gmap string (num F))).

(** [self._smooth(key, raw)] with [raw] an int and [alpha = 0.15]. *)
Definition _smooth (key : string) (raw : Z) : M F :=
  λ st,
    let alpha := f_lit (15 # 100) in
    match st !! key with
    | None =>
        (f_of_int raw, <[key := NInt raw]> st)
    | Some cur =>
        match f_of_int raw with
        | None => (None, st)
        | Some r =>
            match num_to_float cur with
            | None => (None, st)
            | Some c =>
                let v := f_add (f_mul alpha r) (f_mul (f_sub (f_lit 1) alpha) c) in
                (Some v, <[key := NFloat v]> st)
            end
        end
    end.

Definition null_triplet : val :=
  py_dict [("raw", PNone); ("smooth", PNone); ("norm", PNone)].

(** The sample of a channel as [a] reads it: [None] when it is missing,
    null, or rejected by [int]. *)
Definition analog_sample (analog : gmap string val) (name : string) : option Z :=
  match dict_get analog name PNone with
  | PNone => None
  | raw => py_int raw
  end.

(** The closure [a] of [build]. *)
Definition a (analog : gmap string val) (name : string) : M val :=
  match analog_sample analog name with
  | None => mret null_triplet
  | Some raw_i =>
      smooth ← _smooth name raw_i;
      n ← lift (f_of_int raw_i);
      mret (py_dict [("raw", PInt raw_i);
                    ("smooth", PFloat (f_round 2 smooth));
                    ("norm", PFloat (f_round 4 (f_div n (f_lit 1023))))])
  end.

(** The closure [d] of [build]. *)
Definition d (inputs : gmap string val) (pin : string) : bool :=
  truthy (dict_get inputs pin (PBool false)).

Definition stale_flag (last_rx : option Z) (ts : Z) : bool :=
  match last_rx with
  | None => true
  | Some rx => STALE_AFTER_MS <? ts - rx
  end.

Definition build_body (b : VehicleStateBuilder) (ts : Z) : M val :=
  let stale := stale_flag (last_rx_ms b) ts in
  let frame := last_frame b in
  let inputs_v := py_or (dict_get frame "inputs" PNone) (PDict ∅) in
  let analog_v := py_or (dict_get frame "analog" PNone) (PDict ∅) in
  uptime ← lift (py_int (py_or (dict_get frame "uptime_ms" (PInt 0)) (PInt 0)));
  heartbeat ← lift (py_int (py_or (dict_get frame "heartbeat" (PInt 0)) (PInt 0)));
  inputs ← lift (as_dict inputs_v);
  analog ← lift (as_dict analog_v);
  a0 ← a analog "A0";
  a1 ← a analog "A1";
  a2 ← a analog "A2";
  a3 ← a analog "A3";
  a4 ← a analog "A4";
  a5 ← a analog "A5";
  mret (py_dict [
    ("type", PStr "vehicle_state");
    ("ts_ms", PInt ts);
    ("source", PStr "bbb_vehicle_hub");
    ("seq", seq b);
    ("uptime_ms", PInt uptime);
    ("heartbeat", PInt heartbeat);
    ("indicators", py_dict [
       ("left", PBool (d inputs "D2"));
       ("right", PBool (d inputs "D3"));
       ("left_flashing", PBool (d inputs "D2"));
       ("right_flashing", PBool (d inputs "D3"));
       ("high_beam", PBool (d inputs "D4"))]);
    ("warnings", py_dict [
       ("brake", PBool (d inputs "D5"));
       ("oil", PBool (d inputs "D6"));
       ("charge", PBool (d inputs "D7"));
       ("door", PBool (d inputs "D8"))]);
    ("spares", py_dict [("spare_1", PBool (d inputs "D9"))]);
    ("analog", py_dict [
       ("fuel_sender_raw", a0);
       ("coolant_sender_raw", a1);
       ("aux_analog_2", a2);
       ("aux_analog_3", a3);
       ("aux_analog_4", a4);
       ("aux_analog_5", a5)]);
    ("_health", py_dict [
       ("stale", PBool stale);
       ("last_rx_ms", POptInt (last_rx_ms b))])]).

(** [self.build()] at clock reading [ts]: the snapshot, or [None] when an
    exception escapes, and the builder afterwards. *)
Definition build (b : VehicleStateBuilder) (ts : Z) : option val * VehicleStateBuilder :=
  let '(r, st) := build_body b ts (analog_state b) in
  (r, mk_builder (seq b) (last_rx_ms b) (last_frame b) st).

(** The pins [build] reads with [a], and the channel each one fills. *)
Definition hub_analog_pins : list (string * string) :=
  [("A0", "fuel_sender_raw"); ("A1", "coolant_sender_raw"); ("A2", "aux_analog_2");
   ("A3", "aux_analog_3"); ("A4", "aux_analog_4"); ("A5", "aux_analog_5")].

(** The analog dict of the last frame as [build] reads it. *)
Definition frame_analog (frame : gmap string val) : option (gmap string val) :=
  as_dict (py_or (dict_get frame "analog" PNone) (PDict ∅)).

(** A smoothing cell after [_smooth] has returned for int sample [z]. *)
Definition smooth_next (cell : option (num F)) (z : Z) : option (num F) :=
  match cell with
  | None => Some (NInt z)
  | Some cur =>
      r ← f_of_int z;
      c ← num_to_float cur;
      Some (NFloat (f_add (f_mul (f_lit (15 # 100)) r)
                          (f_mul (f_sub (f_lit 1) (f_lit (15 # 100))) c)))
  end.

(** The builder holding another frame. *)
Definition with_frame (b : VehicleStateBuilder) (frame : gmap string val)
  : VehicleStateBuilder :=
  mk_builder (seq b) (last_rx_ms b) frame (analog_state b).

(** The frame without the sample of [pin]. *)
Definition drop_sample (frame : gmap string val) (pin : string) : gmap string val :=
  match frame_analog frame with
  | Some analog => <["analog" := PDict (delete pin analog)]> frame
  | None => frame
  end.

(** An inbound frame as the interface describes it, every field optional:
    int [uptime_ms] and [heartbeat], an object of [inputs], an object
    of [analog] whose samples are ints that [float] accepts. *)
Definition plain_frame (frame : gmap string val) : Prop :=
  (∀ v, frame !! "uptime_ms" = Some v → ∃ z, v = PInt z) ∧
  (∀ v, frame !! "heartbeat" = Some v → ∃ z, v = PInt z) ∧
  (∀ v, frame !! "inputs" = Some v → ∃ m, v = PDict m) ∧
  (∀ v, frame !! "analog" = Some v →
        ∃ m, v = PDict m ∧
             ∀ pin w, m !! pin = Some w → ∃ z, w = PInt z ∧ is_Some (f_of_int z)).

(** Every smoothing cell holds a number that converts to float. *)
Definition cells_ok (st : gmap string (num F)) : Prop :=
  ∀ k n, st !! k = Some n → is_Some (num_to_float n).

(** The analog channel names of the hub's snapshot. *)
Definition hub_channels : list string :=
  ["fuel_sender_raw"; "coolant_sender_raw"; "aux_analog_2";
   "aux_analog_3"; "aux_analog_4"; "aux_analog_5"].

End Builder.

Arguments VehicleStateBuilder F : clear implicits.

(* ===================================================================== *)
(** * vehicle_hub.py: the tasks of [main] *)
(* ===================================================================== *)

Section Hub.
Context {F : Type} `{PyNum F}.
Abbreviation val := (pyval F).
Variable STALE_AFTER_MS : Z.

(** A frame that [serial_reader_task] hands to the builder: a JSON object
    whose ["type"] is ["vehicle_inputs"]. *)
Definition accepted (obj : val) : bool :=
  match obj with
  | PDict frame => py_eq_str (dict_get frame "type" PNone) "vehicle_inputs"
  | _ => false
  end.

(** The effect on the builder of one line that [json.loads] has parsed into
    [obj], read at clock reading [now].  On anything but a JSON object
    [obj.get] raises, which the outer handler catches to reopen the
    port; the builder is not touched. *)
Definition serial_reader_line (b : VehicleStateBuilder F) (now : Z) (obj : val)
  : VehicleStateBuilder F :=
  match obj with
  | PDict frame => if accepted obj then update_from_uno b now frame else b
  | _ => b
  end.

Record HubState := mk_hub_state {
  builder : VehicleStateBuilder F;
  latest_state : val
}.

(** The process: the shared [HubState], whether the [state_pump] task is
    still running, how many WebSocket connections have been accepted (the
    n-th one is client [n - 1]), the clients whose handler is still
    running, and every message sent so far, oldest first, with the client
    it went to. *)
Record Hub := mk_hub {
  hub : HubState;
  pump_running : bool;
  connections : nat;
  clients : gset nat;
  sent : list (nat * val)
}.

Definition hello (ts : Z) : val :=
  py_dict [("type", PStr "hello");
           ("service", PStr "vehicle_hub");
           ("source", PStr "bbb_vehicle_hub");
           ("ts_ms", PInt ts)].

(** [main] up to [websockets.serve]: the builder, and the slot filled with
    [builder.build()].  No task runs and no client is served before. *)
Definition main (ts : Z) : option Hub :=
  let '(r, b) := build STALE_AFTER_MS builder_new ts in
  match r with
  | Some snap => Some (mk_hub (mk_hub_state b snap) true 0 ∅ [])
  | None => None
  end.

(** One iteration of [state_pump].  An exception escaping [build] ends the
    task; the slot keeps its last value. *)
Definition state_pump (h : Hub) (ts : Z) : Hub :=
  if pump_running h then
    let '(r, b) := build STALE_AFTER_MS (builder (hub h)) ts in
    match r with
    | Some snap =>
        mk_hub (mk_hub_state b snap) true (connections h) (clients h) (sent h)
    | None =>
        mk_hub (mk_hub_state b (latest_state (hub h))) false
               (connections h) (clients h) (sent h)
    end
  else h.

(** [ws_handler] of a new connection, up to its loop: the hello message. *)
Definition ws_handler_hello (h : Hub) (ts : Z) : Hub :=
  let client := connections h in
  mk_hub (hub h) (pump_running h) (S client) ({[client]} ∪ clients h)
         (sent h ++ [(client, hello ts)]).

(** One iteration of the loop of [ws_handler]: the slot as it is now. *)
Definition ws_handler_push (h : Hub) (client : nat) : Hub :=
  if bool_decide (client ∈ clients h)
  then mk_hub (hub h) (pump_running h) (connections h) (clients h)
              (sent h ++ [(client, latest_state (hub h))])
  else h.

(** A failed send ends the handler of that client. *)
Definition ws_handler_fail (h : Hub) (client : nat) : Hub :=
  mk_hub (hub h) (pump_running h) (connections h) (clients h ∖ {[client]}) (sent h).

(** The atomic steps of the three kinds of task.  The event loop is
    single-threaded and none of the steps contains an [await]. *)
Inductive event :=
  | SerialLine (now : Z) (obj : val)
  | PumpTick (ts : Z)
  | WsConnect (ts : Z)
  | WsPush (client : nat)
  | WsFail (client : nat).

Definition step (h : Hub) (e : event) : Hub :=
  match e with
  | SerialLine now obj =>
      mk_hub (mk_hub_state (serial_reader_line (builder (hub h)) now obj)
                           (latest_state (hub h)))
             (pump_running h) (connections h) (clients h) (sent h)
  | PumpTick ts => state_pump h ts
  | WsConnect ts => ws_handler_hello h ts
  | WsPush client => ws_handler_push h client
  | WsFail client => ws_handler_fail h client
  end.

Definition run (h : Hub) (events : list event) : Hub := fold_left step events h.

(** The messages client [c] has been sent, oldest first. *)
Definition sent_to (h : Hub) (c : nat) : list val :=
  (filter (λ m, m.1 = c) (sent h)).*2.

Definition is_hello (m : val) : Prop := ∃ ts, m = hello ts.

(** A complete snapshot that reports stale and no reception time. *)
Definition stale_snapshot (m : val) : Prop :=
  snapshot_complete hub_channels m = true ∧
  at_path ["_health"; "stale"] m = Some (PBool true) ∧
  at_path ["_health"; "last_rx_ms"] m = Some PNone.


(** What holds of a hub whatever has happened. *)
Definition hub_inv (h : Hub) : Prop :=
  is_py_int (seq (builder (hub h))) = true ∧
  snapshot_complete hub_channels (latest_state (hub h)) = true ∧
  Forall (λ m, is_hello m.2 ∨ snapshot_complete hub_channels m.2 = true) (sent h).

(** What holds of a hub as long as no frame has been accepted. *)
Definition silent_inv (h : Hub) : Prop :=
  builder (hub h) = builder_new ∧
  stale_snapshot (latest_state (hub h)) ∧
  ∀ c, ((connections h ≤ c)%nat → (c ∉ clients h) ∧ sent_to h c = []) ∧
       (c ∈ clients h → sent_to h c ≠ []) ∧
       match sent_to h c with
       | [] => True
       | first :: rest => is_hello first ∧ Forall stale_snapshot rest
       end.

(** No frame the builder accepts carries a JSON boolean as its ["seq"]. *)
Definition no_boolean_seq (events : list event) : Prop :=
  Forall (λ e, match e with
               | SerialLine _ (PDict frame) =>
                   accepted (PDict frame) = true → ∀ t, frame !! "seq" ≠ Some (PBool t)
               | _ => True
               end) events.

(** What holds of a hub as long as no accepted frame carries a boolean
    ["seq"]. *)
Definition typed_inv (h : Hub) : Prop :=
  is_int (seq (builder (hub h))) = true ∧
  snapshot_typed hub_channels (latest_state (hub h)) = true ∧
  Forall (λ m, is_hello m.2 ∨ snapshot_typed hub_channels m.2 = true) (sent h).

End Hub.

Arguments HubState F : clear implicits.
Arguments Hub F : clear implicits.
Arguments event F : clear implicits.

(* ===================================================================== *)
(** * mapping.py *)
(* ===================================================================== *)

Module AnalogMap.
Record t := mk {
  name : string;
  min : Z;
  max : Z;
  invert : bool
}.
End AnalogMap.

(** The two dicts of a [PinMap], in iteration order. *)
Record PinMap := mk_PinMap {
  digital : list (string * string);
  analog : list (string * AnalogMap.t)
}.

Section Mapping.
Context {F : Type} `{PyNum F}.

Definition normalize_analog (raw : F) (amap : AnalogMap.t) : option F :=
  lo ← f_of_int (AnalogMap.min amap);
  hi ← f_of_int (AnalogMap.max amap);
  if f_leb hi lo then Some (f_lit 0)
  else
    let x := raw in
    let x := if f_ltb x lo then lo else x in
    let x := if f_ltb hi x then hi else x in
    let n := f_div (f_sub x lo) (f_sub hi lo) in
    let n := if AnalogMap.invert amap then f_sub (f_lit 1) n else n in
    Some (py_max (f_lit 0) (py_min (f_lit 1) n)).

End Mapping.

(* ===================================================================== *)
(** * transformer.py *)
(* ===================================================================== *)

Section Transformer.
Context {F : Type} `{PyNum F}.
Abbreviation val := (pyval F).

(** [dict(l)] for a list [l], restricted to its string keys; [None] when it
    raises.  Only string keys are ever looked up. *)
Variable dict_of_list : list val → option (gmap string val).

(** [dict(v)] for a truthy [v]. *)
Definition dict_copy (v : val) : option (gmap string val) :=
  match v with
  | PDict m => Some m
  | PList l => dict_of_list l
  | _ => None
  end.

Record VehicleStateTransformer := mk_transformer {
  pinmap : PinMap;
  _dig_stab : gmap string HoldLatch.t;
  _flash : gmap string FlashDetector.t;
  _analog_clamp : gmap string (OutlierClamp.t F);
  _analog_ema : gmap string (EMA.t F);
  stale_timeout_ms : Z;
  _last_frame_ms : Z
}.

Definition is_indicator (name : string) : bool :=
  bool_decide (name = "left_indicator") || bool_decide (name = "right_indicator").

(** [VehicleStateTransformer(pinmap)], after [__post_init__]. *)
Definition transformer_new (pm : PinMap) : VehicleStateTransformer :=
  let dig :=
    fold_left
      (λ '(stab, flash) '(d_pin, name),
         let hold := if is_indicator name then 80 else 0 in
         (<[name := HoldLatch.new 30 hold]> stab,
          if is_indicator name
          then <[name := FlashDetector.new 1200 2]> flash
          else flash))
      (digital pm) (∅, ∅) in
  let ana :=
    fold_left
      (λ '(clamp, ema) '(a_pin, amap),
         (<[AnalogMap.name amap := OutlierClamp.new (f_lit 120)]> clamp,
          <[AnalogMap.name amap := EMA.new (f_lit (25 # 100))]> ema))
      (analog pm) (∅, ∅) in
  mk_transformer pm dig.1 dig.2 ana.1 ana.2 1500 0.

Abbreviation T := (SE VehicleStateTransformer).

Definition set_dig_stab (name : string) (l : HoldLatch.t) : T () :=
  λ tr, (Some (), mk_transformer (pinmap tr) (<[name := l]> (_dig_stab tr)) (_flash tr)
                    (_analog_clamp tr) (_analog_ema tr)
                    (stale_timeout_ms tr) (_last_frame_ms tr)).

Definition set_flash (name : string) (f : FlashDetector.t) : T () :=
  λ tr, (Some (), mk_transformer (pinmap tr) (_dig_stab tr) (<[name := f]> (_flash tr))
                    (_analog_clamp tr) (_analog_ema tr)
                    (stale_timeout_ms tr) (_last_frame_ms tr)).

Definition set_analog_clamp (name : string) (c : OutlierClamp.t F) : T () :=
  λ tr, (Some (), mk_transformer (pinmap tr) (_dig_stab tr) (_flash tr)
                    (<[name := c]> (_analog_clamp tr)) (_analog_ema tr)
                    (stale_timeout_ms tr) (_last_frame_ms tr)).

Definition set_analog_ema (name : string) (e : EMA.t F) : T () :=
  λ tr, (Some (), mk_transformer (pinmap tr) (_dig_stab tr) (_flash tr)
                    (_analog_clamp tr) (<[name := e]> (_analog_ema tr))
                    (stale_timeout_ms tr) (_last_frame_ms tr)).

Definition set_last_frame_ms (now_ms : Z) : T () :=
  λ tr, (Some (), mk_transformer (pinmap tr) (_dig_stab tr) (_flash tr)
                    (_analog_clamp tr) (_analog_ema tr)
                    (stale_timeout_ms tr) now_ms).

(** [self.<field>[name]], KeyError when absent. *)
Definition item {A} (field : VehicleStateTransformer → gmap string A) (name : string) : T A :=
  λ tr, (field tr !! name, tr).

(** [name in self._flash] *)
Definition in_flash (name : string) : T bool :=
  λ tr, (Some (bool_decide (is_Some (_flash tr !! name))), tr).

(** Body of the loop over [pinmap.digital]; the accumulator is
    [(named_digital, flashing)]. *)
Definition digital_step (raw_inputs : gmap string val) (now_ms : Z)
    (acc : gmap string bool * gmap string bool) (entry : string * string)
  : T (gmap string bool * gmap string bool) :=
  let '(d_pin, name) := entry in
  let raw_val := truthy (dict_get raw_inputs d_pin (PBool false)) in
  latch ← item _dig_stab name;
  let '(stable, latch') := HoldLatch.update latch raw_val now_ms in
  _ ← set_dig_stab name latch';
  let named := <[name := stable]> acc.1 in
  tracked ← in_flash name;
  if tracked : bool then
    fd ← item _flash name;
    let '(flashing, fd') := FlashDetector.update fd stable now_ms in
    _ ← set_flash name fd';
    mret (named, <[name := flashing]> acc.2)
  else mret (named, acc.2).

(** The sample of a pin as the analog loop reads it: [None] when it is
    missing, null, or rejected by [float]. *)
Definition analog_reading (raw_analog : gmap string val) (a_pin : string) : option F :=
  match dict_get raw_analog a_pin PNone with
  | PNone => None
  | raw => py_float raw
  end.

(** Body of the loop over [pinmap.analog]; the accumulator is
    [analog_out]. *)
Definition analog_step (raw_analog : gmap string val)
    (analog_out : gmap string val) (entry : string * AnalogMap.t)
  : T (gmap string val) :=
  let '(a_pin, amap) := entry in
  match analog_reading raw_analog a_pin with
  | None => mret analog_out
  | Some raw_f =>
      clamp ← item _analog_clamp (AnalogMap.name amap);
      let '(clamped, clamp') := OutlierClamp.update clamp raw_f in
      _ ← set_analog_clamp (AnalogMap.name amap) clamp';
      ema ← item _analog_ema (AnalogMap.name amap);
      let '(smooth, ema') := EMA.update ema clamped in
      _ ← set_analog_ema (AnalogMap.name amap) ema';
      norm ← lift (normalize_analog smooth amap);
      raw_i ← lift (f_to_int raw_f);
      mret (<[AnalogMap.name amap :=
                py_dict [("raw", PInt raw_i);
                         ("smooth", PFloat (f_round 2 smooth));
                         ("norm", PFloat (f_round 4 norm))]]> analog_out)
  end.

Definition named_get (m : gmap string bool) (name : string) : val :=
  PBool (default false (m !! name)).

(** The [state] dict that [transform] builds last. *)
Definition assemble (now_ms : Z) (frame : gmap string val)
    (named_digital flashing : gmap string bool) (analog_out : gmap string val)
  : option val :=
  seq_i ← py_int (dict_get frame "seq" (PInt 0));
  uptime ← py_int (dict_get frame "uptime_ms" (PInt 0));
  heartbeat ← py_int (dict_get frame "heartbeat" (PInt 0));
  Some (py_dict [
    ("type", PStr "vehicle_state");
    ("ts_ms", PInt now_ms);
    ("source", PStr "bbb_vehicle_hub");
    ("seq", PInt seq_i);
    ("uptime_ms", PInt uptime);
    ("heartbeat", PInt heartbeat);
    ("indicators", py_dict [
       ("left", named_get named_digital "left_indicator");
       ("right", named_get named_digital "right_indicator");
       ("left_flashing", named_get flashing "left_indicator");
       ("right_flashing", named_get flashing "right_indicator");
       ("high_beam", named_get named_digital "high_beam")]);
    ("warnings", py_dict [
       ("brake", named_get named_digital "brake_warning");
       ("oil", named_get named_digital "oil_pressure");
       ("charge", named_get named_digital "charge_lamp");
       ("door", named_get named_digital "door_ajar")]);
    ("spares", py_dict [("spare_1", named_get named_digital "spare_1")]);
    ("analog", PDict analog_out);
    ("_health", py_dict [("stale", PBool false)])]).

(** [self.transform(frame)] at wall-clock reading [now_ms]. *)
Definition transform (now_ms : Z) (frame : gmap string val) : T val :=
  _ ← set_last_frame_ms now_ms;
  raw_inputs ← lift (dict_copy (py_or (dict_get frame "inputs" (PDict ∅)) (PDict ∅)));
  raw_analog ← lift (dict_copy (py_or (dict_get frame "analog" (PDict ∅)) (PDict ∅)));
  pm ← (λ tr, (Some (pinmap tr), tr));
  dig ← for_each (digital_step raw_inputs now_ms) (∅, ∅) (digital pm);
  analog_out ← for_each (analog_step raw_analog) ∅ (analog pm);
  lift (assemble now_ms frame dig.1 dig.2 analog_out).

(** Two states of a transformer that differ at most in the digital
    stabilisers. *)
Definition same_analog_side (tr tr' : VehicleStateTransformer) : Prop :=
  pinmap tr' = pinmap tr ∧
  _analog_clamp tr' = _analog_clamp tr ∧
  _analog_ema tr' = _analog_ema tr ∧
  stale_timeout_ms tr' = stale_timeout_ms tr ∧
  _last_frame_ms tr' = _last_frame_ms tr.

(** Two states of a transformer that agree on everything but the analog
    filters of channels other than [n]. *)
Definition same_but_other_channels (n : string) (tr tr' : VehicleStateTransformer)
  : Prop :=
  pinmap tr' = pinmap tr ∧
  _dig_stab tr' = _dig_stab tr ∧
  _flash tr' = _flash tr ∧
  _analog_clamp tr' !! n = _analog_clamp tr !! n ∧
  _analog_ema tr' !! n = _analog_ema tr !! n ∧
  stale_timeout_ms tr' = stale_timeout_ms tr ∧
  _last_frame_ms tr' = _last_frame_ms tr.

(** Two states of a transformer that agree on everything but the latches
    and flash detectors of signals other than [n]. *)
Definition same_but_other_signals (n : string) (tr tr' : VehicleStateTransformer)
  : Prop :=
  _dig_stab tr' !! n = _dig_stab tr !! n ∧
  _flash tr' !! n = _flash tr !! n ∧
  same_analog_side tr tr'.

(** The same transformer over another pin map. *)
Definition with_pinmap (pm : PinMap) (tr : VehicleStateTransformer)
  : VehicleStateTransformer :=
  mk_transformer pm (_dig_stab tr) (_flash tr) (_analog_clamp tr) (_analog_ema tr)
                 (stale_timeout_ms tr) (_last_frame_ms tr).

(** The sample of a pin as [transform] reads it from a frame. *)
Definition frame_reading (frame : gmap string val) (a_pin : string) : option F :=
  raw_analog ← dict_copy (py_or (dict_get frame "analog" (PDict ∅)) (PDict ∅));
  analog_reading raw_analog a_pin.

(** [self.health_state()] at wall-clock reading [now_ms]. *)
Definition health_state (tr : VehicleStateTransformer) (now_ms : Z) : val :=
  let stale :=
    if negb (_last_frame_ms tr =? 0)
    then stale_timeout_ms tr <? now_ms - _last_frame_ms tr
    else true in
  py_dict [("type", PStr "vehicle_state");
           ("ts_ms", PInt now_ms);
           ("source", PStr "bbb_vehicle_hub");
           ("_health", py_dict [("stale", PBool stale)])].

End Transformer.

Arguments VehicleStateTransformer F : clear implicits.

(* ===================================================================== *)
(** * Example inputs *)
(* ===================================================================== *)

(** A frame as the Uno sends them: digital pin D2 and analog pin A0. *)
Definition uno_frame (seq_v : pyval Q) (d2 : bool) (a0 : Z) : gmap string (pyval Q) :=
  list_to_map [("type", PStr "vehicle_inputs");
               ("seq", seq_v);
               ("uptime_ms", PInt 5000);
               ("heartbeat", PInt 3);
               ("inputs", py_dict [("D2", PBool d2)]);
               ("analog", py_dict [("A0", PInt a0)])].

(** A frame with the given analog samples and nothing else. *)
Definition analog_frame (samples : list (string * pyval Q)) : gmap string (pyval Q) :=
  list_to_map [("type", PStr "vehicle_inputs");
               ("seq", PInt 1);
               ("analog", py_dict samples)].

(** A pin map in the style of the mapping file. *)
Definition example_pinmap : PinMap :=
  mk_PinMap
    [("D2", "left_indicator"); ("D3", "right_indicator"); ("D4", "high_beam")]
    [("A0", AnalogMap.mk "fuel_sender_raw" 0 1023 false);
     ("A1", AnalogMap.mk "coolant_sender_raw" 0 1023 false)].

(** No frame below holds a list where a dict is expected. *)
Definition no_list_dicts : list (pyval Q) → option (gmap string (pyval Q)) := λ _, None.

(** [transform] on consecutive frames, each with its clock reading. *)
Fixpoint transform_all (tr : VehicleStateTransformer Q)
    (frames : list (Z * gmap string (pyval Q))) : list (option (pyval Q)) :=
  match frames with
  | [] => []
  | (now_ms, frame) :: frames' =>
      let '(r, tr') := transform no_list_dicts now_ms frame tr in
      r :: transform_all tr' frames'
  end.

(** The value at a path of each snapshot of a list. *)
Definition column (path : list string) (snaps : list (option (pyval Q)))
  : list (option (pyval Q)) :=
  (λ r, r ≫= at_path path) <$> snaps.

(* ===================================================================== *)
(** * vehicle_hub.py: choosing the serial port *)
(* ===================================================================== *)

Definition DEFAULT_BY_ID_GLOB : string := "/dev/serial/by-id".
Definition DEFAULT_FALLBACK_PORT : string := "/dev/ttyACM0".

(** [needle in s] on strings. *)
Fixpoint str_in (needle s : string) : bool :=
  String.prefix needle s ||
  match s with
  | EmptyString => false
  | String _ s' => str_in needle s'
  end.

(** [s.endswith("/")] *)
Fixpoint ends_with_sep (s : string) : bool :=
  match s with
  | EmptyString => false
  | String c EmptyString => Ascii.eqb c "/"
  | String _ s' => ends_with_sep s'
  end.

(** [os.path.join(a, b)] of [posixpath]. *)
Definition path_join (a b : string) : string :=
  if String.prefix "/" b then b
  else if String.eqb a "" || ends_with_sep a then String.append a b
  else String.append a (String.append "/" b).

(** The order of [str]: character by character, by code. *)
Definition str_le (a b : string) : Prop := String.leb a b = true.

#[export] Instance str_le_dec : RelDecision str_le.
Proof. intros a b. unfold str_le. apply _. Defined.

(** [sorted(names)] *)
Definition sorted (names : list string) : list string := merge_sort str_le names.

Definition is_arduino (name : string) : bool :=
  str_in "Arduino" name || str_in "arduino" name.

(** [_pick_serial_port()].  [SERIAL_PORT] is the module constant, [isdir]
    the answer of [os.path.isdir] and [listdir] that of [os.listdir] on the
    by-id directory, [None] when it raises. *)
Definition _pick_serial_port (SERIAL_PORT : string) (isdir : bool)
    (listdir : option (list string)) : string :=
  if negb (String.eqb SERIAL_PORT "") then SERIAL_PORT
  else
    let by_id :=
      if isdir then
        entries ← sorted <$> listdir;
        match List.find is_arduino entries with
        | Some name => Some (path_join DEFAULT_BY_ID_GLOB name)
        | None =>
            match entries with
            | name :: _ => Some (path_join DEFAULT_BY_ID_GLOB name)
            | [] => None
            end
        end
      else None in
    default DEFAULT_FALLBACK_PORT by_id.

(* ===================================================================== *)
(** * vehicle_hub.py: serial_reader_task *)
(* ===================================================================== *)

Section SerialTask.
Context {F : Type} `{PyNum F}.

(** [asyncio.Queue(maxsize=200)] *)
Definition QUEUE_MAXSIZE : nat := 200.

(** The task between two I/O calls: the builder it feeds, the queue [q]
    (oldest first), [backoff], whether the port is open (control is inside
    the [with] block), and every delay slept in the [except] branch so
    far. *)
Record SerialTask := mk_serial_task {
  task_builder : VehicleStateBuilder F;
  task_queue : list (pyval F);
  task_backoff : F;
  task_port_open : bool;
  task_slept : list F
}.

(** The task before its first attempt to open the port. *)
Definition serial_task_start (b : VehicleStateBuilder F) : SerialTask :=
  mk_serial_task b [] (f_lit (25 # 100)) false [].

(** [q.put_nowait(obj)], and on [QueueFull] the oldest entry makes room. *)
Definition put_drop_oldest (q : list (pyval F)) (obj : pyval F) : list (pyval F) :=
  if (length q <? QUEUE_MAXSIZE)%nat then q ++ [obj] else tail q ++ [obj].

(** What the next I/O call of the task does: [serial.Serial(...)] raises or
    returns; [ser.readline()] raises, times out, returns a line that is
    blank or that [json.loads] rejects, or returns a line that [json.loads]
    parses into [obj] (the clock reads [now] then). *)
Inductive serial_io :=
  | OpenRaises
  | OpenReturns
  | ReadRaises
  | ReadTimeout
  | ReadJunk
  | ReadJson (now : Z) (obj : pyval F).

(** The [except Exception] branch: the [with] block has closed the port;
    sleep, then double the delay up to 5 s. *)
Definition serial_except (t : SerialTask) : SerialTask :=
  mk_serial_task (task_builder t) (task_queue t)
    (py_min (f_mul (task_backoff t) (f_lit 2)) (f_lit 5))
    false
    (task_slept t ++ [task_backoff t]).

(** One I/O call and the code up to the next one.  [None]: the call is not
    the one the task makes in this state.  On a JSON value that is not an
    object, [obj.get] raises AttributeError, which the outer handler
    catches. *)
Definition serial_step (t : SerialTask) (io : serial_io) : option SerialTask :=
  match io, task_port_open t with
  | OpenRaises, false => Some (serial_except t)
  | OpenReturns, false =>
      Some (mk_serial_task (task_builder t) (task_queue t) (f_lit (25 # 100)) true
                           (task_slept t))
  | ReadRaises, true => Some (serial_except t)
  | ReadTimeout, true | ReadJunk, true => Some t
  | ReadJson now obj, true =>
      match obj with
      | PDict _ =>
          Some (mk_serial_task (serial_reader_line (task_builder t) now obj)
                               (put_drop_oldest (task_queue t) obj)
                               (task_backoff t) true (task_slept t))
      | _ => Some (serial_except t)
      end
  | _, _ => None
  end.

Fixpoint serial_run (t : SerialTask) (ios : list serial_io) : option SerialTask :=
  match ios with
  | [] => Some t
  | io :: ios' => t' ← serial_step t io; serial_run t' ios'
  end.


(** The JSON objects among the lines read, oldest first. *)
Definition json_objects (ios : list serial_io) : list (pyval F) :=
  omap (λ io, match io with
              | ReadJson _ (PDict m) => Some (PDict m)
              | _ => None
              end) ios.

(** The builder after [update_from_uno] on every accepted frame among the
    lines read. *)
Definition frames_ingested (b : VehicleStateBuilder F) (ios : list serial_io)
  : VehicleStateBuilder F :=
  fold_left (λ b io, match io with
                     | ReadJson now obj => serial_reader_line b now obj
                     | _ => b
                     end) ios b.

End SerialTask.

Arguments SerialTask F : clear implicits.
Arguments serial_io F : clear implicits.

(* ===================================================================== *)
(** * vehicle_hub.py: more on the hub *)
(* ===================================================================== *)

Section Hub_more.
Context {F : Type} `{PyNum F}.

(** The digital fields of the hub's snapshot, and the pin [build] reads for
    each. *)
Definition hub_digital_fields : list (list string * string) :=
  [(["indicators"; "left"], "D2");
   (["indicators"; "right"], "D3");
   (["indicators"; "left_flashing"], "D2");
   (["indicators"; "right_flashing"], "D3");
   (["indicators"; "high_beam"], "D4");
   (["warnings"; "brake"], "D5");
   (["warnings"; "oil"], "D6");
   (["warnings"; "charge"], "D7");
   (["warnings"; "door"], "D8");
   (["spares"; "spare_1"], "D9")].

(** Every frame of the trace that the builder accepts is a plain one. *)
Definition plain_traffic (events : list (event F)) : Prop :=
  Forall (λ e, match e with
               | SerialLine _ (PDict frame) =>
                   accepted (PDict frame) = true → plain_frame frame
               | _ => True
               end) events.

(** What holds of a hub as long as every accepted frame is plain. *)
Definition pump_inv (h : Hub F) : Prop :=
  pump_running h = true ∧
  plain_frame (last_frame (builder (hub h))) ∧
  cells_ok (analog_state (builder (hub h))).

(** What holds of the messages of each client whatever has happened. *)
Definition client_inv (h : Hub F) : Prop :=
  ∀ c, ((connections h ≤ c)%nat → (c ∉ clients h) ∧ sent_to h c = []) ∧
       ((c < connections h)%nat →
        ∃ ts rest, sent_to h c = hello ts :: rest ∧
                   Forall (λ m, snapshot_complete hub_channels m = true) rest).

End Hub_more.

(* ===================================================================== *)
(** * transformer.py: more on the transformer *)
(* ===================================================================== *)

Section Transformer_more.
Context {F : Type} `{PyNum F}.
Variable dict_of_list : list (pyval F) → option (gmap string (pyval F)).

(** [transform] on consecutive frames, each with its clock reading: what
    each call returns, and the transformer afterwards. *)
Fixpoint transform_run (tr : VehicleStateTransformer F)
    (frames : list (Z * gmap string (pyval F)))
  : list (option (pyval F)) * VehicleStateTransformer F :=
  match frames with
  | [] => ([], tr)
  | (now_ms, frame) :: frames' =>
      let '(r, tr') := transform dict_of_list now_ms frame tr in
      let '(rs, tr'') := transform_run tr' frames' in
      (r :: rs, tr'')
  end.

(** The level fields of the snapshot of [transform], and the signal name
    each one is looked up under. *)
Definition transformer_level_fields : list (list string * string) :=
  [(["indicators"; "left"], "left_indicator");
   (["indicators"; "right"], "right_indicator");
   (["indicators"; "high_beam"], "high_beam");
   (["warnings"; "brake"], "brake_warning");
   (["warnings"; "oil"], "oil_pressure");
   (["warnings"; "charge"], "charge_lamp");
   (["warnings"; "door"], "door_ajar");
   (["spares"; "spare_1"], "spare_1")].

Definition transformer_flash_fields : list (list string * string) :=
  [(["indicators"; "left_flashing"], "left_indicator");
   (["indicators"; "right_flashing"], "right_indicator")].

(** An analog entry as [transform] writes them: nothing is null. *)
Definition analog_entry_full (v : pyval F) : bool :=
  match v with
  | PDict e => has e "raw" is_int
               && has e "smooth" (λ x, match x with PFloat _ => true | _ => false end)
               && has e "norm" (λ x, match x with PFloat _ => true | _ => false end)
  | _ => false
  end.

(** The keys of the snapshot of [transform] other than the channels of
    ["analog"]. *)
Definition transformer_fixed_keys (v : pyval F) : bool :=
  match v with
  | PDict m =>
      has m "type" (λ t, py_eq_str t "vehicle_state")
      && has m "ts_ms" is_int
      && has m "source" (λ t, py_eq_str t "bbb_vehicle_hub")
      && has m "seq" is_int
      && has m "uptime_ms" is_int
      && has m "heartbeat" is_int
      && has m "indicators"
           (dict_of ["left"; "right"; "left_flashing"; "right_flashing"; "high_beam"]
                    is_bool)
      && has m "warnings" (dict_of ["brake"; "oil"; "charge"; "door"] is_bool)
      && has m "spares" (dict_of ["spare_1"] is_bool)
      && has m "analog" (λ a, match a with PDict _ => true | _ => false end)
      && has m "_health" (dict_of ["stale"] is_bool)
  | _ => false
  end.

(** A frame that [transform] takes without raising: a plain frame whose
    [seq], when present, is an int, and whose samples come back from
    [float] as values that [int] accepts. *)
Definition transformer_frame_ok (frame : gmap string (pyval F)) : Prop :=
  plain_frame frame ∧
  (∀ v, frame !! "seq" = Some v → ∃ z, v = PInt z) ∧
  (∀ m pin z r, frame !! "analog" = Some (PDict m) → m !! pin = Some (PInt z) →
                f_of_int z = Some r → is_Some (f_to_int r)).

(** The ranges of a pin map convert to float. *)
Definition ranges_ok (pm : PinMap) : Prop :=
  ∀ pin amap, (pin, amap) ∈ analog pm →
              is_Some (f_of_int (AnalogMap.min amap)) ∧
              is_Some (f_of_int (AnalogMap.max amap)).

(** Every name of the pin map has its stabilisers. *)
Definition wired (tr : VehicleStateTransformer F) : Prop :=
  (∀ d_pin name, (d_pin, name) ∈ digital (pinmap tr) → is_Some (_dig_stab tr !! name)) ∧
  (∀ pin amap, (pin, amap) ∈ analog (pinmap tr) →
               is_Some (_analog_clamp tr !! AnalogMap.name amap) ∧
               is_Some (_analog_ema tr !! AnalogMap.name amap)).

(** A later state of a transformer: the same pin map, and no stabiliser
    lost. *)
Definition keeps_stabilisers (tr tr' : VehicleStateTransformer F) : Prop :=
  pinmap tr' = pinmap tr ∧
  (∀ n, is_Some (_dig_stab tr !! n) → is_Some (_dig_stab tr' !! n)) ∧
  (∀ n, is_Some (_analog_clamp tr !! n) → is_Some (_analog_clamp tr' !! n)) ∧
  (∀ n, is_Some (_analog_ema tr !! n) → is_Some (_analog_ema tr' !! n)).

End Transformer_more.

(* ===================================================================== *)
(** * mapping.py over the rationals *)
(* ===================================================================== *)

(** The two range checks of [normalize_analog] on its input. *)
Definition Q_clip (lo hi x : Q) : Q :=
  let x := if f_ltb x lo then lo else x in
  if f_ltb hi x then hi else x.

(* ===================================================================== *)
(** * transformer.py: one signal, one channel *)
(* ===================================================================== *)

Section Transformer_signals.
Context {F : Type} `{PyNum F}.
Variable dict_of_list : list (pyval F) → option (gmap string (pyval F)).

(** The level of a pin as the digital loop of [transform] reads it from a
    frame. *)
Definition frame_level (frame : gmap string (pyval F)) (d_pin : string) : option bool :=
  raw_inputs ← dict_copy dict_of_list (py_or (dict_get frame "inputs" (PDict ∅)) (PDict ∅));
  Some (truthy (dict_get raw_inputs d_pin (PBool false))).

(** The calls [update(raw, now_ms)] that consecutive frames make on the
    latch of a pin. *)
Definition latch_calls (d_pin : string) (frames : list (Z * gmap string (pyval F)))
  : list (bool * Z) :=
  (λ f, (default false (frame_level f.2 d_pin), f.1)) <$> frames.

End Transformer_signals.

Section Transformer_channels.
Context {F : Type} `{PyNum F}.

(** The two filters of a channel on consecutive readings, [None] standing for
    a frame without a usable sample: for each reading the sample and the
    smoothed value, and the filters afterwards. *)
Fixpoint filter_chain (cl : OutlierClamp.t F) (em : EMA.t F) (readings : list (option F))
  : list (option (F * F)) * (OutlierClamp.t F * EMA.t F) :=
  match readings with
  | [] => ([], (cl, em))
  | None :: rest =>
      let '(outs, st) := filter_chain cl em rest in (None :: outs, st)
  | Some raw_f :: rest =>
      let '(clamped, cl') := OutlierClamp.update cl raw_f in
      let '(smooth, em') := EMA.update em clamped in
      let '(outs, st) := filter_chain cl' em' rest in
      (Some (raw_f, smooth) :: outs, st)
  end.

(** The entry of a channel for a sample and its smoothed value. *)
Definition analog_entry (amap : AnalogMap.t) (o : option (F * F)) : option (pyval F) :=
  p ← o;
  norm ← normalize_analog p.2 amap;
  raw_i ← f_to_int p.1;
  Some (py_dict [("raw", PInt raw_i);
                 ("smooth", PFloat (f_round 2 p.2));
                 ("norm", PFloat (f_round 4 norm))]).

End Transformer_channels.

(* ===================================================================== *)
(** * Theorems *)
(* ===================================================================== *)

Lemma FlashDetector_update_last s v now :
  FlashDetector._last (FlashDetector.update s v now).2 = v.
Proof.
  unfold FlashDetector.update.
  destruct (negb (eqb v (FlashDetector._last s))) eqn:E; simpl; [done|].
  apply negb_false_iff, eqb_prop in E. done.
Qed.

(** ** FlashDetector *)

Lemma filter_window_weaken (c1 c2 : Z) (l : list Z) :
  c1 ≤ c2 →
  filter (λ t, c2 ≤ t) (filter (λ t, c1 ≤ t) l) = filter (λ t, c2 ≤ t) l.
Proof.
  intros Hc. rewrite list_filter_filter.
  apply list_filter_iff. intros t. lia.
Qed.

Lemma FlashDetector_update_times s v now :
  FlashDetector._toggle_times_ms (FlashDetector.update s v now).2 =
  filter (λ t, now - FlashDetector.window_ms s ≤ t)
    (FlashDetector._toggle_times_ms s ++
     (if negb (eqb v (FlashDetector._last s)) then [now] else [])).
Proof.
  unfold FlashDetector.update.
  destruct (negb (eqb v (FlashDetector._last s))); simpl; [done|].
  by rewrite app_nil_r.
Qed.

Lemma FlashDetector_update_window s v now :
  FlashDetector.window_ms (FlashDetector.update s v now).2 = FlashDetector.window_ms s.
Proof.
  unfold FlashDetector.update.
  by destruct (negb (eqb v (FlashDetector._last s))).
Qed.

Lemma FlashDetector_update_out s v now :
  (FlashDetector.update s v now).1 =
  (FlashDetector.min_toggles s <=?
   Z.of_nat (length (FlashDetector._toggle_times_ms (FlashDetector.update s v now).2))).
Proof.
  unfold FlashDetector.update.
  by destruct (negb (eqb v (FlashDetector._last s))).
Qed.

Lemma FlashDetector_run_snoc calls : ∀ s c,
  (FlashDetector.run s (calls ++ [c])).2 =
  (FlashDetector.update (FlashDetector.run s calls).2 c.1 c.2).2.
Proof.
  induction calls as [|[v t] calls IH]; intros s [v' t']; simpl.
  - by destruct (FlashDetector.update s v' t').
  - destruct (FlashDetector.update s v t) as [o s1] eqn:E1.
    specialize (IH s1 (v', t')). simpl in IH.
    destruct (FlashDetector.run s1 (calls ++ [(v', t')])) as [o2 s2].
    destruct (FlashDetector.run s1 calls) as [o3 s3]. simpl in *. done.
Qed.

Lemma FlashDetector_run_window calls : ∀ s,
  FlashDetector.window_ms (FlashDetector.run s calls).2 = FlashDetector.window_ms s.
Proof.
  induction calls as [|[v t] calls IH]; intros s; simpl; [done|].
  destruct (FlashDetector.update s v t) as [o s1] eqn:E1.
  specialize (IH s1). destruct (FlashDetector.run s1 calls) as [o2 s2]. simpl in *.
  rewrite IH. replace s1 with (FlashDetector.update s v t).2 by (by rewrite E1).
  apply FlashDetector_update_window.
Qed.

Lemma FlashDetector_run_min_toggles calls : ∀ s,
  FlashDetector.min_toggles (FlashDetector.run s calls).2 = FlashDetector.min_toggles s.
Proof.
  induction calls as [|[v t] calls IH]; intros s; simpl; [done|].
  destruct (FlashDetector.update s v t) as [o s1] eqn:E1.
  specialize (IH s1). destruct (FlashDetector.run s1 calls) as [o2 s2]. simpl in *.
  rewrite IH. unfold FlashDetector.update in E1.
  destruct (negb (eqb v (FlashDetector._last s))); by inversion E1.
Qed.

(** What the detector retains agrees, inside the window of any reading [now]
    that no earlier call exceeded, with the full toggle record. *)
Lemma FlashDetector_retained_window calls : ∀ s now,
  Forall (λ c, c.2 ≤ now) calls →
  filter (λ t, now - FlashDetector.window_ms s ≤ t)
    (FlashDetector._toggle_times_ms (FlashDetector.run s calls).2) =
  filter (λ t, now - FlashDetector.window_ms s ≤ t)
    (FlashDetector._toggle_times_ms s ++
     FlashDetector.toggle_history (FlashDetector._last s) calls).
Proof.
  induction calls as [|[v t] calls IH]; intros s now Hle; simpl.
  - by rewrite app_nil_r.
  - apply Forall_cons in Hle as [Ht Hle]. simpl in Ht.
    pose proof (FlashDetector_update_times s v t) as Htimes.
    pose proof (FlashDetector_update_last s v t) as Hlast.
    pose proof (FlashDetector_update_window s v t) as Hwin.
    destruct (FlashDetector.update s v t) as [o s1]. simpl in *.
    specialize (IH s1 now Hle).
    destruct (FlashDetector.run s1 calls) as [o2 s2]. simpl in *.
    rewrite Hwin, Hlast, Htimes in IH. rewrite IH.
    rewrite !filter_app, filter_window_weaken by lia.
    rewrite filter_window_weaken by lia.
    destruct (negb (eqb v (FlashDetector._last s))) eqn:E; simpl.
    + by rewrite <- app_assoc, <- filter_app.
    + apply negb_false_iff, eqb_prop in E. subst v.
      by rewrite filter_nil, app_nil_r.
Qed.

Lemma FlashDetector_history_steady last calls :
  Forall (λ c, c.1 = last) calls → FlashDetector.toggle_history last calls = [].
Proof.
  induction 1 as [|[v t] calls Hv _ IH]; simpl in *; [done|].
  subst v. by rewrite eqb_reflx.
Qed.

Lemma FlashDetector_output_counts_history w n calls value now :
  Forall (λ c, c.2 ≤ now) calls →
  (FlashDetector.update (FlashDetector.run (FlashDetector.new w n) calls).2 value now).1 =
  bool_decide (n ≤ FlashDetector.toggles_in_window w now
                     (FlashDetector.toggle_history false (calls ++ [(value, now)]))).
Proof.
  intros Hle.
  set (s' := (FlashDetector.run (FlashDetector.new w n) calls).2).
  assert (FlashDetector.window_ms s' = w) as Hw by apply FlashDetector_run_window.
  assert (FlashDetector.min_toggles s' = n) as Hn by apply FlashDetector_run_min_toggles.
  rewrite FlashDetector_update_out, Hn.
  assert (FlashDetector._toggle_times_ms (FlashDetector.update s' value now).2 =
          filter (λ t, now - w ≤ t)
            (FlashDetector.toggle_history false (calls ++ [(value, now)]))) as ->.
  { pose proof (FlashDetector_retained_window (calls ++ [(value, now)])
                  (FlashDetector.new w n) now) as Hret.
    rewrite FlashDetector_run_snoc in Hret. simpl in Hret. fold s' in Hret.
    rewrite <- Hret.
    - rewrite FlashDetector_update_times, Hw.
      by rewrite filter_window_weaken by lia.
    - apply Forall_app. split; [done|]. apply Forall_singleton. simpl. lia. }
  unfold FlashDetector.toggles_in_window.
  destruct (Z.leb_spec n (Z.of_nat (length (filter (λ t, now - w ≤ t)
    (FlashDetector.toggle_history false (calls ++ [(value, now)])))))) as [Hc|Hc].
  - by rewrite bool_decide_eq_true_2.
  - rewrite bool_decide_eq_false_2; [done|lia].
Qed.

(** C7.  For a detector created as [FlashDetector(window_ms=w, min_toggles=n)]
    and driven by any calls whose clock readings do not exceed the current one,
    [update] returns true iff at least [n] of all toggles recorded so far
    (the current call included) have a timestamp [t ≥ now − w].  In the example
    of the specification (toggles at 0, 100, 220 and 500 ms, window 1200,
    two toggles required) the detector answers false, true, true, true, and
    afterwards, while the input stays put, true exactly as long as
    [now ≤ 1420], the last instant at which two toggles are in the window. *)
Theorem flash_detector_window_count :
  (∀ w n calls value now,
     Forall (λ c, c.2 ≤ now) calls →
     (FlashDetector.update
        (FlashDetector.run (FlashDetector.new w n) calls).2 value now).1 =
     bool_decide (n ≤ FlashDetector.toggles_in_window w now
                        (FlashDetector.toggle_history false (calls ++ [(value, now)]))))
  ∧
  (let burst := [(true, 0); (false, 100); (true, 220); (false, 500)] in
   FlashDetector.toggle_history false burst = [0; 100; 220; 500] ∧
   (FlashDetector.run (FlashDetector.new 1200 2) burst).1 = [false; true; true; true] ∧
   ∀ polls now,
     500 ≤ now →
     Forall (λ c, c.1 = false ∧ c.2 ≤ now) polls →
     (FlashDetector.update
        (FlashDetector.run (FlashDetector.new 1200 2) (burst ++ polls)).2 false now).1 =
     bool_decide (now ≤ 1420)).
Proof.
  split; [apply FlashDetector_output_counts_history|].
  split; [done|]. split; [done|].
  intros polls now Hnow Hpolls.
  rewrite FlashDetector_output_counts_history.
  - rewrite <- app_assoc. simpl.
    rewrite FlashDetector_history_steady.
    + unfold FlashDetector.toggles_in_window.
      apply bool_decide_ext.
      repeat (rewrite filter_cons; case_decide); rewrite filter_nil; simpl; lia.
    + apply Forall_app. split; [|by apply Forall_singleton].
      eapply Forall_impl; [exact Hpolls|]. by intros c [? ?].
  - apply Forall_app. split.
    + repeat (apply Forall_cons; split; [simpl; lia|]). apply Forall_nil_2.
    + eapply Forall_impl; [exact Hpolls|]. by intros c [? ?].
Qed.

Lemma flash_detector_window_count_witness :
  (FlashDetector.update
     (FlashDetector.run (FlashDetector.new 1200 2)
        [(true, 0); (false, 100); (true, 220)]).2 false 500).1 =
  bool_decide (2 ≤ FlashDetector.toggles_in_window 1200 500
                     (FlashDetector.toggle_history false
                        ([(true, 0); (false, 100); (true, 220)] ++ [(false, 500)])))
  ∧
  (FlashDetector.update
     (FlashDetector.run (FlashDetector.new 1200 2)
        ([(true, 0); (false, 100); (true, 220); (false, 500)] ++ [(false, 900)])).2
     false 1421).1 = bool_decide (1421 ≤ 1420).
Proof.
  split.
  - apply (proj1 flash_detector_window_count 1200 2
             [(true, 0); (false, 100); (true, 220)] false 500).
    repeat (apply Forall_cons; split; [simpl; lia|]). apply Forall_nil_2.
  - apply (proj2 (proj2 (proj2 flash_detector_window_count)) [(false, 900)] 1421).
    + lia.
    + apply Forall_cons; split; [simpl; split; [reflexivity|lia]|]. apply Forall_nil_2.
Defined.

(** ** HoldLatch *)

Ltac bool_hyps :=
  repeat match goal with
         | H : (_ && _) = true |- _ => apply andb_true_iff in H as [? ?]
         | H : (_ && _) = false |- _ => apply andb_false_iff in H as [?|?]
         | H : negb _ = true |- _ => apply negb_true_iff in H
         | H : negb _ = false |- _ => apply negb_false_iff in H
         | H : (_ <? _) = true |- _ => apply Z.ltb_lt in H
         | H : (_ <? _) = false |- _ => apply Z.ltb_ge in H
         | H : (_ <=? _) = true |- _ => apply Z.leb_le in H
         | H : (_ <=? _) = false |- _ => apply Z.leb_gt in H
         end.

Ltac latch_cases s raw :=
  destruct s as [m h rl rlc st ss hu];
  unfold HoldLatch.update, HoldLatch.accept_stable, HoldLatch.track_raw,
    HoldLatch.set_hold_until, HoldLatch.set_stable, HoldLatch.set_raw;
  simpl;
  destruct raw, rl, st; simpl;
  repeat match goal with
         | |- context [if ?b then _ else _] => destruct b eqn:?; simpl
         end.

Lemma HoldLatch_update_config s raw now :
  HoldLatch.hold_on_ms (HoldLatch.update s raw now).2 = HoldLatch.hold_on_ms s ∧
  HoldLatch.min_stable_ms (HoldLatch.update s raw now).2 = HoldLatch.min_stable_ms s.
Proof. latch_cases s raw; done. Qed.

Lemma HoldLatch_update_armed s raw now :
  0 < HoldLatch.hold_on_ms s →
  HoldLatch.armed s → HoldLatch.armed (HoldLatch.update s raw now).2.
Proof.
  unfold HoldLatch.armed. latch_cases s raw; intros HH Hinv Hst;
    bool_hyps; simpl in *; try congruence; try lia; auto.
Qed.

Lemma HoldLatch_run_config calls : ∀ s,
  HoldLatch.hold_on_ms (HoldLatch.run s calls).2 = HoldLatch.hold_on_ms s.
Proof.
  induction calls as [|[raw now] calls IH]; intros s; simpl; [done|].
  pose proof (HoldLatch_update_config s raw now) as [H2 _].
  destruct (HoldLatch.update s raw now) as [o s1]. simpl in *.
  specialize (IH s1). destruct (HoldLatch.run s1 calls) as [os s2]. simpl in *.
  congruence.
Qed.

Lemma HoldLatch_run_min_stable calls : ∀ s,
  HoldLatch.min_stable_ms (HoldLatch.run s calls).2 = HoldLatch.min_stable_ms s.
Proof.
  induction calls as [|[raw now] calls IH]; intros s; simpl; [done|].
  pose proof (HoldLatch_update_config s raw now) as [_ H2].
  destruct (HoldLatch.update s raw now) as [o s1]. simpl in *.
  specialize (IH s1). destruct (HoldLatch.run s1 calls) as [os s2]. simpl in *.
  congruence.
Qed.

Lemma HoldLatch_run_armed calls : ∀ s,
  0 < HoldLatch.hold_on_ms s →
  HoldLatch.armed s → HoldLatch.armed (HoldLatch.run s calls).2.
Proof.
  induction calls as [|[raw now] calls IH]; intros s HH Hinv; simpl; [done|].
  pose proof (HoldLatch_update_armed s raw now HH Hinv) as H1.
  pose proof (HoldLatch_update_config s raw now) as [H2 _].
  destruct (HoldLatch.update s raw now) as [o s1]. simpl in *.
  specialize (IH s1). destruct (HoldLatch.run s1 calls) as [os s2]. simpl in *.
  apply IH; [lia|done].
Qed.

(** One call made at or after [T] and before [bound ≤ _hold_until_ms] reports
    ON, and leaves [_hold_until_ms] at or above [bound]. *)
Lemma HoldLatch_update_masked s raw now T bound :
  0 < HoldLatch.hold_on_ms s →
  bound ≤ T + HoldLatch.hold_on_ms s →
  bound ≤ HoldLatch._hold_until_ms s →
  T ≤ now < bound →
  (HoldLatch.update s raw now).1 = true ∧
  bound ≤ HoldLatch._hold_until_ms (HoldLatch.update s raw now).2.
Proof.
  latch_cases s raw; intros HH HB Hu Hnow; bool_hyps; simpl in *;
    split; try done; try lia.
Qed.

Lemma HoldLatch_run_masked calls : ∀ s T bound,
  0 < HoldLatch.hold_on_ms s →
  bound ≤ T + HoldLatch.hold_on_ms s →
  bound ≤ HoldLatch._hold_until_ms s →
  Forall (λ c, T ≤ c.2 < bound) calls →
  Forall (λ out, out = true) (HoldLatch.run s calls).1.
Proof.
  induction calls as [|[raw now] calls IH]; intros s T bound HH HB Hu Hc; simpl.
  - apply Forall_nil_2.
  - apply Forall_cons in Hc as [Hnow Hc]. simpl in Hnow.
    pose proof (HoldLatch_update_masked s raw now T bound HH HB Hu Hnow) as [Ho Hu'].
    pose proof (HoldLatch_update_config s raw now) as [Hcfg _].
    destruct (HoldLatch.update s raw now) as [o s1]. simpl in *.
    specialize (IH s1 T bound). destruct (HoldLatch.run s1 calls) as [os s2]. simpl in *.
    apply Forall_cons. split; [done|]. apply IH; [lia|lia|done|done].
Qed.

(** One poll of OFF on a latch whose raw input already reads OFF: the record
    of the raw input, the hold and the configuration stay as they are. *)
Lemma HoldLatch_update_off s raw now :
  raw = false →
  HoldLatch._raw_last s = false →
  let s' := (HoldLatch.update s raw now).2 in
  HoldLatch._raw_last s' = false ∧
  HoldLatch._raw_last_change_ms s' = HoldLatch._raw_last_change_ms s ∧
  HoldLatch._hold_until_ms s' = HoldLatch._hold_until_ms s.
Proof. latch_cases s raw; intros Hraw Hr; done. Qed.

Lemma HoldLatch_run_off calls : ∀ s,
  HoldLatch._raw_last s = false →
  Forall (λ c, c.1 = false) calls →
  let s' := (HoldLatch.run s calls).2 in
  HoldLatch._raw_last s' = false ∧
  HoldLatch._raw_last_change_ms s' = HoldLatch._raw_last_change_ms s ∧
  HoldLatch._hold_until_ms s' = HoldLatch._hold_until_ms s.
Proof.
  induction calls as [|[raw now] calls IH]; intros s Hr Hc; simpl; [done|].
  apply Forall_cons in Hc as [Hraw Hc]. simpl in Hraw.
  pose proof (HoldLatch_update_off s raw now Hraw Hr) as (H1 & H2 & H3).
  destruct (HoldLatch.update s raw now) as [o s1]. simpl in *.
  specialize (IH s1 H1 Hc). destruct (HoldLatch.run s1 calls) as [os s2]. simpl in *.
  destruct IH as (I1 & I2 & I3). repeat split; congruence.
Qed.

(** The poll that turns the raw input OFF records its clock reading and
    leaves the hold as it is. *)
Lemma HoldLatch_update_goes_off s raw now :
  raw = false →
  HoldLatch._raw_last s = true →
  let s' := (HoldLatch.update s raw now).2 in
  HoldLatch._raw_last s' = false ∧
  HoldLatch._raw_last_change_ms s' = now ∧
  HoldLatch._hold_until_ms s' = HoldLatch._hold_until_ms s.
Proof. latch_cases s raw; intros Hraw Hr; done. Qed.

(** A poll of OFF made when the raw input has read OFF for [min_stable_ms]
    and the hold has run out returns OFF. *)
Lemma HoldLatch_update_off_reported s raw now :
  raw = false →
  HoldLatch._raw_last s = false →
  HoldLatch.min_stable_ms s ≤ now - HoldLatch._raw_last_change_ms s →
  HoldLatch._hold_until_ms s ≤ now →
  (HoldLatch.update s raw now).1 = false ∧
  HoldLatch._stable (HoldLatch.update s raw now).2 = false.
Proof.
  latch_cases s raw; intros Hraw Hr Hm Hu; bool_hyps; simpl in *; split; try done; try lia.
Qed.

(** C6, as amended.  Take a latch built as [HoldLatch(min_stable_ms=m,
    hold_on_ms=H)] with [H > 0] that any earlier calls have brought to a stable
    ON value, last stabilised ON at [T = _stable_since_ms].  (1) Whatever raw
    samples arrive, every call made at a time in [T, T + H) returns ON.
    (2) After [T + H] an OFF excursion that lasts [min_stable_ms] is reported
    OFF, however short it is compared with [H]: when the raw input, ON so
    far, is polled OFF at [t0] and at every later call, a call that polls OFF
    at [now] with [now - t0 ≥ m] and [now ≥ T + H] returns OFF and leaves the
    stable value OFF. *)
Theorem hold_latch_masks_until_hold_elapsed m H earlier :
  0 < H →
  let s := (HoldLatch.run (HoldLatch.new m H) earlier).2 in
  HoldLatch._stable s = true →
  let T := HoldLatch._stable_since_ms s in
  (∀ calls,
     Forall (λ c, T ≤ c.2 < T + H) calls →
     Forall (λ out, out = true) (HoldLatch.run s calls).1) ∧
  (∀ t0 off now,
     HoldLatch._raw_last s = true →
     Forall (λ c, c.1 = false) off →
     m ≤ now - t0 →
     T + H ≤ now →
     let s' := (HoldLatch.run s ((false, t0) :: off)).2 in
     (HoldLatch.update s' false now).1 = false ∧
     HoldLatch._stable (HoldLatch.update s' false now).2 = false).
Proof.
  intros HH s Hst T.
  assert (HoldLatch.hold_on_ms s = H) as HsH by apply HoldLatch_run_config.
  assert (HoldLatch.min_stable_ms s = m) as Hsm by apply HoldLatch_run_min_stable.
  assert (HoldLatch.armed s) as Harmed.
  { apply HoldLatch_run_armed; [simpl; lia|]. by intros ?. }
  specialize (Harmed Hst). split.
  - intros calls Hc.
    apply (HoldLatch_run_masked calls s T (T + H)); [lia|lia|unfold T; lia|done].
  - intros t0 off now Hr Hoff Hm Hnow. cbn zeta. simpl HoldLatch.run.
    pose proof (HoldLatch_update_goes_off s false t0 eq_refl Hr) as (H1 & H2 & H3).
    pose proof (HoldLatch_update_config s false t0) as [_ H4].
    destruct (HoldLatch.update s false t0) as [o s1]. simpl in *.
    pose proof (HoldLatch_run_off off s1 H1 Hoff) as (I1 & I2 & I3).
    pose proof (HoldLatch_run_min_stable off s1) as I4.
    destruct (HoldLatch.run s1 off) as [os s2]. simpl in *.
    apply HoldLatch_update_off_reported; [done|done| |].
    + rewrite I4, H4, I2, H2, Hsm. lia.
    + rewrite I3, H3, Harmed, HsH. unfold T in Hnow. lia.
Qed.

Lemma hold_latch_masks_until_hold_elapsed_witness :
  let s := (HoldLatch.run (HoldLatch.new 30 80) [(true, 0); (true, 30); (true, 1000)]).2 in
  Forall (λ out, out = true)
    (HoldLatch.run s [(false, 40); (false, 70); (false, 100); (true, 109)]).1 ∧
  (HoldLatch.update (HoldLatch.run s [(false, 1010)]).2 false 1040).1 = false ∧
  HoldLatch._stable (HoldLatch.update (HoldLatch.run s [(false, 1010)]).2 false 1040).2
  = false.
Proof.
  pose proof (hold_latch_masks_until_hold_elapsed 30 80 [(true, 0); (true, 30); (true, 1000)]
                ltac:(lia) eq_refl) as [Hmask Hoff].
  split.
  - apply Hmask. repeat (apply Forall_cons; split; [simpl; lia|]). apply Forall_nil_2.
  - apply (Hoff 1010 [] 1040); [reflexivity|apply Forall_nil_2|lia|simpl; lia].
Defined.

(** C6, as stated, fails.  A latch with [min_stable_ms = 30] and
    [hold_on_ms = 80] is stably ON since 30 ms.  The raw input goes OFF at
    1010 ms and is back ON at 1050 ms, an excursion of 40 ms < 80 ms; the call
    at 1040 ms nevertheless returns OFF. *)
Lemma hold_masking_counterexample :
  let s := (HoldLatch.run (HoldLatch.new 30 80) [(true, 0); (true, 30); (true, 1000)]).2 in
  HoldLatch.hold_on_ms s = 80 ∧
  HoldLatch._stable s = true ∧
  HoldLatch._stable_since_ms s = 30 ∧
  1050 - 1010 < HoldLatch.hold_on_ms s ∧
  (HoldLatch.run s [(false, 1010); (false, 1040); (true, 1050); (true, 1080)]).1
  = [true; false; false; true].
Proof. vm_compute. repeat split; congruence. Qed.

(** ** Dict literals *)

Lemma lookup_dict_literal {A} (l : list (string * A)) (k : string) :
  (list_to_map l : gmap string A) !! k = alist_get k l.
Proof.
  induction l as [|[k' v] l IH]; simpl; [apply lookup_empty|].
  rewrite lookup_insert. destruct (String.eqb_spec k' k) as [->|Hne].
  - by rewrite decide_True.
  - by rewrite decide_False.
Qed.

#[local] Arguments list_to_map : simpl never.

Ltac dict_lookup :=
  repeat (rewrite lookup_dict_literal; simpl alist_get).

(** ** VehicleStateBuilder *)

Section Builder_facts.
Context {F : Type} `{PyNum F}.
Variable STALE_AFTER_MS : Z.
Implicit Types (b : VehicleStateBuilder F) (st : gmap string (num F)).

Lemma null_triplet_ok : analog_entry_ok (null_triplet (F:=F)) = true.
Proof. unfold analog_entry_ok, null_triplet, py_dict, has. by dict_lookup. Qed.

(** [a] leaves alone the cell of every other channel, and when the sample
    is unusable it changes nothing at all. *)
Lemma a_no_sample analog name st :
  analog_sample analog name = None → a analog name st = (Some null_triplet, st).
Proof. unfold a. by intros ->. Qed.

Lemma smooth_other key raw st r st' k :
  _smooth key raw st = (r, st') → k ≠ key → st' !! k = st !! k.
Proof.
  unfold _smooth. intros Hs Hk.
  destruct (st !! key) as [cur|] eqn:E.
  - destruct (f_of_int raw); [|by inversion Hs].
    destruct (num_to_float cur); inversion Hs; subst; [|done].
    by rewrite lookup_insert_ne.
  - inversion Hs; subst. by rewrite lookup_insert_ne.
Qed.

Lemma a_other analog name st r st' k :
  a analog name st = (r, st') → k ≠ name → st' !! k = st !! k.
Proof.
  unfold a. intros Ha Hk. destruct (analog_sample analog name) as [raw_i|].
  - unfold mbind, SE_bind in Ha.
    destruct (_smooth name raw_i st) as [[sm|] st1] eqn:Es.
    + unfold lift, mret, SE_ret in Ha. destruct (f_of_int raw_i); inversion Ha; subst;
        eapply smooth_other; eauto.
    + inversion Ha; subst. eapply smooth_other; eauto.
  - inversion Ha. done.
Qed.

Lemma a_typed analog name st e st' :
  a analog name st = (Some e, st') → analog_entry_ok e = true.
Proof.
  unfold a. destruct (analog_sample analog name) as [raw_i|].
  - unfold mbind, SE_bind, lift, mret, SE_ret.
    destruct (_smooth name raw_i st) as [[sm|] st1]; [|done].
    destruct (f_of_int raw_i); [|done].
    intros [= <- <-]. unfold analog_entry_ok, py_dict, has. by dict_lookup.
  - intros [= <- <-]. apply null_triplet_ok.
Qed.

(** The shape of every snapshot [build] returns. *)
Lemma build_body_inv b ts st snap st' :
  build_body STALE_AFTER_MS b ts st = (Some snap, st') →
  ∃ uptime heartbeat inputs analog a0 a1 a2 a3 a4 a5 st1 st2 st3 st4 st5,
    py_int (py_or (dict_get (last_frame b) "uptime_ms" (PInt 0)) (PInt 0)) = Some uptime ∧
    py_int (py_or (dict_get (last_frame b) "heartbeat" (PInt 0)) (PInt 0)) = Some heartbeat ∧
    as_dict (py_or (dict_get (last_frame b) "inputs" PNone) (PDict ∅)) = Some inputs ∧
    as_dict (py_or (dict_get (last_frame b) "analog" PNone) (PDict ∅)) = Some analog ∧
    a analog "A0" st = (Some a0, st1) ∧
    a analog "A1" st1 = (Some a1, st2) ∧
    a analog "A2" st2 = (Some a2, st3) ∧
    a analog "A3" st3 = (Some a3, st4) ∧
    a analog "A4" st4 = (Some a4, st5) ∧
    a analog "A5" st5 = (Some a5, st') ∧
    snap = py_dict [
      ("type", PStr "vehicle_state");
      ("ts_ms", PInt ts);
      ("source", PStr "bbb_vehicle_hub");
      ("seq", seq b);
      ("uptime_ms", PInt uptime);
      ("heartbeat", PInt heartbeat);
      ("indicators", py_dict [
         ("left", PBool (d inputs "D2"));
         ("right", PBool (d inputs "D3"));
         ("left_flashing", PBool (d inputs "D2"));
         ("right_flashing", PBool (d inputs "D3"));
         ("high_beam", PBool (d inputs "D4"))]);
      ("warnings", py_dict [
         ("brake", PBool (d inputs "D5"));
         ("oil", PBool (d inputs "D6"));
         ("charge", PBool (d inputs "D7"));
         ("door", PBool (d inputs "D8"))]);
      ("spares", py_dict [("spare_1", PBool (d inputs "D9"))]);
      ("analog", py_dict [
         ("fuel_sender_raw", a0);
         ("coolant_sender_raw", a1);
         ("aux_analog_2", a2);
         ("aux_analog_3", a3);
         ("aux_analog_4", a4);
         ("aux_analog_5", a5)]);
      ("_health", py_dict [
         ("stale", PBool (stale_flag STALE_AFTER_MS (last_rx_ms b) ts));
         ("last_rx_ms", POptInt (last_rx_ms b))])].
Proof.
  unfold build_body, mbind, SE_bind, lift, mret, SE_ret. intros Hb.
  destruct (py_int (py_or (dict_get (last_frame b) "uptime_ms" (PInt 0)) (PInt 0)))
    as [uptime|]; [|done].
  destruct (py_int (py_or (dict_get (last_frame b) "heartbeat" (PInt 0)) (PInt 0)))
    as [heartbeat|]; [|done].
  destruct (as_dict (py_or (dict_get (last_frame b) "inputs" PNone) (PDict ∅)))
    as [inputs|]; [|done].
  destruct (as_dict (py_or (dict_get (last_frame b) "analog" PNone) (PDict ∅)))
    as [analog|]; [|done].
  destruct (a analog "A0" st) as [[a0|] st1] eqn:E0; [|done].
  destruct (a analog "A1" st1) as [[a1|] st2] eqn:E1; [|done].
  destruct (a analog "A2" st2) as [[a2|] st3] eqn:E2; [|done].
  destruct (a analog "A3" st3) as [[a3|] st4] eqn:E3; [|done].
  destruct (a analog "A4" st4) as [[a4|] st5] eqn:E4; [|done].
  destruct (a analog "A5" st5) as [[a5|] st6] eqn:E5; [|done].
  inversion Hb; subst.
  by exists uptime, heartbeat, inputs, analog, a0, a1, a2, a3, a4, a5, st1, st2, st3, st4, st5.
Qed.

Lemma is_py_int_isinstance (v : pyval F) : is_py_int v = isinstance_int v.
Proof. by destruct v. Qed.

(** Whatever the last frame holds, a snapshot that [build] returns has the
    whole key set, provided [seq] is an int, which [update_from_uno]
    maintains. *)
Lemma build_complete b ts snap :
  is_py_int (seq b) = true →
  (build STALE_AFTER_MS b ts).1 = Some snap →
  snapshot_complete hub_channels snap = true.
Proof.
  intros Hseq. unfold build.
  destruct (build_body STALE_AFTER_MS b ts (analog_state b)) as [r st'] eqn:Hb.
  simpl. intros ->.
  apply build_body_inv in Hb
    as (uptime & heartbeat & inputs & analog & a0 & a1 & a2 & a3 & a4 & a5
        & st1 & st2 & st3 & st4 & st5 & _ & _ & _ & _ & H0 & H1 & H2 & H3 & H4 & H5 & ->).
  apply a_typed in H0, H1, H2, H3, H4, H5.
  unfold snapshot_complete, hub_channels, py_dict, has, dict_of, health_ok, has.
  dict_lookup. simpl. dict_lookup.
  rewrite Hseq, H0, H1, H2, H3, H4, H5. simpl.
  by destruct (last_rx_ms b).
Qed.

Lemma update_from_uno_seq_int b now frame :
  is_py_int (seq b) = true → is_py_int (seq (update_from_uno b now frame)) = true.
Proof.
  intros Hb. unfold update_from_uno. simpl.
  destruct (isinstance_int (dict_get frame "seq" PNone)) eqn:E; [|done].
  by rewrite is_py_int_isinstance.
Qed.

Lemma build_seq b ts : seq (build STALE_AFTER_MS b ts).2 = seq b.
Proof.
  unfold build. by destruct (build_body STALE_AFTER_MS b ts (analog_state b)).
Qed.

Lemma build_last_rx b ts : last_rx_ms (build STALE_AFTER_MS b ts).2 = last_rx_ms b.
Proof.
  unfold build. by destruct (build_body STALE_AFTER_MS b ts (analog_state b)).
Qed.

Lemma build_last_frame b ts : last_frame (build STALE_AFTER_MS b ts).2 = last_frame b.
Proof.
  unfold build. by destruct (build_body STALE_AFTER_MS b ts (analog_state b)).
Qed.

Lemma smooth_returns key raw st :
  is_Some (f_of_int raw) → cells_ok st →
  ∃ v st', _smooth key raw st = (Some v, st') ∧ cells_ok st'.
Proof.
  intros [r Hr] Hst. unfold _smooth.
  destruct (st !! key) as [cur|] eqn:E.
  - rewrite Hr. destruct (Hst key cur E) as [c Hc]. rewrite Hc.
    eexists _, _. split; [done|].
    intros k n. rewrite lookup_insert. case_decide; [|by apply Hst].
    intros [= <-]. done.
  - rewrite Hr. eexists _, _. split; [done|].
    intros k n. rewrite lookup_insert. case_decide; [|by apply Hst].
    intros [= <-]. simpl. by rewrite Hr.
Qed.

Lemma a_returns (analog : gmap string (pyval F)) name st :
  (∀ w, analog !! name = Some w → ∃ z, w = PInt z ∧ is_Some (f_of_int z)) →
  cells_ok st →
  ∃ e st', a analog name st = (Some e, st') ∧ cells_ok st'.
Proof.
  intros Hs Hst. unfold a, analog_sample, dict_get.
  destruct (analog !! name) as [w|] eqn:E; simpl.
  - destruct (Hs w eq_refl) as (z & -> & Hz). simpl.
    destruct (smooth_returns name z st Hz Hst) as (v & st' & Hsm & Hst').
    unfold mbind, SE_bind, lift, mret, SE_ret. rewrite Hsm.
    destruct Hz as [r ->]. by eexists _, _.
  - by eexists _, _.
Qed.

(** On a plain frame, and with cells that convert, [build] returns. *)
Lemma build_returns b ts :
  plain_frame (last_frame b) → cells_ok (analog_state b) →
  ∃ snap, (build STALE_AFTER_MS b ts).1 = Some snap ∧
          cells_ok (analog_state (build STALE_AFTER_MS b ts).2).
Proof.
  intros (Hup & Hhb & Hin & Han) Hst.
  unfold build, build_body, mbind, SE_bind, lift, mret, SE_ret, dict_get.
  assert (∃ z, py_int (py_or (default (PInt 0) (last_frame b !! "uptime_ms")) (PInt 0))
               = Some z) as [up ->].
  { destruct (last_frame b !! "uptime_ms") as [v|] eqn:E; simpl; [|by eexists].
    destruct (Hup v eq_refl) as [z ->]. unfold py_or. simpl.
    destruct (negb (z =? 0)); by eexists. }
  assert (∃ z, py_int (py_or (default (PInt 0) (last_frame b !! "heartbeat")) (PInt 0))
               = Some z) as [hb ->].
  { destruct (last_frame b !! "heartbeat") as [v|] eqn:E; simpl; [|by eexists].
    destruct (Hhb v eq_refl) as [z ->]. unfold py_or. simpl.
    destruct (negb (z =? 0)); by eexists. }
  assert (∃ m, as_dict (py_or (default PNone (last_frame b !! "inputs")) (PDict ∅))
               = Some m) as [inputs ->].
  { destruct (last_frame b !! "inputs") as [v|] eqn:E; simpl; [|by eexists].
    destruct (Hin v eq_refl) as [m ->]. unfold py_or.
    destruct (truthy (PDict m)); by eexists. }
  assert (∃ m, as_dict (py_or (default PNone (last_frame b !! "analog")) (PDict ∅))
               = Some m ∧
               ∀ pin w, m !! pin = Some w → ∃ z, w = PInt z ∧ is_Some (f_of_int z))
    as (analog & -> & Hsamples).
  { destruct (last_frame b !! "analog") as [v|] eqn:E; simpl.
    - destruct (Han v eq_refl) as (m & -> & Hm). unfold py_or.
      destruct (truthy (PDict m)); eexists; (split; [done|]); [done|].
      intros pin w. by rewrite lookup_empty.
    - eexists. split; [done|]. intros pin w. by rewrite lookup_empty. }
  destruct (a_returns analog "A0" _ (Hsamples "A0") Hst) as (a0 & st1 & -> & Hst1).
  destruct (a_returns analog "A1" _ (Hsamples "A1") Hst1) as (a1 & st2 & -> & Hst2).
  destruct (a_returns analog "A2" _ (Hsamples "A2") Hst2) as (a2 & st3 & -> & Hst3).
  destruct (a_returns analog "A3" _ (Hsamples "A3") Hst3) as (a3 & st4 & -> & Hst4).
  destruct (a_returns analog "A4" _ (Hsamples "A4") Hst4) as (a4 & st5 & -> & Hst5).
  destruct (a_returns analog "A5" _ (Hsamples "A5") Hst5) as (a5 & st6 & -> & Hst6).
  simpl. by eexists.
Qed.

(** What [_health] says in any snapshot [build] returns. *)
Lemma build_health b ts snap :
  (build STALE_AFTER_MS b ts).1 = Some snap →
  at_path ["_health"; "stale"] snap
    = Some (PBool (stale_flag STALE_AFTER_MS (last_rx_ms b) ts)) ∧
  at_path ["_health"; "last_rx_ms"] snap = Some (POptInt (last_rx_ms b)).
Proof.
  unfold build.
  destruct (build_body STALE_AFTER_MS b ts (analog_state b)) as [r st'] eqn:Hb.
  simpl. intros ->.
  apply build_body_inv in Hb
    as (uptime & heartbeat & inputs & analog & a0 & a1 & a2 & a3 & a4 & a5
        & st1 & st2 & st3 & st4 & st5 & _ & _ & _ & _ & _ & _ & _ & _ & _ & _ & ->).
  split; simpl; unfold py_dict; dict_lookup; simpl; by dict_lookup.
Qed.

Lemma build_seq_field b ts snap :
  (build STALE_AFTER_MS b ts).1 = Some snap →
  at_path ["seq"] snap = Some (seq b).
Proof.
  unfold build.
  destruct (build_body STALE_AFTER_MS b ts (analog_state b)) as [r st'] eqn:Hb.
  simpl. intros ->.
  apply build_body_inv in Hb
    as (uptime & heartbeat & inputs & analog & a0 & a1 & a2 & a3 & a4 & a5
        & st1 & st2 & st3 & st4 & st5 & _ & _ & _ & _ & _ & _ & _ & _ & _ & _ & ->).
  simpl; unfold py_dict; by dict_lookup.
Qed.

Lemma smooth_cell key raw st v st' :
  _smooth key raw st = (Some v, st') → st' !! key = smooth_next (st !! key) raw.
Proof.
  unfold _smooth, smooth_next. destruct (st !! key) as [cur|].
  - destruct (f_of_int raw); [|done]. simpl.
    destruct (num_to_float cur); [|done]. simpl.
    intros [= <- <-]. by rewrite lookup_insert_eq.
  - intros [= _ <-]. by rewrite lookup_insert_eq.
Qed.

(** The cell of a channel after [a] has returned for it. *)
Lemma a_cell analog name st e st' :
  a analog name st = (Some e, st') →
  st' !! name = match analog_sample analog name with
                | Some z => smooth_next (st !! name) z
                | None => st !! name
                end.
Proof.
  unfold a. destruct (analog_sample analog name) as [z|]; [|by intros [= _ <-]].
  unfold mbind, SE_bind, lift, mret, SE_ret.
  destruct (_smooth name z st) as [[sm|] st1] eqn:Es; [|done].
  destruct (f_of_int z); [|done]. intros [= _ <-]. by eapply smooth_cell.
Qed.

(** The entry [a] returns for a channel. *)
Lemma a_entry analog name st e st' :
  a analog name st = (Some e, st') →
  match analog_sample analog name with
  | None => e = null_triplet
  | Some z =>
      ∃ smooth r,
        (_smooth name z st).1 = Some smooth ∧ f_of_int z = Some r ∧
        e = py_dict [("raw", PInt z);
                     ("smooth", PFloat (f_round 2 smooth));
                     ("norm", PFloat (f_round 4 (f_div r (f_lit 1023))))]
  end.
Proof.
  unfold a. destruct (analog_sample analog name) as [z|]; [|by intros [= <- _]].
  unfold mbind, SE_bind, lift, mret, SE_ret.
  destruct (_smooth name z st) as [[sm|] st1] eqn:Es; [|done].
  destruct (f_of_int z) as [r|]; [|done]. intros [= <- _]. by exists sm, r.
Qed.

(** Each channel of a snapshot is what its own call of [a] returned, that
    call saw the cell as it was before [build], and nothing else in [build]
    touched the cell. *)
Lemma build_channel b ts snap pin name :
  (pin, name) ∈ hub_analog_pins →
  (build STALE_AFTER_MS b ts).1 = Some snap →
  ∃ analog e st st',
    frame_analog (last_frame b) = Some analog ∧
    at_path ["analog"; name] snap = Some e ∧
    st !! pin = analog_state b !! pin ∧
    a analog pin st = (Some e, st') ∧
    analog_state (build STALE_AFTER_MS b ts).2 !! pin = st' !! pin.
Proof.
  intros Hin. unfold build.
  destruct (build_body STALE_AFTER_MS b ts (analog_state b)) as [r st'] eqn:Hb.
  simpl. intros ->.
  apply build_body_inv in Hb
    as (uptime & heartbeat & inputs & analog & a0 & a1 & a2 & a3 & a4 & a5
        & st1 & st2 & st3 & st4 & st5 & _ & _ & _ & Han & H0 & H1 & H2 & H3 & H4 & H5 & ->).
  pose proof (λ k, a_other _ _ _ _ _ k H0) as O0.
  pose proof (λ k, a_other _ _ _ _ _ k H1) as O1.
  pose proof (λ k, a_other _ _ _ _ _ k H2) as O2.
  pose proof (λ k, a_other _ _ _ _ _ k H3) as O3.
  pose proof (λ k, a_other _ _ _ _ _ k H4) as O4.
  pose proof (λ k, a_other _ _ _ _ _ k H5) as O5.
  unfold hub_analog_pins in Hin.
  repeat (apply elem_of_cons in Hin as [[= -> ->]|Hin]); [..|by apply elem_of_nil in Hin].
  - exists analog, a0, (analog_state b), st1.
    split; [done|]. split; [simpl; unfold py_dict; by dict_lookup|]. split; [done|].
    split; [done|]. by rewrite O5, O4, O3, O2, O1.
  - exists analog, a1, st1, st2.
    split; [done|]. split; [simpl; unfold py_dict; by dict_lookup|].
    split; [by rewrite O0|]. split; [done|]. by rewrite O5, O4, O3, O2.
  - exists analog, a2, st2, st3.
    split; [done|]. split; [simpl; unfold py_dict; by dict_lookup|].
    split; [by rewrite O1, O0|]. split; [done|]. by rewrite O5, O4, O3.
  - exists analog, a3, st3, st4.
    split; [done|]. split; [simpl; unfold py_dict; by dict_lookup|].
    split; [by rewrite O2, O1, O0|]. split; [done|]. by rewrite O5, O4.
  - exists analog, a4, st4, st5.
    split; [done|]. split; [simpl; unfold py_dict; by dict_lookup|].
    split; [by rewrite O3, O2, O1, O0|]. split; [done|]. by rewrite O5.
  - exists analog, a5, st5, st'.
    split; [done|]. split; [simpl; unfold py_dict; by dict_lookup|].
    split; [by rewrite O4, O3, O2, O1, O0|]. split; [done|]. done.
Qed.

(** The accumulator of a channel after a [build] that returned. *)
Lemma build_cell b ts snap pin name :
  (pin, name) ∈ hub_analog_pins →
  (build STALE_AFTER_MS b ts).1 = Some snap →
  ∃ analog,
    frame_analog (last_frame b) = Some analog ∧
    analog_state (build STALE_AFTER_MS b ts).2 !! pin
    = match analog_sample analog pin with
      | Some z => smooth_next (analog_state b !! pin) z
      | None => analog_state b !! pin
      end.
Proof.
  intros Hin Hb.
  destruct (build_channel b ts snap pin name Hin Hb)
    as (analog & e & st & st' & Han & _ & Hst & Ha & ->).
  exists analog. split; [done|]. rewrite <- Hst. by eapply a_cell.
Qed.

(** A channel without a usable sample is reported as the null triplet. *)
Lemma build_null_entry b ts snap pin name analog :
  (pin, name) ∈ hub_analog_pins →
  frame_analog (last_frame b) = Some analog →
  analog_sample analog pin = None →
  (build STALE_AFTER_MS b ts).1 = Some snap →
  at_path ["analog"; name] snap = Some null_triplet.
Proof.
  intros Hin Han Hs Hb.
  destruct (build_channel b ts snap pin name Hin Hb)
    as (analog' & e & st & st' & Han' & He & _ & Ha & _).
  rewrite Han in Han'. injection Han' as <-.
  apply a_entry in Ha. rewrite Hs in Ha. by subst e.
Qed.

Lemma serial_reader_line_analog_state b now obj :
  analog_state (serial_reader_line b now obj) = analog_state b.
Proof.
  unfold serial_reader_line. destruct obj; try done.
  by destruct (accepted (PDict m)).
Qed.

Lemma analog_sample_delete (analog : gmap string (pyval F)) pin p :
  analog_sample analog pin = None →
  analog_sample (delete pin analog) p = analog_sample analog p.
Proof.
  intros Hs. unfold analog_sample, dict_get in *.
  destruct (decide (p = pin)) as [->|Hne].
  - by rewrite lookup_delete_eq, Hs.
  - by rewrite lookup_delete_ne.
Qed.

Lemma a_ext (an1 an2 : gmap string (pyval F)) name :
  analog_sample an1 name = analog_sample an2 name → a an1 name = a an2 name.
Proof. unfold a. by intros ->. Qed.

Lemma dict_get_insert_ne (m : gmap string (pyval F)) k k' v dflt :
  k ≠ k' → dict_get (<[k := v]> m) k' dflt = dict_get m k' dflt.
Proof. intros Hne. unfold dict_get. by rewrite lookup_insert_ne. Qed.

Lemma dict_get_insert_eq (m : gmap string (pyval F)) k v dflt :
  dict_get (<[k := v]> m) k dflt = v.
Proof. unfold dict_get. by rewrite lookup_insert_eq. Qed.

Lemma as_dict_or_dict (m : gmap string (pyval F)) :
  as_dict (py_or (PDict m) (PDict ∅)) = Some m.
Proof.
  unfold py_or. simpl. destruct (Nat.eqb (size m) 0) eqn:E; simpl; [|done].
  apply Nat.eqb_eq, map_size_empty_iff in E. by subst.
Qed.

(** A sample that [a] cannot use might as well not be in the frame: the
    snapshot and the accumulators come out the same. *)
Lemma build_drop_sample b ts pin analog :
  frame_analog (last_frame b) = Some analog →
  analog_sample analog pin = None →
  let b' := with_frame b (drop_sample (last_frame b) pin) in
  (build STALE_AFTER_MS b' ts).1 = (build STALE_AFTER_MS b ts).1 ∧
  analog_state (build STALE_AFTER_MS b' ts).2
  = analog_state (build STALE_AFTER_MS b ts).2.
Proof.
  intros Han Hs b'.
  assert (build_body STALE_AFTER_MS b' ts (analog_state b)
          = build_body STALE_AFTER_MS b ts (analog_state b)) as Heq.
  { unfold b', drop_sample, build_body. rewrite Han. unfold frame_analog in Han.
    simpl.
    rewrite (dict_get_insert_ne _ "analog" "uptime_ms") by done.
    rewrite (dict_get_insert_ne _ "analog" "heartbeat") by done.
    rewrite (dict_get_insert_ne _ "analog" "inputs") by done.
    rewrite dict_get_insert_eq, Han, as_dict_or_dict.
    unfold mbind, SE_bind, lift.
    destruct (py_int (py_or (dict_get (last_frame b) "uptime_ms" (PInt 0)) (PInt 0)));
      [|done].
    destruct (py_int (py_or (dict_get (last_frame b) "heartbeat" (PInt 0)) (PInt 0)));
      [|done].
    destruct (as_dict (py_or (dict_get (last_frame b) "inputs" PNone) (PDict ∅)));
      [|done].
    by rewrite !(a_ext (delete pin analog) analog)
      by (by apply analog_sample_delete). }
  unfold build. change (analog_state b') with (analog_state b). rewrite Heq.
  by destruct (build_body STALE_AFTER_MS b ts (analog_state b)).
Qed.

(** In every snapshot of the hub the two flashing fields are the same
    expression as the two level fields: the truth value of the D2 and D3
    readings of the last frame. *)
Lemma hub_flashing_mirrors_level b ts snap :
  (build STALE_AFTER_MS b ts).1 = Some snap →
  ∃ inputs,
    as_dict (py_or (dict_get (last_frame b) "inputs" PNone) (PDict ∅)) = Some inputs ∧
    at_path ["indicators"; "left"] snap = Some (PBool (d inputs "D2")) ∧
    at_path ["indicators"; "left_flashing"] snap = Some (PBool (d inputs "D2")) ∧
    at_path ["indicators"; "right"] snap = Some (PBool (d inputs "D3")) ∧
    at_path ["indicators"; "right_flashing"] snap = Some (PBool (d inputs "D3")).
Proof.
  unfold build.
  destruct (build_body STALE_AFTER_MS b ts (analog_state b)) as [r st'] eqn:Hb.
  simpl. intros ->.
  apply build_body_inv in Hb
    as (uptime & heartbeat & inputs & analog & a0 & a1 & a2 & a3 & a4 & a5
        & st1 & st2 & st3 & st4 & st5 & _ & _ & Hin & _ & _ & _ & _ & _ & _ & _ & ->).
  exists inputs. split; [done|].
  repeat split; simpl; unfold py_dict; dict_lookup; simpl; by dict_lookup.
Qed.

Lemma smooth_value key raw st v st' :
  _smooth key raw st = (Some v, st') →
  ∃ n, smooth_next (st !! key) raw = Some n ∧ num_to_float n = Some v.
Proof.
  unfold _smooth, smooth_next. destruct (st !! key) as [cur|].
  - destruct (f_of_int raw); [|done]. simpl.
    destruct (num_to_float cur); [|done]. simpl.
    intros [= <- <-]. by eexists.
  - intros [= Hv _]. by eexists.
Qed.

(** The entry of the hub for a channel with a usable sample [z]: [raw] is
    [z]; [smooth] is the accumulator after this build, rounded to 2 places;
    [norm] is [z / 1023.0] rounded to 4 places, whatever the accumulator
    holds. *)
Lemma hub_analog_entry b ts snap pin name :
  (pin, name) ∈ hub_analog_pins →
  (build STALE_AFTER_MS b ts).1 = Some snap →
  ∃ analog,
    frame_analog (last_frame b) = Some analog ∧
    ∀ z, analog_sample analog pin = Some z →
         ∃ r n sm,
           f_of_int z = Some r ∧
           smooth_next (analog_state b !! pin) z = Some n ∧
           analog_state (build STALE_AFTER_MS b ts).2 !! pin = Some n ∧
           num_to_float n = Some sm ∧
           at_path ["analog"; name; "raw"] snap = Some (PInt z) ∧
           at_path ["analog"; name; "smooth"] snap = Some (PFloat (f_round 2 sm)) ∧
           at_path ["analog"; name; "norm"] snap
             = Some (PFloat (f_round 4 (f_div r (f_lit 1023)))).
Proof.
  intros Hin Hb.
  destruct (build_cell b ts snap pin name Hin Hb) as (analog0 & Han0 & Hcell).
  destruct (build_channel b ts snap pin name Hin Hb)
    as (analog & e & st & st' & Han & He & Hst & Ha & _).
  rewrite Han in Han0. injection Han0 as <-.
  exists analog. split; [done|]. intros z Hz. rewrite Hz in Hcell.
  apply a_entry in Ha. rewrite Hz in Ha. destruct Ha as (sm & r & Hsm & Hr & ->).
  destruct (_smooth pin z st) as [o st1] eqn:Es. simpl in Hsm. subst o.
  apply smooth_value in Es as (n & Hn & Hf). rewrite Hst in Hn.
  exists r, n, sm. split; [done|]. split; [done|]. split; [by rewrite Hcell|].
  split; [done|].
  assert (∀ k, at_path ["analog"; name; k] snap
               = at_path [k] (py_dict [("raw", PInt z);
                                       ("smooth", PFloat (f_round 2 sm));
                                       ("norm", PFloat (f_round 4 (f_div r (f_lit 1023))))]))
    as Hk.
  { intros k. simpl in *. destruct snap; try done.
    destruct (m !! "analog") as [[]|]; simpl in *; try done.
    destruct (m0 !! name) as [e|]; simpl in *; [|done]. by injection He as ->. }
  rewrite !Hk. repeat split; simpl; unfold py_dict; by dict_lookup.
Qed.

(** A builder that has never been given a frame builds without raising,
    reports stale with no reception time, and is left as it was. *)
Lemma build_new ts :
  ∃ snap, build STALE_AFTER_MS (builder_new (F:=F)) ts = (Some snap, builder_new) ∧
          at_path ["_health"; "stale"] snap = Some (PBool true) ∧
          at_path ["_health"; "last_rx_ms"] snap = Some PNone.
Proof.
  eexists. split; [reflexivity|].
  split; simpl; unfold py_dict; dict_lookup; simpl; by dict_lookup.
Qed.

End Builder_facts.

(** ** The hub *)

Section Hub_facts.
Context {F : Type} `{PyNum F}.
Variable STALE_AFTER_MS : Z.
Implicit Types (h : Hub F) (e : event F).

Lemma serial_reader_line_seq_int (b : VehicleStateBuilder F) now obj :
  is_py_int (seq b) = true → is_py_int (seq (serial_reader_line b now obj)) = true.
Proof.
  intros Hb. unfold serial_reader_line. destruct obj; try done.
  destruct (accepted (PDict m)); [|done]. by apply update_from_uno_seq_int.
Qed.


Lemma main_returns ts :
  ∃ snap, main STALE_AFTER_MS ts
          = Some (mk_hub (mk_hub_state builder_new snap) true 0 ∅ []) ∧
          stale_snapshot snap.
Proof.
  destruct (build_new STALE_AFTER_MS ts) as (snap & Hb & Hst & Hrx).
  exists snap. unfold main. rewrite Hb. split; [done|].
  split; [|done]. eapply (build_complete STALE_AFTER_MS builder_new ts); [done|].
  by rewrite Hb.
Qed.

Lemma step_hub_inv h e : hub_inv h → hub_inv (step STALE_AFTER_MS h e).
Proof.
  intros (Hseq & Hslot & Hsent). destruct e as [now obj|ts|ts|c|c]; simpl.
  - split; [|done]. simpl. by apply serial_reader_line_seq_int.
  - unfold state_pump. destruct (pump_running h); [|done].
    pose proof (build_complete STALE_AFTER_MS (builder (hub h)) ts) as Hc.
    pose proof (build_seq STALE_AFTER_MS (builder (hub h)) ts) as Hs.
    destruct (build STALE_AFTER_MS (builder (hub h)) ts) as [[snap|] b']; simpl in *.
    + repeat split; simpl; [by rewrite Hs|by apply Hc|done].
    + repeat split; simpl; [by rewrite Hs|done|done].
  - unfold ws_handler_hello.
    repeat split; [done|done|]. simpl.
    apply Forall_app. split; [done|]. apply Forall_singleton. left. by exists ts.
  - unfold ws_handler_push. case_bool_decide; [|done].
    repeat split; [done|done|]. simpl.
    apply Forall_app. split; [done|]. apply Forall_singleton. by right.
  - done.
Qed.

Lemma run_hub_inv events : ∀ h, hub_inv h → hub_inv (run STALE_AFTER_MS h events).
Proof.
  induction events as [|e events IH]; intros h Hinv; simpl; [done|].
  apply IH. by apply step_hub_inv.
Qed.

Lemma sent_to_snoc h (c c' : nat) (m : pyval F) (pr : bool) (n : nat) (cl : gset nat) :
  sent_to (mk_hub (hub h) pr n cl (sent h ++ [(c', m)])) c =
  sent_to h c ++ (if bool_decide (c' = c) then [m] else []).
Proof.
  unfold sent_to. simpl. rewrite filter_app, fmap_app. f_equal.
  rewrite filter_cons, filter_nil. simpl.
  case_decide; case_bool_decide; done.
Qed.



Lemma main_invariants ts h0 :
  main STALE_AFTER_MS ts = Some h0 → hub_inv h0 ∧ silent_inv h0.
Proof.
  destruct (main_returns ts) as (snap & -> & Hst). intros [= <-].
  split.
  - split; [done|]. split; [apply Hst|apply Forall_nil_2].
  - split; [done|]. split; [done|]. intros c. split; [done|]. by split.
Qed.

End Hub_facts.

Section Hub_typed_facts.
Context {F : Type} `{PyNum F}.
Variable STALE_AFTER_MS : Z.
Implicit Types (h : Hub F) (e : event F) (b : VehicleStateBuilder F).

Lemma is_int_py_int (v : pyval F) : is_int v = true → is_py_int v = true.
Proof. by destruct v. Qed.

Lemma update_from_uno_seq_strict b now frame :
  (∀ t, frame !! "seq" ≠ Some (PBool t)) →
  is_int (seq b) = true → is_int (seq (update_from_uno b now frame)) = true.
Proof.
  intros Hnb Hb. unfold update_from_uno, dict_get. simpl.
  destruct (frame !! "seq") as [v|] eqn:E; simpl; [|done].
  destruct v; simpl; try done. by destruct (Hnb b0).
Qed.

Lemma build_typed b ts snap :
  is_int (seq b) = true →
  (build STALE_AFTER_MS b ts).1 = Some snap →
  snapshot_typed hub_channels snap = true.
Proof.
  intros Hseq Hb. unfold snapshot_typed.
  rewrite (build_complete STALE_AFTER_MS b ts snap) by (by apply is_int_py_int || done).
  by rewrite (build_seq_field STALE_AFTER_MS b ts snap Hb).
Qed.

Lemma step_typed_inv h e :
  match e with
  | SerialLine _ (PDict frame) =>
      accepted (PDict frame) = true → ∀ t, frame !! "seq" ≠ Some (PBool t)
  | _ => True
  end →
  typed_inv h → typed_inv (step STALE_AFTER_MS h e).
Proof.
  intros He (Hseq & Hslot & Hsent). destruct e as [now obj|ts|ts|c|c]; simpl.
  - split; [|done]. simpl. unfold serial_reader_line. destruct obj; try done.
    destruct (accepted (PDict m)); [|done]. apply update_from_uno_seq_strict; auto.
  - unfold state_pump. destruct (pump_running h); [|done].
    pose proof (build_typed (builder (hub h)) ts) as Hc.
    pose proof (build_seq STALE_AFTER_MS (builder (hub h)) ts) as Hs.
    destruct (build STALE_AFTER_MS (builder (hub h)) ts) as [[snap|] b']; simpl in *.
    + repeat split; simpl; [by rewrite Hs|by apply Hc|done].
    + repeat split; simpl; [by rewrite Hs|done|done].
  - unfold ws_handler_hello.
    repeat split; [done|done|]. simpl.
    apply Forall_app. split; [done|]. apply Forall_singleton. left. by exists ts.
  - unfold ws_handler_push. case_bool_decide; [|done].
    repeat split; [done|done|]. simpl.
    apply Forall_app. split; [done|]. apply Forall_singleton. by right.
  - done.
Qed.

Lemma run_typed_inv events : ∀ h,
  no_boolean_seq events → typed_inv h → typed_inv (run STALE_AFTER_MS h events).
Proof.
  induction events as [|e events IH]; intros h Hev Hinv; simpl; [done|].
  apply Forall_cons in Hev as [He Hev].
  apply IH; [done|]. by apply step_typed_inv.
Qed.

End Hub_typed_facts.

Section Hub_client_facts.
Context {F : Type} `{PyNum F}.
Variable STALE_AFTER_MS : Z.
Implicit Types (h : Hub F) (e : event F).




End Hub_client_facts.

(** C1, as amended.  Start the hub at any clock reading and let any sequence
    of serial lines (frames or not), pump ticks, connections, pushes and send
    failures happen.  [main] succeeds; the snapshot slot then always holds a
    value with the full key set and rightly typed values (string type tag and
    source; int [ts_ms], [uptime_ms], [heartbeat]; [seq] an int or a boolean;
    the five indicator, four warning and one spare booleans; for each of the
    six analog channels a [raw]/[smooth]/[norm] triplet of int-or-null and
    float-or-null; [_health] with a boolean [stale] and an int-or-null
    [last_rx_ms]); and every message ever sent to a client is the hello or such
    a snapshot.  As long as no accepted frame carries a JSON boolean as its
    [seq], the [seq] of the slot and of every snapshot sent is an int. *)
Theorem published_snapshots_complete {F : Type} `{PyNum F}
    (STALE_AFTER_MS ts0 : Z) (events : list (event F)) :
  ∃ h0, main STALE_AFTER_MS ts0 = Some h0 ∧
        let h := run STALE_AFTER_MS h0 events in
        snapshot_complete hub_channels (latest_state (hub h)) = true ∧
        Forall (λ m, is_hello m.2 ∨ snapshot_complete hub_channels m.2 = true) (sent h) ∧
        (no_boolean_seq events →
         snapshot_typed hub_channels (latest_state (hub h)) = true ∧
         Forall (λ m, is_hello m.2 ∨ snapshot_typed hub_channels m.2 = true) (sent h)).
Proof.
  destruct (main_returns STALE_AFTER_MS ts0) as (snap & Hmain & Hst).
  eexists. split; [exact Hmain|].
  pose proof (main_invariants STALE_AFTER_MS ts0 _ Hmain) as [Hinv _].
  pose proof (run_hub_inv STALE_AFTER_MS events _ Hinv) as (_ & Hslot & Hsent).
  cbn zeta. split; [done|]. split; [done|]. intros Hev.
  apply (run_typed_inv STALE_AFTER_MS events) ; [done|].
  split; [done|]. split; [|apply Forall_nil_2]. cbn [hub latest_state].
  apply (build_typed STALE_AFTER_MS builder_new ts0); [done|].
  destruct (build_new (F:=F) STALE_AFTER_MS ts0) as (snap' & Hb & _).
  unfold main in Hmain. rewrite Hb in Hmain. rewrite Hb. by injection Hmain as ->.
Qed.

Lemma published_snapshots_complete_witness :
  ∃ h0, main (F:=Q) 750 0 = Some h0 ∧
        let h := run 750 h0 [SerialLine 10 (PDict (uno_frame (PInt 7) true 512));
                             PumpTick 20; WsConnect 30; WsPush 0%nat;
                             SerialLine 40 (PDict (uno_frame (PStr "8") true 512));
                             PumpTick 50; WsPush 0%nat] in
        snapshot_typed hub_channels (latest_state (hub h)) = true ∧
        Forall (λ m, is_hello m.2 ∨ snapshot_typed hub_channels m.2 = true) (sent h).
Proof.
  destruct (published_snapshots_complete (F:=Q) 750 0
              [SerialLine 10 (PDict (uno_frame (PInt 7) true 512));
               PumpTick 20; WsConnect 30; WsPush 0%nat;
               SerialLine 40 (PDict (uno_frame (PStr "8") true 512));
               PumpTick 50; WsPush 0%nat]) as (h0 & Hmain & _ & _ & Htyped).
  exists h0. split; [exact Hmain|]. apply Htyped.
  repeat (apply Forall_cons; split; [first [exact I|intros _ t; vm_compute; discriminate]|]).
  apply Forall_nil_2.
Defined.

(** C1, as stated, fails.  The hub accepts a frame whose ["seq"] is the JSON
    boolean [true] (it passes [isinstance(_, int)]); the next pump tick
    publishes a snapshot whose ["seq"] is [true], which is what the client
    is then sent after its hello: every key is there, but ["seq"] is not an
    integer. *)
Lemma hub_publishes_boolean_seq :
  let events := [SerialLine 10 (PDict (uno_frame (PBool true) false 0));
                 PumpTick 20; WsConnect 30; WsPush 0%nat] in
  let h := (λ h0, run 750 h0 events) <$> main (F:=Q) 750 0 in
  (at_path ["seq"] <$> (latest_state ∘ hub <$> h)) = Some (Some (PBool true)) ∧
  (snapshot_complete hub_channels <$> (latest_state ∘ hub <$> h)) = Some true ∧
  (snapshot_typed hub_channels <$> (latest_state ∘ hub <$> h)) = Some false ∧
  ((λ h, at_path ["seq"] <$> sent_to h 0%nat) <$> h)
  = Some [None; Some (PBool true)].
Proof. vm_compute. by repeat split. Qed.



Lemma uno_frame_plain seq_v d2 a0 : plain_frame (uno_frame seq_v d2 a0).
Proof.
  unfold plain_frame, uno_frame.
  repeat split; intros v; rewrite lookup_dict_literal; simpl; intros [= <-].
  - by eexists.
  - by eexists.
  - by eexists.
  - eexists. split; [done|]. intros pin w. rewrite lookup_dict_literal. cbn [alist_get].
    destruct (String.eqb "A0" pin); [|done]. intros [= <-].
    exists a0. split; [done|]. by eexists.
Qed.

(** C10, as amended.  When the builder is handed an accepted frame whose
    ["seq"] is missing, or is neither an integer nor a boolean (the values
    that [isinstance(_, int)] rejects), its [seq] stays what it was, while [last_rx_ms] becomes the current clock reading
    and [last_frame] the frame; any snapshot built next carries the old
    [seq] and the new [last_rx_ms]. *)
Theorem seq_kept_when_missing_or_not_int {F : Type} `{PyNum F}
    (STALE_AFTER_MS : Z) (b : VehicleStateBuilder F) (now : Z)
    (frame : gmap string (pyval F)) :
  accepted (PDict frame) = true →
  (frame !! "seq" = None ∨ ∃ v, frame !! "seq" = Some v ∧ isinstance_int v = false) →
  let b' := serial_reader_line b now (PDict frame) in
  seq b' = seq b ∧ last_rx_ms b' = Some now ∧ last_frame b' = frame ∧
  ∀ ts snap,
    (build STALE_AFTER_MS b' ts).1 = Some snap →
    at_path ["seq"] snap = Some (seq b) ∧
    at_path ["_health"; "last_rx_ms"] snap = Some (PInt now).
Proof.
  intros Hacc Hseq b'.
  assert (seq b' = seq b ∧ last_rx_ms b' = Some now ∧ last_frame b' = frame)
    as (Hs & Hrx & Hfr).
  { unfold b', serial_reader_line. rewrite Hacc. unfold update_from_uno, dict_get. simpl.
    destruct Hseq as [->|(v & -> & Hv)]; simpl; [by repeat split|].
    rewrite Hv. by repeat split. }
  repeat split; try done.
  - rewrite <- Hs. by eapply build_seq_field.
  - apply build_health in H0 as [_ Hl]. by rewrite Hl, Hrx.
Qed.

Lemma seq_kept_when_missing_or_not_int_witness :
  let b := update_from_uno (builder_new (F:=Q)) 5 (uno_frame (PInt 7) false 0) in
  let frame := uno_frame (PStr "12") false 0 in
  let b' := serial_reader_line b 40 (PDict frame) in
  seq b' = PInt 7 ∧ last_rx_ms b' = Some 40 ∧ last_frame b' = frame ∧
  ∀ ts snap,
    (build 750 b' ts).1 = Some snap →
    at_path ["seq"] snap = Some (PInt 7) ∧
    at_path ["_health"; "last_rx_ms"] snap = Some (PInt 40).
Proof.
  apply (seq_kept_when_missing_or_not_int (F:=Q) 750
           (update_from_uno builder_new 5 (uno_frame (PInt 7) false 0)) 40
           (uno_frame (PStr "12") false 0)).
  - reflexivity.
  - right. exists (PStr "12"). split; reflexivity.
Defined.

(** [isinstance(True, int)] holds in Python: a frame whose ["seq"] is a JSON
    boolean passes the test of [update_from_uno] and the boolean is stored. *)
Lemma seq_boolean_is_stored {F : Type} `{PyNum F}
    (b : VehicleStateBuilder F) (now : Z) (frame : gmap string (pyval F)) (t : bool) :
  frame !! "seq" = Some (PBool t) → seq (update_from_uno b now frame) = PBool t.
Proof. intros Hs. unfold update_from_uno, dict_get. simpl. by rewrite Hs. Qed.

(** C10, as stated, fails.  A builder whose sequence number is 7 accepts a
    frame whose ["seq"] is the JSON boolean [true], which is not an integer:
    its sequence number becomes [True], and that is the [seq] of the next
    snapshot. *)
Lemma boolean_seq_replaces_sequence_number :
  let b := update_from_uno (builder_new (F:=Q)) 5 (uno_frame (PInt 7) false 0) in
  let frame := uno_frame (PBool true) false 0 in
  let b' := serial_reader_line b 40 (PDict frame) in
  accepted (PDict frame) = true ∧
  frame !! "seq" = Some (PBool true) ∧
  is_int (PBool true : pyval Q) = false ∧
  seq b = PInt 7 ∧
  seq b' = PBool true ∧
  (at_path ["seq"] <$> (build 750 b' 50).1) = Some (Some (PBool true)).
Proof. vm_compute. by repeat split. Qed.

(** C5.  (1) A builder that has never accepted a frame builds a snapshot
    with [stale = true] and [last_rx_ms = null].  (2) Accepting a frame at
    clock reading [t0] sets [last_rx_ms] to [t0], and [build] does not change
    it.  (3) In any snapshot built at reading [ts] while the last frame was
    accepted at [t0], [stale] is true exactly when [ts - t0 > STALE_AFTER_MS],
    and [last_rx_ms] is [t0].  (4) After a plain frame such a snapshot is
    built.  (5) With a threshold that is not negative, the snapshot built at
    the reading of acceptance has [stale = false]. *)
Theorem staleness_tracks_last_accepted_frame {F : Type} `{PyNum F} (STALE_AFTER_MS : Z) :
  (∀ ts, ∃ snap,
     (build STALE_AFTER_MS (builder_new (F:=F)) ts).1 = Some snap ∧
     at_path ["_health"; "stale"] snap = Some (PBool true) ∧
     at_path ["_health"; "last_rx_ms"] snap = Some PNone) ∧
  (∀ (b : VehicleStateBuilder F) t0 frame ts,
     last_rx_ms (update_from_uno b t0 frame) = Some t0 ∧
     last_rx_ms (build STALE_AFTER_MS b ts).2 = last_rx_ms b) ∧
  (∀ (b : VehicleStateBuilder F) t0 ts snap,
     last_rx_ms b = Some t0 →
     (build STALE_AFTER_MS b ts).1 = Some snap →
     at_path ["_health"; "stale"] snap
       = Some (PBool (bool_decide (ts - t0 > STALE_AFTER_MS))) ∧
     at_path ["_health"; "last_rx_ms"] snap = Some (PInt t0)) ∧
  (∀ (b : VehicleStateBuilder F) t0 frame ts,
     plain_frame frame → cells_ok (analog_state b) →
     is_Some (build STALE_AFTER_MS (update_from_uno b t0 frame) ts).1) ∧
  (0 ≤ STALE_AFTER_MS →
   ∀ (b : VehicleStateBuilder F) t0 frame,
     plain_frame frame → cells_ok (analog_state b) →
     ∃ snap,
       (build STALE_AFTER_MS (update_from_uno b t0 frame) t0).1 = Some snap ∧
       at_path ["_health"; "stale"] snap = Some (PBool false)).
Proof.
  assert (∀ (b : VehicleStateBuilder F) t0 ts snap,
     last_rx_ms b = Some t0 →
     (build STALE_AFTER_MS b ts).1 = Some snap →
     at_path ["_health"; "stale"] snap
       = Some (PBool (bool_decide (ts - t0 > STALE_AFTER_MS))) ∧
     at_path ["_health"; "last_rx_ms"] snap = Some (PInt t0)) as Hstale.
  { intros b t0 ts snap Hrx Hb. apply build_health in Hb as [Hs Hl].
    rewrite Hrx in Hs, Hl. split; [|done]. rewrite Hs. simpl. do 2 f_equal.
    destruct (Z.ltb_spec STALE_AFTER_MS (ts - t0)).
    - by rewrite bool_decide_eq_true_2 by lia.
    - by rewrite bool_decide_eq_false_2 by lia. }
  assert (∀ (b : VehicleStateBuilder F) t0 frame ts,
     plain_frame frame → cells_ok (analog_state b) →
     is_Some (build STALE_AFTER_MS (update_from_uno b t0 frame) ts).1) as Hret.
  { intros b t0 frame ts Hpl Hok.
    destruct (build_returns STALE_AFTER_MS (update_from_uno b t0 frame) ts)
      as (snap & -> & _); done. }
  split; [|split; [|split; [|split]]].
  - intros ts. destruct (build_new STALE_AFTER_MS ts) as (snap & Hb & Hs & Hl).
    exists snap. by rewrite Hb.
  - intros b t0 frame ts. split; [done|]. apply build_last_rx.
  - exact Hstale.
  - exact Hret.
  - intros Hpos b t0 frame Hpl Hok.
    destruct (Hret b t0 frame t0 Hpl Hok) as [snap Hsnap]. exists snap. split; [done|].
    destruct (Hstale (update_from_uno b t0 frame) t0 t0 snap eq_refl Hsnap) as [-> _].
    by rewrite bool_decide_eq_false_2 by lia.
Qed.

Lemma staleness_tracks_last_accepted_frame_witness :
  (∃ snap,
     (build 750 (update_from_uno (builder_new (F:=Q)) 1000 (uno_frame (PInt 1) true 512))
        1000).1 = Some snap ∧
     at_path ["_health"; "stale"] snap = Some (PBool false)) ∧
  (∀ snap,
     (build 750 (update_from_uno (builder_new (F:=Q)) 1000 (uno_frame (PInt 1) true 512))
        1751).1 = Some snap →
     at_path ["_health"; "stale"] snap = Some (PBool (bool_decide (1751 - 1000 > 750))) ∧
     at_path ["_health"; "last_rx_ms"] snap = Some (PInt 1000)).
Proof.
  pose proof (staleness_tracks_last_accepted_frame (F:=Q) 750) as (_ & _ & H3 & _ & H5).
  split.
  - apply (H5 ltac:(lia) builder_new 1000 (uno_frame (PInt 1) true 512)).
    + apply uno_frame_plain.
    + intros k n Hk. vm_compute in Hk. discriminate.
  - intros snap. apply (H3 _ 1000 1751 snap). reflexivity.
Defined.

(** ** VehicleStateTransformer *)

Ltac se_unfold :=
  unfold mbind, SE_bind, mret, SE_ret, lift, item, in_flash, set_dig_stab, set_flash,
    set_analog_clamp, set_analog_ema, set_last_frame_ms in *.

Lemma for_each_cons {S A B} (body : B → A → SE S B) acc x l st :
  for_each body acc (x :: l) st =
  match body acc x st with
  | (Some acc', st') => for_each body acc' l st'
  | (None, st') => (None, st')
  end.
Proof. done. Qed.

(** A relation between states that is kept by every iteration is kept by
    the loop. *)
Lemma for_each_rel {S A B} (body : B → A → SE S B) (R : S → S → Prop) :
  (∀ st, R st st) →
  (∀ st1 st2 st3, R st1 st2 → R st2 st3 → R st1 st3) →
  (∀ acc x st r st', body acc x st = (r, st') → R st st') →
  ∀ l acc st r st', for_each body acc l st = (r, st') → R st st'.
Proof.
  intros Hrefl Htrans Hbody. induction l as [|x l IH]; intros acc st r st' Hl.
  - inversion Hl; subst. apply Hrefl.
  - rewrite for_each_cons in Hl.
    destruct (body acc x st) as [[acc'|] st1] eqn:Hb.
    + eapply Htrans; [by eapply Hbody|by eapply IH].
    + inversion Hl; subst. by eapply Hbody.
Qed.

Section Transformer_facts.
Context {F : Type} `{PyNum F}.
Variable dict_of_list : list (pyval F) → option (gmap string (pyval F)).
Implicit Types (tr : VehicleStateTransformer F).

Lemma digital_step_analog_side raw_inputs now acc entry tr r tr' :
  digital_step raw_inputs now acc entry tr = (r, tr') → same_analog_side tr tr'.
Proof.
  destruct entry as [d_pin name]. unfold digital_step, same_analog_side. se_unfold.
  intros Hd. repeat case_match; simplify_eq; done.
Qed.

Lemma digital_loop_analog_side raw_inputs now l acc tr r tr' :
  for_each (digital_step raw_inputs now) acc l tr = (r, tr') → same_analog_side tr tr'.
Proof.
  apply (for_each_rel _ same_analog_side).
  - done.
  - intros st1 st2 st3 (?&?&?&?&?) (?&?&?&?&?). repeat split; congruence.
  - intros ?????. apply digital_step_analog_side.
Qed.

(** An iteration for a signal other than [n] leaves alone the latch, the
    flash detector and the two results of [n]. *)
Lemma digital_step_other raw_inputs now acc d_pin name tr r tr' n :
  digital_step raw_inputs now acc (d_pin, name) tr = (r, tr') →
  name ≠ n →
  same_but_other_signals n tr tr' ∧
  ∀ acc', r = Some acc' →
          (acc'.1 !! n = acc.1 !! n) ∧ (acc'.2 !! n = acc.2 !! n).
Proof.
  intros Hs Hn. split.
  - split; [|split; [|by eapply digital_step_analog_side]]; revert Hs;
      destruct tr as [pm0 ds fl cl em to lf]; unfold digital_step; se_unfold; cbn;
      intros Hs; repeat (case_match; simplify_eq; cbn in * );
      by rewrite ?lookup_insert_ne by done.
  - revert Hs. destruct tr as [pm0 ds fl cl em to lf]. unfold digital_step. se_unfold.
    cbn. intros Hs acc' ->.
    repeat (case_match; simplify_eq; cbn in * );
      by rewrite ?lookup_insert_ne by done.
Qed.

Lemma same_but_other_signals_trans n tr1 tr2 tr3 :
  same_but_other_signals n tr1 tr2 → same_but_other_signals n tr2 tr3 →
  same_but_other_signals n tr1 tr3.
Proof.
  intros (?&?&?&?&?&?&?) (?&?&?&?&?&?&?). repeat split; congruence.
Qed.

Lemma digital_loop_other raw_inputs now n l : ∀ acc tr r tr',
  (∀ d_pin name, (d_pin, name) ∈ l → name ≠ n) →
  for_each (digital_step raw_inputs now) acc l tr = (r, tr') →
  same_but_other_signals n tr tr' ∧
  ∀ acc', r = Some acc' →
          (acc'.1 !! n = acc.1 !! n) ∧ (acc'.2 !! n = acc.2 !! n).
Proof.
  induction l as [|[d_pin name] l IH]; intros acc tr r tr' Hl Hrun.
  - inversion Hrun; subst. split; [by repeat split|]. by intros acc' [= <-].
  - rewrite for_each_cons in Hrun.
    assert (name ≠ n) as Hne by (eapply Hl; apply elem_of_cons; by left).
    assert (∀ d_pin' name', (d_pin', name') ∈ l → name' ≠ n) as Hl'.
    { intros d_pin' name' Hin. eapply Hl. apply elem_of_cons. by right. }
    destruct (digital_step raw_inputs now acc (d_pin, name) tr) as [[acc1|] tr1] eqn:Hs.
    + destruct (digital_step_other _ _ _ _ _ _ _ _ n Hs Hne) as [Hsame Hacc].
      destruct (IH acc1 tr1 r tr' Hl' Hrun) as [Hsame' Hacc'].
      split; [by eapply same_but_other_signals_trans|].
      intros acc' Hr. destruct (Hacc' acc' Hr) as [E1 E2]. rewrite E1, E2.
      by apply Hacc.
    + inversion Hrun; subst.
      destruct (digital_step_other _ _ _ _ _ _ _ _ n Hs Hne) as [Hsame _].
      split; [done|]. by intros acc'.
Qed.

(** One iteration of the digital loop for a flash-tracked signal: the flash
    detector is fed what the latch has just returned. *)
Lemma digital_step_tracked raw_inputs now acc d_pin name tr latch fd acc' tr' :
  _dig_stab tr !! name = Some latch →
  _flash tr !! name = Some fd →
  digital_step raw_inputs now acc (d_pin, name) tr = (Some acc', tr') →
  let raw_val := truthy (dict_get raw_inputs d_pin (PBool false)) in
  let stable := (HoldLatch.update latch raw_val now).1 in
  acc'.1 !! name = Some stable ∧
  acc'.2 !! name = Some (FlashDetector.update fd stable now).1 ∧
  _dig_stab tr' !! name = Some (HoldLatch.update latch raw_val now).2 ∧
  _flash tr' !! name = Some (FlashDetector.update fd stable now).2.
Proof.
  intros Hl Hf. destruct tr as [pm0 ds fl cl em to lf]. simpl in Hl, Hf.
  unfold digital_step. se_unfold. cbn. rewrite Hl.
  destruct (HoldLatch.update latch _ now) as [stable latch'] eqn:Eu. cbn.
  rewrite Hf, bool_decide_eq_true_2 by done. cbn. rewrite ?Hf.
  destruct (FlashDetector.update fd stable now) as [flashing fd'] eqn:Ef. cbn.
  intros [= <- <-]. cbn. by rewrite !lookup_insert_eq.
Qed.

Lemma analog_loop_digital_side raw_analog l out tr r tr' :
  for_each (analog_step raw_analog) out l tr = (r, tr') →
  _dig_stab tr' = _dig_stab tr ∧ _flash tr' = _flash tr ∧
  stale_timeout_ms tr' = stale_timeout_ms tr ∧ _last_frame_ms tr' = _last_frame_ms tr.
Proof.
  apply (for_each_rel _ (λ tr tr', _dig_stab tr' = _dig_stab tr ∧ _flash tr' = _flash tr ∧
                           stale_timeout_ms tr' = stale_timeout_ms tr ∧
                           _last_frame_ms tr' = _last_frame_ms tr)).
  - done.
  - intros st1 st2 st3 (?&?&?&?) (?&?&?&?). repeat split; congruence.
  - intros acc [pin amap] st r0 st'. destruct st as [pm0 ds fl cl em to lf].
    unfold analog_step. se_unfold. cbn. intros Hs.
    repeat (case_match; simplify_eq; cbn in * ); done.
Qed.

(** A pin without a usable sample is skipped: nothing changes. *)
Lemma analog_step_skip raw_analog out pin amap tr :
  analog_reading raw_analog pin = None →
  analog_step raw_analog out (pin, amap) tr = (Some out, tr).
Proof. unfold analog_step. by intros ->. Qed.

Lemma analog_loop_skip raw_analog pin amap l1 l2 : ∀ out tr,
  analog_reading raw_analog pin = None →
  for_each (analog_step raw_analog) out (l1 ++ (pin, amap) :: l2) tr =
  for_each (analog_step raw_analog) out (l1 ++ l2) tr.
Proof.
  induction l1 as [|x l1 IH]; intros out tr Hr.
  - simpl app. by rewrite for_each_cons, analog_step_skip.
  - simpl app. rewrite !for_each_cons.
    destruct (analog_step raw_analog out x tr) as [[out'|] tr1]; [by apply IH|done].
Qed.

(** An iteration for a channel other than [n] leaves alone the filters and
    the entry of [n]. *)
Lemma analog_step_other raw_analog out pin amap tr r tr' n :
  analog_step raw_analog out (pin, amap) tr = (r, tr') →
  AnalogMap.name amap ≠ n →
  same_but_other_channels n tr tr' ∧ ∀ out', r = Some out' → out' !! n = out !! n.
Proof.
  unfold analog_step, same_but_other_channels. se_unfold. intros Hs Hn.
  repeat case_match; simplify_eq; simpl;
    rewrite ?lookup_insert_ne by done;
    (split; [done|]); intros out' [= <-]; by rewrite ?lookup_insert_ne by done.
Qed.

Lemma same_but_other_channels_trans n tr1 tr2 tr3 :
  same_but_other_channels n tr1 tr2 → same_but_other_channels n tr2 tr3 →
  same_but_other_channels n tr1 tr3.
Proof. intros (?&?&?&?&?&?&?) (?&?&?&?&?&?&?). repeat split; congruence. Qed.

(** If every pin mapped to channel [n] lacks a usable sample, the loop
    neither writes an entry for [n] nor touches its filters. *)
Lemma analog_loop_absent raw_analog n l : ∀ out tr r tr',
  (∀ pin amap, (pin, amap) ∈ l → AnalogMap.name amap = n →
               analog_reading raw_analog pin = None) →
  for_each (analog_step raw_analog) out l tr = (r, tr') →
  same_but_other_channels n tr tr' ∧ ∀ out', r = Some out' → out' !! n = out !! n.
Proof.
  induction l as [|[pin amap] l IH]; intros out tr r tr' Hl Hrun.
  - inversion Hrun; subst. split; [done|]. by intros out' [= <-].
  - rewrite for_each_cons in Hrun.
    assert (∀ pin' amap', (pin', amap') ∈ l → AnalogMap.name amap' = n →
                          analog_reading raw_analog pin' = None) as Hl'.
    { intros pin' amap' Hin. apply Hl. apply elem_of_cons. by right. }
    destruct (decide (AnalogMap.name amap = n)) as [Heq|Hne].
    + rewrite analog_step_skip in Hrun
        by (eapply Hl; [apply elem_of_cons; by left|done]).
      by eapply IH.
    + destruct (analog_step raw_analog out (pin, amap) tr) as [[out1|] tr1] eqn:Hs.
      * destruct (analog_step_other _ _ _ _ _ _ _ n Hs Hne) as [Hsame Hout].
        destruct (IH out1 tr1 r tr' Hl' Hrun) as [Hsame' Hout'].
        split; [by eapply same_but_other_channels_trans|].
        intros out' Hr. rewrite (Hout' out' Hr). by apply Hout.
      * inversion Hrun; subst.
        destruct (analog_step_other _ _ _ _ _ _ _ n Hs Hne) as [Hsame _].
        split; [done|]. by intros out'.
Qed.

Lemma for_each_commute {A B} (body : B → A → SE (VehicleStateTransformer F) B)
    (g : VehicleStateTransformer F → VehicleStateTransformer F) :
  (∀ acc x tr, body acc x (g tr) = ((body acc x tr).1, g (body acc x tr).2)) →
  ∀ l acc tr,
    for_each body acc l (g tr)
    = ((for_each body acc l tr).1, g (for_each body acc l tr).2).
Proof.
  intros Hbody. induction l as [|x l IH]; intros acc tr; [done|].
  rewrite !for_each_cons, Hbody.
  destruct (body acc x tr) as [[acc'|] tr1]; simpl; [apply IH|done].
Qed.

Lemma digital_step_with_pinmap pm raw_inputs now acc entry tr :
  digital_step raw_inputs now acc entry (with_pinmap pm tr)
  = ((digital_step raw_inputs now acc entry tr).1,
     with_pinmap pm (digital_step raw_inputs now acc entry tr).2).
Proof.
  destruct entry as [d_pin name], tr as [pm0 ds fl cl em to lf].
  unfold digital_step, with_pinmap. se_unfold. cbn.
  repeat (case_match; simplify_eq; cbn in * ); done.
Qed.

Lemma analog_step_with_pinmap pm raw_analog out entry tr :
  analog_step raw_analog out entry (with_pinmap pm tr)
  = ((analog_step raw_analog out entry tr).1,
     with_pinmap pm (analog_step raw_analog out entry tr).2).
Proof.
  destruct entry as [a_pin amap], tr as [pm0 ds fl cl em to lf].
  unfold analog_step, with_pinmap. se_unfold. cbn.
  repeat (case_match; simplify_eq; cbn in * ); done.
Qed.

Lemma for_each_app {S A B} (body : B → A → SE S B) l1 l2 : ∀ acc st,
  for_each body acc (l1 ++ l2) st =
  match for_each body acc l1 st with
  | (Some acc', st') => for_each body acc' l2 st'
  | (None, st') => (None, st')
  end.
Proof.
  induction l1 as [|x l1 IH]; intros acc st; [done|].
  simpl app. rewrite !for_each_cons.
  destruct (body acc x st) as [[acc'|] st1]; [apply IH|done].
Qed.

(** One iteration of the analog loop for a pin with a usable sample. *)
Lemma analog_step_present raw_analog out pin amap tr raw_f cl em out' tr' :
  analog_reading raw_analog pin = Some raw_f →
  _analog_clamp tr !! AnalogMap.name amap = Some cl →
  _analog_ema tr !! AnalogMap.name amap = Some em →
  analog_step raw_analog out (pin, amap) tr = (Some out', tr') →
  let clamped := (OutlierClamp.update cl raw_f).1 in
  let smooth := (EMA.update em clamped).1 in
  ∃ norm raw_i,
    normalize_analog smooth amap = Some norm ∧
    f_to_int raw_f = Some raw_i ∧
    out' = <[AnalogMap.name amap :=
               py_dict [("raw", PInt raw_i);
                        ("smooth", PFloat (f_round 2 smooth));
                        ("norm", PFloat (f_round 4 norm))]]> out ∧
    _analog_clamp tr' !! AnalogMap.name amap = Some (OutlierClamp.update cl raw_f).2 ∧
    _analog_ema tr' !! AnalogMap.name amap = Some (EMA.update em clamped).2.
Proof.
  intros Hr Hcl Hem. unfold analog_step. rewrite Hr. se_unfold. rewrite Hcl.
  destruct (OutlierClamp.update cl raw_f) as [clamped cl'] eqn:Ec. cbn.
  rewrite Hem.
  destruct (EMA.update em clamped) as [smooth em'] eqn:Ee. cbn.
  destruct (normalize_analog smooth amap) as [norm|]; [|done].
  destruct (f_to_int raw_f) as [raw_i|]; [|done].
  intros [= <- <-]. exists norm, raw_i. cbn.
  by rewrite !lookup_insert_eq.
Qed.

(** [transform] spelled out statement by statement. *)
Lemma transform_unfold now frame tr :
  transform dict_of_list now frame tr =
  let tr0 := mk_transformer (pinmap tr) (_dig_stab tr) (_flash tr) (_analog_clamp tr)
                            (_analog_ema tr) (stale_timeout_ms tr) now in
  match dict_copy dict_of_list (py_or (dict_get frame "inputs" (PDict ∅)) (PDict ∅)) with
  | None => (None, tr0)
  | Some raw_inputs =>
      match dict_copy dict_of_list
              (py_or (dict_get frame "analog" (PDict ∅)) (PDict ∅)) with
      | None => (None, tr0)
      | Some raw_analog =>
          match for_each (digital_step raw_inputs now) (∅, ∅)
                         (digital (pinmap tr)) tr0 with
          | (None, tr1) => (None, tr1)
          | (Some dig, tr1) =>
              match for_each (analog_step raw_analog) ∅ (analog (pinmap tr)) tr1 with
              | (None, tr2) => (None, tr2)
              | (Some analog_out, tr2) =>
                  (assemble now frame dig.1 dig.2 analog_out, tr2)
              end
          end
      end
  end.
Proof.
  unfold transform, mbind, SE_bind, lift, set_last_frame_ms. cbn.
  repeat (case_match; simplify_eq; cbn in * ); done.
Qed.

Lemma assemble_analog now frame named flashing analog_out snap n :
  assemble now frame named flashing analog_out = Some snap →
  at_path ["analog"; n] snap = analog_out !! n.
Proof.
  unfold assemble. intros Ha.
  destruct (py_int (dict_get frame "seq" (PInt 0))); [|done].
  destruct (py_int (dict_get frame "uptime_ms" (PInt 0))); [|done].
  destruct (py_int (dict_get frame "heartbeat" (PInt 0))); [|done].
  simpl in Ha. injection Ha as <-.
  simpl. unfold py_dict. dict_lookup. simpl. by destruct (analog_out !! n).
Qed.

(** If every pin mapped to channel [n] lacks a usable sample in the frame,
    the snapshot has no entry for [n], and the filters of [n] are as
    before. *)
Lemma transform_omits_channel now frame tr snap tr' n :
  transform dict_of_list now frame tr = (Some snap, tr') →
  (∀ pin amap, (pin, amap) ∈ analog (pinmap tr) → AnalogMap.name amap = n →
               frame_reading dict_of_list frame pin = None) →
  at_path ["analog"; n] snap = None ∧
  _analog_clamp tr' !! n = _analog_clamp tr !! n ∧
  _analog_ema tr' !! n = _analog_ema tr !! n.
Proof.
  rewrite transform_unfold. cbn zeta. intros Ht Hn.
  destruct (dict_copy dict_of_list (py_or (dict_get frame "inputs" (PDict ∅)) (PDict ∅)))
    as [raw_inputs|]; [|done].
  destruct (dict_copy dict_of_list (py_or (dict_get frame "analog" (PDict ∅)) (PDict ∅)))
    as [raw_analog|] eqn:Hra; [|done].
  destruct (for_each (digital_step raw_inputs now) _ _ _) as [[dig|] tr1] eqn:Hd; [|done].
  destruct (for_each (analog_step raw_analog) _ _ _) as [[analog_out|] tr2] eqn:Ha;
    [|done].
  injection Ht as Hs <-.
  apply digital_loop_analog_side in Hd as (_ & Hcl & Hem & _ & _). simpl in Hcl, Hem.
  eapply (analog_loop_absent raw_analog n) in Ha as [Hsame Hout].
  - destruct Hsame as (_ & _ & _ & Hcl' & Hem' & _ & _).
    rewrite (assemble_analog _ _ _ _ _ _ n Hs).
    by rewrite (Hout analog_out eq_refl), lookup_empty, Hcl', Hem', Hcl, Hem.
  - intros pin amap Hin Hname. specialize (Hn pin amap Hin Hname).
    unfold frame_reading in Hn. by rewrite Hra in Hn.
Qed.

(** The entry [transform] reports for a channel of the pin map that has a
    usable sample, the channel being mapped from one pin only. *)
Lemma transform_analog_entry now frame tr snap tr' l1 pin amap l2 raw_f cl em :
  transform dict_of_list now frame tr = (Some snap, tr') →
  analog (pinmap tr) = l1 ++ (pin, amap) :: l2 →
  (∀ pin' amap', (pin', amap') ∈ l1 ++ l2 →
                 AnalogMap.name amap' ≠ AnalogMap.name amap) →
  frame_reading dict_of_list frame pin = Some raw_f →
  _analog_clamp tr !! AnalogMap.name amap = Some cl →
  _analog_ema tr !! AnalogMap.name amap = Some em →
  let clamped := (OutlierClamp.update cl raw_f).1 in
  let smooth := (EMA.update em clamped).1 in
  ∃ norm raw_i,
    normalize_analog smooth amap = Some norm ∧
    f_to_int raw_f = Some raw_i ∧
    at_path ["analog"; AnalogMap.name amap] snap
      = Some (py_dict [("raw", PInt raw_i);
                       ("smooth", PFloat (f_round 2 smooth));
                       ("norm", PFloat (f_round 4 norm))]) ∧
    _analog_clamp tr' !! AnalogMap.name amap = Some (OutlierClamp.update cl raw_f).2 ∧
    _analog_ema tr' !! AnalogMap.name amap = Some (EMA.update em clamped).2.
Proof.
  rewrite transform_unfold. cbn zeta. intros Ht Hl Huniq Hr Hcl Hem.
  unfold frame_reading in Hr.
  destruct (dict_copy dict_of_list (py_or (dict_get frame "inputs" (PDict ∅)) (PDict ∅)))
    as [raw_inputs|]; [|done].
  destruct (dict_copy dict_of_list (py_or (dict_get frame "analog" (PDict ∅)) (PDict ∅)))
    as [raw_analog|] eqn:Hra; [|done]. simpl in Hr.
  destruct (for_each (digital_step raw_inputs now) _ _ _) as [[dig|] tr1] eqn:Hd; [|done].
  destruct (for_each (analog_step raw_analog) _ _ _) as [[analog_out|] tr2] eqn:Ha;
    [|done].
  injection Ht as Hs <-.
  apply digital_loop_analog_side in Hd as (_ & Hcl1 & Hem1 & _ & _). simpl in Hcl1, Hem1.
  rewrite Hl, for_each_app in Ha.
  destruct (for_each (analog_step raw_analog) ∅ l1 tr1) as [[out1|] tra] eqn:Ha1; [|done].
  rewrite for_each_cons in Ha.
  destruct (analog_step raw_analog out1 (pin, amap) tra) as [[out2|] trb] eqn:Ha2; [|done].
  apply (analog_loop_absent raw_analog (AnalogMap.name amap)) in Ha1
    as [(_ & _ & _ & Hcla & Hema & _ & _) _].
  2:{ intros pin' amap' Hin Hname. exfalso.
      apply (Huniq pin' amap'); [|done]. apply elem_of_app. by left. }
  rewrite Hcl1, Hcl in Hcla. rewrite Hem1, Hem in Hema.
  destruct (analog_step_present _ _ _ _ _ _ _ _ _ _ Hr Hcla Hema Ha2)
    as (norm & raw_i & Hnorm & Hint & -> & Hclb & Hemb).
  apply (analog_loop_absent raw_analog (AnalogMap.name amap)) in Ha
    as [(_ & _ & _ & Hclc & Hemc & _ & _) Hout].
  2:{ intros pin' amap' Hin Hname. exfalso.
      apply (Huniq pin' amap'); [|done]. apply elem_of_app. by right. }
  exists norm, raw_i. split; [done|]. split; [done|].
  rewrite (assemble_analog _ _ _ _ _ _ _ Hs), (Hout analog_out eq_refl).
  rewrite lookup_insert_eq, Hclc, Hemc. done.
Qed.

Lemma assemble_indicator now frame named flashing analog_out snap :
  assemble now frame named flashing analog_out = Some snap →
  at_path ["indicators"; "left"] snap = Some (named_get named "left_indicator") ∧
  at_path ["indicators"; "left_flashing"] snap
    = Some (named_get flashing "left_indicator") ∧
  at_path ["indicators"; "right"] snap = Some (named_get named "right_indicator") ∧
  at_path ["indicators"; "right_flashing"] snap
    = Some (named_get flashing "right_indicator").
Proof.
  unfold assemble. intros Ha.
  destruct (py_int (dict_get frame "seq" (PInt 0))); [|done].
  destruct (py_int (dict_get frame "uptime_ms" (PInt 0))); [|done].
  destruct (py_int (dict_get frame "heartbeat" (PInt 0))); [|done].
  simpl in Ha. injection Ha as <-.
  repeat split; simpl; unfold py_dict; dict_lookup; simpl; by dict_lookup.
Qed.

(** In a snapshot of the transformer, the level and the flashing field of
    an indicator that is mapped from one pin are the output of its latch on
    the raw reading, and the output of its flash detector on that
    debounced value. *)
Lemma transform_indicator now frame tr snap tr' l1 d_pin name l2 latch fd raw_inputs :
  transform dict_of_list now frame tr = (Some snap, tr') →
  digital (pinmap tr) = l1 ++ (d_pin, name) :: l2 →
  (∀ d_pin' name', (d_pin', name') ∈ l1 ++ l2 → name' ≠ name) →
  dict_copy dict_of_list (py_or (dict_get frame "inputs" (PDict ∅)) (PDict ∅))
    = Some raw_inputs →
  _dig_stab tr !! name = Some latch →
  _flash tr !! name = Some fd →
  let raw_val := truthy (dict_get raw_inputs d_pin (PBool false)) in
  let stable := (HoldLatch.update latch raw_val now).1 in
  let flashing := (FlashDetector.update fd stable now).1 in
  (name = "left_indicator" →
   at_path ["indicators"; "left"] snap = Some (PBool stable) ∧
   at_path ["indicators"; "left_flashing"] snap = Some (PBool flashing)) ∧
  (name = "right_indicator" →
   at_path ["indicators"; "right"] snap = Some (PBool stable) ∧
   at_path ["indicators"; "right_flashing"] snap = Some (PBool flashing)) ∧
  _flash tr' !! name = Some (FlashDetector.update fd stable now).2.
Proof.
  rewrite transform_unfold. cbn zeta. intros Ht Hl Huniq Hri Hlatch Hfd.
  rewrite Hri in Ht.
  destruct (dict_copy dict_of_list (py_or (dict_get frame "analog" (PDict ∅)) (PDict ∅)))
    as [raw_analog|]; [|done].
  destruct (for_each (digital_step raw_inputs now) _ _ _) as [[dig|] tr1] eqn:Hd; [|done].
  destruct (for_each (analog_step raw_analog) _ _ _) as [[analog_out|] tr2] eqn:Ha;
    [|done].
  injection Ht as Hs <-.
  rewrite Hl, for_each_app in Hd.
  destruct (for_each (digital_step raw_inputs now) (∅, ∅) l1 _) as [[acc1|] tra] eqn:Hd1;
    [|done].
  rewrite for_each_cons in Hd.
  destruct (digital_step raw_inputs now acc1 (d_pin, name) tra) as [[acc2|] trb] eqn:Hd2;
    [|done].
  apply (digital_loop_other raw_inputs now name) in Hd1 as [(Hla & Hfa & _) _].
  2:{ intros d_pin' name' Hin. apply (Huniq d_pin' name'). apply elem_of_app. by left. }
  simpl in Hla, Hfa. rewrite Hlatch in Hla. rewrite Hfd in Hfa.
  destruct (digital_step_tracked _ _ _ _ _ _ _ _ _ _ Hla Hfa Hd2)
    as (Hn2 & Hf2 & _ & Hfb).
  apply (digital_loop_other raw_inputs now name) in Hd as [(_ & Hfc & _) Hacc].
  2:{ intros d_pin' name' Hin. apply (Huniq d_pin' name'). apply elem_of_app. by right. }
  destruct (Hacc dig eq_refl) as [Hn Hf]. rewrite Hn2 in Hn. rewrite Hf2 in Hf.
  destruct (assemble_indicator _ _ _ _ _ _ Hs) as (Hleft & Hlf & Hright & Hrf).
  apply analog_loop_digital_side in Ha as (_ & Hfl & _ & _).
  split; [|split].
  - intros ->. unfold named_get in *. by rewrite Hleft, Hlf, Hn, Hf.
  - intros ->. unfold named_get in *. by rewrite Hright, Hrf, Hn, Hf.
  - by rewrite Hfl, Hfc, Hfb.
Qed.

(** [transform] records its clock reading, raise or not. *)
Lemma transform_last_frame_ms now frame tr :
  _last_frame_ms (transform dict_of_list now frame tr).2 = now ∧
  stale_timeout_ms (transform dict_of_list now frame tr).2 = stale_timeout_ms tr.
Proof.
  rewrite transform_unfold. cbn zeta.
  destruct (dict_copy dict_of_list (py_or (dict_get frame "inputs" (PDict ∅)) (PDict ∅)))
    as [raw_inputs|]; [|done].
  destruct (dict_copy dict_of_list (py_or (dict_get frame "analog" (PDict ∅)) (PDict ∅)))
    as [raw_analog|]; [|done].
  destruct (for_each (digital_step raw_inputs now) _ _ _) as [[dig|] tr1] eqn:Hd.
  - apply digital_loop_analog_side in Hd as (_ & _ & _ & Hto & Hlf). simpl in Hto, Hlf.
    destruct (for_each (analog_step raw_analog) _ _ _) as [[analog_out|] tr2] eqn:Ha;
      apply analog_loop_digital_side in Ha as (_ & _ & Hto' & Hlf'); simpl;
      split; congruence.
  - apply digital_loop_analog_side in Hd as (_ & _ & _ & Hto & Hlf). done.
Qed.

(** The stale flag of [health_state]: true before the first [transform],
    and afterwards, the clock not having read 0 at that call, true exactly
    when more than [stale_timeout_ms] has elapsed since.  The dict has no
    [last_rx_ms]. *)
Lemma health_state_stale now0 frame tr now :
  (_last_frame_ms tr = 0 →
   at_path ["_health"; "stale"] (health_state tr now) = Some (PBool true)) ∧
  (now0 ≠ 0 →
   at_path ["_health"; "stale"]
     (health_state (transform dict_of_list now0 frame tr).2 now)
   = Some (PBool (bool_decide (now - now0 > stale_timeout_ms tr)))) ∧
  at_path ["_health"; "last_rx_ms"] (health_state tr now) = None.
Proof.
  split; [|split].
  - intros H0. unfold health_state. rewrite H0. simpl.
    unfold py_dict. dict_lookup. simpl. by dict_lookup.
  - intros Hne. unfold health_state.
    destruct (transform_last_frame_ms now0 frame tr) as [-> ->].
    destruct (Z.eqb_spec now0 0) as [|_]; [done|]. simpl.
    unfold py_dict. dict_lookup. simpl. dict_lookup. do 2 f_equal.
    destruct (Z.ltb_spec (stale_timeout_ms tr) (now - now0)).
    + by rewrite bool_decide_eq_true_2 by lia.
    + by rewrite bool_decide_eq_false_2 by lia.
  - unfold health_state. simpl. unfold py_dict. dict_lookup. simpl. by dict_lookup.
Qed.

(** A pin without a usable sample in the frame might as well not be in the
    pin map: the snapshot and all filter state come out the same. *)
Lemma transform_without_pin now frame tr dg l1 pin amap l2 :
  pinmap tr = mk_PinMap dg (l1 ++ (pin, amap) :: l2) →
  frame_reading dict_of_list frame pin = None →
  let pm' := mk_PinMap dg (l1 ++ l2) in
  transform dict_of_list now frame (with_pinmap pm' tr)
  = ((transform dict_of_list now frame tr).1,
     with_pinmap pm' (transform dict_of_list now frame tr).2).
Proof.
  intros Hpm Hr pm'. rewrite !transform_unfold. cbn zeta.
  destruct tr as [pm0 ds fl cl em to lf]. simpl in Hpm. subst pm0.
  unfold frame_reading in Hr.
  cbn [with_pinmap pinmap _dig_stab _flash _analog_clamp _analog_ema
       stale_timeout_ms _last_frame_ms digital analog].
  destruct (dict_copy dict_of_list (py_or (dict_get frame "inputs" (PDict ∅)) (PDict ∅)))
    as [raw_inputs|]; [|done].
  destruct (dict_copy dict_of_list (py_or (dict_get frame "analog" (PDict ∅)) (PDict ∅)))
    as [raw_analog|]; [|done]. simpl in Hr.
  pose proof (for_each_commute (digital_step raw_inputs now) (with_pinmap pm')
                (λ acc x tr, digital_step_with_pinmap pm' raw_inputs now acc x tr)
                dg (∅, ∅)
                (mk_transformer (mk_PinMap dg (l1 ++ (pin, amap) :: l2))
                                ds fl cl em to now)) as Hd.
  unfold with_pinmap at 1 in Hd.
  cbn [pinmap _dig_stab _flash _analog_clamp _analog_ema
       stale_timeout_ms _last_frame_ms] in Hd.
  subst pm'. cbn [digital analog] in *. rewrite Hd. clear Hd.
  destruct (for_each (digital_step raw_inputs now) (∅, ∅) dg _) as [[dig|] tr1];
    [|done]. cbn [fst snd].
  rewrite (for_each_commute (analog_step raw_analog)
             (with_pinmap (mk_PinMap dg (l1 ++ l2)))
             (λ acc x tr, analog_step_with_pinmap _ raw_analog acc x tr)).
  rewrite (analog_loop_skip raw_analog pin amap l1 l2) by done.
  by destruct (for_each (analog_step raw_analog) ∅ (l1 ++ l2) tr1) as [[out|] tr2].
Qed.

End Transformer_facts.

(** ** The exact-rational instance *)

Lemma Q_clamp_unit (n : Q) : (0 <= py_max (f_lit 0) (py_min (f_lit 1) n) <= 1)%Q.
Proof.
  unfold py_max, py_min. cbn [f_ltb f_lit QNum].
  change (Qred 0) with 0%Q. change (Qred 1) with 1%Q.
  destruct (n ?= 1)%Q eqn:E1.
  - cbn. split; discriminate.
  - destruct (0 ?= n)%Q eqn:E0.
    + split; discriminate.
    + apply Qlt_alt in E1, E0. split; by apply Qlt_le_weak.
    + split; discriminate.
  - cbn. split; discriminate.
Qed.

(** Over the rationals, whatever the range and the input, [normalize_analog]
    returns a value of the unit interval. *)
Lemma normalize_analog_unit_interval (raw : Q) (amap : AnalogMap.t) (v : Q) :
  normalize_analog raw amap = Some v → (0 <= v <= 1)%Q.
Proof.
  unfold normalize_analog. cbn [f_of_int QNum mbind option_bind].
  destruct (f_leb _ _).
  - intros [= <-]. split; discriminate.
  - intros [= <-]. apply Q_clamp_unit.
Qed.

(** ** Claims that involve both builders *)

(** C8 on the code.  After a frame with A0 = 0 and one with A0 = 1000, each
    followed by a pump tick, a further pump tick with no frame in between
    publishes another smoothed value (277.5 after 150.0) and has changed the
    accumulator of the channel. *)
Lemma rebuild_changes_smoothed_value :
  ∃ h0, main (F:=Q) 750 0 = Some h0 ∧
    let h := run 750 h0 [SerialLine 10 (PDict (uno_frame (PInt 1) false 0)); PumpTick 20;
                         SerialLine 30 (PDict (uno_frame (PInt 2) false 1000));
                         PumpTick 40] in
    let h' := step 750 h (PumpTick 50) in
    at_path ["analog"; "fuel_sender_raw"; "smooth"] (latest_state (hub h))
      = Some (PFloat (150 # 1)) ∧
    at_path ["analog"; "fuel_sender_raw"; "smooth"] (latest_state (hub h'))
      = Some (PFloat (555 # 2)) ∧
    analog_state (builder (hub h)) !! "A0" = Some (NFloat (150 # 1)) ∧
    analog_state (builder (hub h')) !! "A0" = Some (NFloat (555 # 2)).
Proof. eexists. split; [reflexivity|]. vm_compute. repeat split. Qed.

(** Who writes the smoothing state of the hub.  Reading a serial line never
    changes the accumulators, and [build] changes nothing else in the
    builder.  A [build] that returns leaves the accumulator of a channel as
    it was when the last frame has no usable sample for its pin; otherwise
    it stores the sample (first use) or [0.15 * sample + 0.85 * previous]. *)
Theorem smoothing_state_written_by_build_only {F : Type} `{PyNum F} (STALE_AFTER_MS : Z) :
  (∀ (b : VehicleStateBuilder F) now obj,
     analog_state (serial_reader_line b now obj) = analog_state b) ∧
  (∀ (b : VehicleStateBuilder F) ts,
     seq (build STALE_AFTER_MS b ts).2 = seq b ∧
     last_rx_ms (build STALE_AFTER_MS b ts).2 = last_rx_ms b ∧
     last_frame (build STALE_AFTER_MS b ts).2 = last_frame b) ∧
  (∀ (b : VehicleStateBuilder F) ts pin name,
     (pin, name) ∈ hub_analog_pins →
     is_Some (build STALE_AFTER_MS b ts).1 →
     ∃ analog,
       frame_analog (last_frame b) = Some analog ∧
       analog_state (build STALE_AFTER_MS b ts).2 !! pin
       = match analog_sample analog pin with
         | Some z => smooth_next (analog_state b !! pin) z
         | None => analog_state b !! pin
         end).
Proof.
  split; [|split].
  - apply serial_reader_line_analog_state.
  - intros b ts. split; [apply build_seq|]. split; [apply build_last_rx|].
    apply build_last_frame.
  - intros b ts pin name Hin [snap Hsnap]. by eapply build_cell.
Qed.

Lemma smoothing_state_written_by_build_only_witness :
  let b := update_from_uno (builder_new (F:=Q)) 10 (uno_frame (PInt 1) false 1000) in
  ∃ analog,
    frame_analog (last_frame b) = Some analog ∧
    analog_state (build 750 b 20).2 !! "A0"
    = match analog_sample analog "A0" with
      | Some z => smooth_next (analog_state b !! "A0") z
      | None => analog_state b !! "A0"
      end.
Proof.
  intros b.
  apply (proj2 (proj2 (smoothing_state_written_by_build_only (F:=Q) 750))
           b 20 "A0" "fuel_sender_raw").
  - apply elem_of_cons. by left.
  - vm_compute. eexists. reflexivity.
Defined.

(** C4 on the code.  With fuel on A0 and coolant on A1, a frame that carries
    A1 only makes [transform] return a snapshot whose analog map has the
    coolant entry and no fuel entry at all.  The hub, handed the same frame,
    builds a snapshot with the coolant entry and, under the fuel channel, the
    triplet of nulls. *)
Theorem transformer_omits_missing_channel :
  let frame := analog_frame [("A1", PInt 512)] in
  (let tr := transformer_new (F:=Q) example_pinmap in
   let r := (transform no_list_dicts 1000 frame tr).1 in
   (r ≫= at_path ["analog"; "coolant_sender_raw"; "raw"]) = Some (PInt 512) ∧
   (r ≫= at_path ["analog"; "coolant_sender_raw"; "smooth"]) = Some (PFloat (512 # 1)) ∧
   (r ≫= at_path ["analog"]) ≠ None ∧
   (r ≫= at_path ["analog"; "fuel_sender_raw"]) = None) ∧
  (let b := update_from_uno (builder_new (F:=Q)) 1000 frame in
   let r := (build 750 b 1000).1 in
   (r ≫= at_path ["analog"; "coolant_sender_raw"; "raw"]) = Some (PInt 512) ∧
   (r ≫= at_path ["analog"; "fuel_sender_raw"]) = Some null_triplet ∧
   (r ≫= at_path ["analog"; "fuel_sender_raw"; "raw"]) = Some PNone ∧
   (r ≫= at_path ["analog"; "fuel_sender_raw"; "smooth"]) = Some PNone ∧
   (r ≫= at_path ["analog"; "fuel_sender_raw"; "norm"]) = Some PNone).
Proof. vm_compute. repeat split. discriminate. Qed.

(** A channel without a usable sample, in general.  Hub: when the last frame
    has no usable sample for a pin
    that [build] reads (missing, null, or rejected by [int]), any snapshot
    built has the null triplet under that channel, the accumulator of the
    channel is untouched, and the snapshot and all accumulators are the same
    as for the frame without that sample.  Transformer: when no pin mapped
    to a channel has a usable sample in the frame (missing, null, or rejected
    by [float]), the snapshot [transform] returns has no entry for that
    channel and the clamp and EMA of the channel are untouched; and the
    snapshot and all filter state are the same as with such a pin taken out
    of the pin map. *)
Theorem missing_sample_null_in_hub_omitted_by_transformer {F : Type} `{PyNum F} :
  (∀ STALE_AFTER_MS (b : VehicleStateBuilder F) ts pin name analog,
     (pin, name) ∈ hub_analog_pins →
     frame_analog (last_frame b) = Some analog →
     analog_sample analog pin = None →
     (∀ snap, (build STALE_AFTER_MS b ts).1 = Some snap →
              at_path ["analog"; name] snap = Some null_triplet ∧
              at_path ["analog"; name; "raw"] snap = Some PNone ∧
              at_path ["analog"; name; "smooth"] snap = Some PNone ∧
              at_path ["analog"; name; "norm"] snap = Some PNone ∧
              analog_state (build STALE_AFTER_MS b ts).2 !! pin = analog_state b !! pin) ∧
     let b' := with_frame b (drop_sample (last_frame b) pin) in
     (build STALE_AFTER_MS b' ts).1 = (build STALE_AFTER_MS b ts).1 ∧
     analog_state (build STALE_AFTER_MS b' ts).2
     = analog_state (build STALE_AFTER_MS b ts).2) ∧
  (∀ dict_of_list now frame (tr : VehicleStateTransformer F),
     (∀ n snap tr',
        transform dict_of_list now frame tr = (Some snap, tr') →
        (∀ pin amap, (pin, amap) ∈ analog (pinmap tr) → AnalogMap.name amap = n →
                     frame_reading dict_of_list frame pin = None) →
        at_path ["analog"; n] snap = None ∧
        _analog_clamp tr' !! n = _analog_clamp tr !! n ∧
        _analog_ema tr' !! n = _analog_ema tr !! n) ∧
     (∀ dg l1 pin amap l2,
        pinmap tr = mk_PinMap dg (l1 ++ (pin, amap) :: l2) →
        frame_reading dict_of_list frame pin = None →
        let pm' := mk_PinMap dg (l1 ++ l2) in
        transform dict_of_list now frame (with_pinmap pm' tr)
        = ((transform dict_of_list now frame tr).1,
           with_pinmap pm' (transform dict_of_list now frame tr).2))).
Proof.
  split.
  - intros STALE b ts pin name analog Hin Han Hs. split.
    + intros snap Hsnap.
      pose proof (build_null_entry STALE b ts snap pin name analog Hin Han Hs Hsnap) as Hnull.
      assert (∀ k, at_path ["analog"; name; k] snap = at_path [k] (null_triplet (F:=F)))
        as Hk.
      { intros k. simpl in *. destruct snap; try done.
        destruct (m !! "analog") as [[]|]; simpl in *; try done.
        destruct (m0 !! name) as [e|]; simpl in *; [|done]. by injection Hnull as ->. }
      split; [done|]. rewrite !Hk.
      split; [by unfold null_triplet, py_dict; simpl; dict_lookup|].
      split; [by unfold null_triplet, py_dict; simpl; dict_lookup|].
      split; [by unfold null_triplet, py_dict; simpl; dict_lookup|].
      destruct (build_cell STALE b ts snap pin name Hin Hsnap) as (analog' & Han' & ->).
      rewrite Han in Han'. injection Han' as <-. by rewrite Hs.
    + by apply (build_drop_sample STALE b ts pin analog).
  - intros dict_of_list now frame tr. split.
    + intros n snap tr'. apply transform_omits_channel.
    + intros dg l1 pin amap l2. apply transform_without_pin.
Qed.

Lemma missing_sample_null_in_hub_omitted_by_transformer_witness :
  (let b := update_from_uno (builder_new (F:=Q)) 10
              (analog_frame [("A0", PStr "n/a"); ("A1", PInt 512)]) in
   ∀ snap, (build 750 b 20).1 = Some snap →
           at_path ["analog"; "fuel_sender_raw"] snap = Some null_triplet ∧
           at_path ["analog"; "fuel_sender_raw"; "raw"] snap = Some PNone ∧
           at_path ["analog"; "fuel_sender_raw"; "smooth"] snap = Some PNone ∧
           at_path ["analog"; "fuel_sender_raw"; "norm"] snap = Some PNone ∧
           analog_state (build 750 b 20).2 !! "A0" = analog_state b !! "A0") ∧
  (let tr := transformer_new (F:=Q) example_pinmap in
   let frame := analog_frame [("A1", PInt 512)] in
   let pm' := mk_PinMap (digital example_pinmap)
                ([] ++ [("A1", AnalogMap.mk "coolant_sender_raw" 0 1023 false)]) in
   transform no_list_dicts 1000 frame (with_pinmap pm' tr)
   = ((transform no_list_dicts 1000 frame tr).1,
      with_pinmap pm' (transform no_list_dicts 1000 frame tr).2)).
Proof.
  split.
  - intros b.
    apply (proj1 (proj1 missing_sample_null_in_hub_omitted_by_transformer
                    750 b 20 "A0" "fuel_sender_raw"
                    (list_to_map [("A0", PStr "n/a"); ("A1", PInt 512)])
                    ltac:(apply elem_of_cons; by left) ltac:(reflexivity)
                    ltac:(reflexivity))).
  - intros tr frame.
    apply (proj2 (proj2 missing_sample_null_in_hub_omitted_by_transformer
                    no_list_dicts 1000 frame tr)
             (digital example_pinmap) []
             "A0" (AnalogMap.mk "fuel_sender_raw" 0 1023 false)
             [("A1", AnalogMap.mk "coolant_sender_raw" 0 1023 false)]).
    + reflexivity.
    + reflexivity.
Defined.

(** C2 on the code.  Pin D2 reads ON in three frames 100 ms apart and never
    toggles.  Every snapshot the hub sends has [left_flashing = true], the
    raw level.  The transformer, fed the same frames, debounces D2 (OFF, ON,
    ON) and its flash detector, fed the debounced value, answers false each
    time. *)
Theorem hub_publishes_level_as_flashing :
  let frame := uno_frame (PInt 1) true 0 in
  (∃ h0, main (F:=Q) 750 0 = Some h0 ∧
     let h := run 750 h0
                [SerialLine 0 (PDict frame); PumpTick 10; WsConnect 15; WsPush 0%nat;
                 SerialLine 100 (PDict frame); PumpTick 110; WsPush 0%nat;
                 SerialLine 200 (PDict frame); PumpTick 210; WsPush 0%nat] in
     column ["indicators"; "left"] (Some <$> tail (sent_to h 0%nat))
       = [Some (PBool true); Some (PBool true); Some (PBool true)] ∧
     column ["indicators"; "left_flashing"] (Some <$> tail (sent_to h 0%nat))
       = [Some (PBool true); Some (PBool true); Some (PBool true)]) ∧
  (let snaps := transform_all (transformer_new example_pinmap)
                  [(0, frame); (100, frame); (200, frame)] in
   column ["indicators"; "left"] snaps
     = [Some (PBool false); Some (PBool true); Some (PBool true)] ∧
   column ["indicators"; "left_flashing"] snaps
     = [Some (PBool false); Some (PBool false); Some (PBool false)]).
Proof.
  split.
  - eexists. split; [reflexivity|]. vm_compute. by split.
  - vm_compute. by split.
Qed.

(** C3 on the code.  After A0 = 0 and A0 = 1000, each followed by a pump
    tick, the accumulator of the channel holds 150 and the published [smooth]
    is 150.0, but the published [norm] is 0.9775: that is 1000 / 1023, not the
    normalisation 0.1466 of the smoothed value over 0..1023, and no outlier
    clamp has been applied.  For a sample of 2046 the published [norm] is 2.0,
    outside the unit interval.  The transformer, fed the first two frames,
    clamps the step to 120, smooths to 30.0 and reports its normalisation
    0.0293. *)
Theorem hub_norm_not_of_smoothed_value :
  let fuel := AnalogMap.mk "fuel_sender_raw" 0 1023 false in
  let frames := [(0, uno_frame (PInt 1) false 0); (100, uno_frame (PInt 2) false 1000)] in
  (∃ h0, main (F:=Q) 750 0 = Some h0 ∧
     (let h := run 750 h0 [SerialLine 0 (PDict (uno_frame (PInt 1) false 0)); PumpTick 10;
                           SerialLine 100 (PDict (uno_frame (PInt 2) false 1000));
                           PumpTick 110] in
      let entry k := at_path ["analog"; "fuel_sender_raw"; k] (latest_state (hub h)) in
      analog_state (builder (hub h)) !! "A0" = Some (NFloat (150 # 1)) ∧
      entry "raw" = Some (PInt 1000) ∧
      entry "smooth" = Some (PFloat (150 # 1)) ∧
      entry "norm" = Some (PFloat (391 # 400)) ∧
      (λ n, PFloat (f_round 4 n)) <$> normalize_analog (150 # 1)%Q fuel
      = Some (PFloat (733 # 5000)) ∧
      entry "norm" ≠ (λ n, PFloat (f_round 4 n)) <$> normalize_analog (150 # 1)%Q fuel) ∧
     (let h := run 750 h0 [SerialLine 0 (PDict (uno_frame (PInt 1) false 2046));
                           PumpTick 10] in
      at_path ["analog"; "fuel_sender_raw"; "norm"] (latest_state (hub h))
      = Some (PFloat (2 # 1)) ∧ ¬ (2 # 1 <= 1)%Q)) ∧
  (let snaps := transform_all (transformer_new example_pinmap) frames in
   column ["analog"; "fuel_sender_raw"; "raw"] snaps
     = [Some (PInt 0); Some (PInt 1000)] ∧
   column ["analog"; "fuel_sender_raw"; "smooth"] snaps
     = [Some (PFloat (0 # 1)); Some (PFloat (30 # 1))] ∧
   column ["analog"; "fuel_sender_raw"; "norm"] snaps
     = [Some (PFloat (0 # 1)); Some (PFloat (293 # 10000))] ∧
   f_round 4 <$> normalize_analog (30 # 1)%Q fuel = Some (293 # 10000)%Q).
Proof.
  split.
  - eexists. split; [reflexivity|]. vm_compute. repeat split; try discriminate.
    intros Hle. by apply Hle.
  - vm_compute. by repeat split.
Qed.

(** What each builder reports for a channel with a usable sample.
    Transformer: for a channel of the pin map that is
    mapped from one pin and whose sample [float] accepts, a [transform] that
    returns reports, with [clamped] the output of the channel's outlier clamp
    on the sample and [smooth] the output of the channel's EMA on [clamped]:
    [norm] = [normalize_analog(smooth, amap)] rounded to 4 places, [smooth]
    rounded to 2 places, [raw] the sample truncated to an int; and the two
    filters have advanced by exactly that update.  Hub: for a channel with a
    sample [int] accepts, a [build] that returns reports [raw] the sample,
    [smooth] the channel's accumulator after this build rounded to 2 places,
    and [norm] = [raw / 1023.0] rounded to 4 places. *)
Theorem analog_entry_of_each_builder {F : Type} `{PyNum F} :
  (∀ dict_of_list now frame (tr : VehicleStateTransformer F) l1 pin amap l2 raw_f cl em,
     is_Some (transform dict_of_list now frame tr).1 →
     analog (pinmap tr) = l1 ++ (pin, amap) :: l2 →
     (∀ pin' amap', (pin', amap') ∈ l1 ++ l2 →
                    AnalogMap.name amap' ≠ AnalogMap.name amap) →
     frame_reading dict_of_list frame pin = Some raw_f →
     _analog_clamp tr !! AnalogMap.name amap = Some cl →
     _analog_ema tr !! AnalogMap.name amap = Some em →
     let clamped := (OutlierClamp.update cl raw_f).1 in
     let smooth := (EMA.update em clamped).1 in
     let r := transform dict_of_list now frame tr in
     ∃ norm raw_i,
       normalize_analog smooth amap = Some norm ∧
       f_to_int raw_f = Some raw_i ∧
       (r.1 ≫= at_path ["analog"; AnalogMap.name amap])
         = Some (py_dict [("raw", PInt raw_i);
                          ("smooth", PFloat (f_round 2 smooth));
                          ("norm", PFloat (f_round 4 norm))]) ∧
       _analog_clamp r.2 !! AnalogMap.name amap = Some (OutlierClamp.update cl raw_f).2 ∧
       _analog_ema r.2 !! AnalogMap.name amap = Some (EMA.update em clamped).2) ∧
  (∀ STALE_AFTER_MS (b : VehicleStateBuilder F) ts pin name,
     (pin, name) ∈ hub_analog_pins →
     is_Some (build STALE_AFTER_MS b ts).1 →
     let r := build STALE_AFTER_MS b ts in
     ∃ analog,
       frame_analog (last_frame b) = Some analog ∧
       ∀ z, analog_sample analog pin = Some z →
            ∃ x n sm,
              f_of_int z = Some x ∧
              smooth_next (analog_state b !! pin) z = Some n ∧
              analog_state r.2 !! pin = Some n ∧
              num_to_float n = Some sm ∧
              (r.1 ≫= at_path ["analog"; name; "raw"]) = Some (PInt z) ∧
              (r.1 ≫= at_path ["analog"; name; "smooth"])
                = Some (PFloat (f_round 2 sm)) ∧
              (r.1 ≫= at_path ["analog"; name; "norm"])
                = Some (PFloat (f_round 4 (f_div x (f_lit 1023))))).
Proof.
  split.
  - intros dict_of_list now frame tr l1 pin amap l2 raw_f cl em [snap Hsnap] Hl Hu Hr Hcl Hem.
    intros clamped smooth r. subst r.
    destruct (transform dict_of_list now frame tr) as [o tr'] eqn:Ht.
    simpl in Hsnap. subst o. simpl.
    by eapply transform_analog_entry.
  - intros STALE b ts pin name Hin [snap Hsnap] r. subst r.
    destruct (hub_analog_entry STALE b ts snap pin name Hin Hsnap) as (analog & Han & Hz).
    exists analog. split; [done|]. intros z Hs.
    destruct (Hz z Hs) as (x & n & sm & ?). exists x, n, sm. by rewrite Hsnap.
Qed.

Lemma analog_entry_of_each_builder_witness :
  let tr := (transform no_list_dicts 0 (uno_frame (PInt 1) false 0)
               (transformer_new (F:=Q) example_pinmap)).2 in
  let fuel := AnalogMap.mk "fuel_sender_raw" 0 1023 false in
  let cl := OutlierClamp.mk (120 # 1)%Q true (0 # 1)%Q in
  let em := EMA.mk (1 # 4)%Q true (0 # 1)%Q in
  let clamped := (OutlierClamp.update cl (1000 # 1)%Q).1 in
  let smooth := (EMA.update em clamped).1 in
  let r := transform no_list_dicts 100 (uno_frame (PInt 2) false 1000) tr in
  ∃ norm raw_i,
    normalize_analog smooth fuel = Some norm ∧
    f_to_int (1000 # 1)%Q = Some raw_i ∧
    (r.1 ≫= at_path ["analog"; "fuel_sender_raw"])
      = Some (py_dict [("raw", PInt raw_i);
                       ("smooth", PFloat (f_round 2 smooth));
                       ("norm", PFloat (f_round 4 norm))]) ∧
    _analog_clamp r.2 !! "fuel_sender_raw" = Some (OutlierClamp.update cl (1000 # 1)%Q).2 ∧
    _analog_ema r.2 !! "fuel_sender_raw" = Some (EMA.update em clamped).2.
Proof.
  intros tr fuel cl em.
  apply (proj1 analog_entry_of_each_builder no_list_dicts 100
           (uno_frame (PInt 2) false 1000) tr
           [] "A0" fuel [("A1", AnalogMap.mk "coolant_sender_raw" 0 1023 false)]
           (1000 # 1)%Q cl em).
  - vm_compute. eexists. reflexivity.
  - reflexivity.
  - intros pin' amap' Hin. apply elem_of_cons in Hin as [Hin|Hin].
    + injection Hin as -> ->. discriminate.
    + by apply elem_of_nil in Hin.
  - reflexivity.
  - reflexivity.
  - reflexivity.
Defined.

(* ===================================================================== *)
(** * Further properties of the code *)
(* ===================================================================== *)

(** ** HoldLatch: debouncing *)

Lemma HoldLatch_run_app calls1 : ∀ s calls2,
  HoldLatch.run s (calls1 ++ calls2) =
  ((HoldLatch.run s calls1).1 ++ (HoldLatch.run (HoldLatch.run s calls1).2 calls2).1,
   (HoldLatch.run (HoldLatch.run s calls1).2 calls2).2).
Proof.
  induction calls1 as [|[raw now] calls1 IH]; intros s calls2; simpl.
  - by destruct (HoldLatch.run s calls2).
  - destruct (HoldLatch.update s raw now) as [o s1].
    rewrite IH. destruct (HoldLatch.run s1 calls1) as [os s2]. simpl.
    by destruct (HoldLatch.run s2 calls2).
Qed.

Lemma HoldLatch_run_snoc calls s raw now :
  HoldLatch.run s (calls ++ [(raw, now)]) =
  ((HoldLatch.run s calls).1 ++ [(HoldLatch.update (HoldLatch.run s calls).2 raw now).1],
   (HoldLatch.update (HoldLatch.run s calls).2 raw now).2).
Proof.
  rewrite HoldLatch_run_app. simpl.
  by destruct (HoldLatch.update (HoldLatch.run s calls).2 raw now).
Qed.

Lemma HoldLatch_track_raw_last s raw now :
  HoldLatch._raw_last (HoldLatch.track_raw s raw now) = raw.
Proof.
  unfold HoldLatch.track_raw. destruct (eqb raw (HoldLatch._raw_last s)) eqn:E; simpl; [|done].
  by apply eqb_prop in E.
Qed.

Lemma HoldLatch_track_raw_same s raw now :
  HoldLatch._raw_last s = raw → HoldLatch.track_raw s raw now = s.
Proof. intros <-. unfold HoldLatch.track_raw. by rewrite eqb_reflx. Qed.

Lemma HoldLatch_accept_stable_raw s raw now :
  HoldLatch._raw_last (HoldLatch.accept_stable s raw now) = HoldLatch._raw_last s.
Proof.
  unfold HoldLatch.accept_stable.
  repeat match goal with |- context [if ?b then _ else _] => destruct b end; done.
Qed.

Lemma HoldLatch_accept_stable_idem s raw now :
  HoldLatch.accept_stable (HoldLatch.accept_stable s raw now) raw now
  = HoldLatch.accept_stable s raw now.
Proof.
  destruct s as [m h rl rlc st ss hu].
  unfold HoldLatch.accept_stable, HoldLatch.set_hold_until, HoldLatch.set_stable. simpl.
  destruct (m <=? now - rlc) eqn:E1; simpl; [|by rewrite E1].
  destruct (eqb st raw) eqn:E2; simpl; [by rewrite E1, E2|].
  destruct (raw && (0 <? h)) eqn:E3; simpl; by rewrite E1, eqb_reflx.
Qed.

(** X1.  Polling a latch again with the same sample at the same clock
    reading returns the same value and leaves the latch as the first call
    left it. *)
Theorem hold_latch_update_idempotent s raw now :
  HoldLatch.update (HoldLatch.update s raw now).2 raw now = HoldLatch.update s raw now.
Proof.
  unfold HoldLatch.update.
  set (s1 := HoldLatch.accept_stable (HoldLatch.track_raw s raw now) raw now).
  assert (HoldLatch.track_raw s1 raw now = s1) as Ht.
  { apply HoldLatch_track_raw_same. unfold s1.
    rewrite HoldLatch_accept_stable_raw. apply HoldLatch_track_raw_last. }
  assert (HoldLatch.accept_stable s1 raw now = s1) as Ha
    by apply HoldLatch_accept_stable_idem.
  destruct ((0 <? HoldLatch.hold_on_ms s1) && negb (HoldLatch._stable s1)
            && (now <? HoldLatch._hold_until_ms s1)) eqn:E; cbn [snd];
    by rewrite Ht, Ha, E.
Qed.

(** What one call does to the record of the raw input. *)
Lemma HoldLatch_update_raw s raw now :
  HoldLatch._raw_last (HoldLatch.update s raw now).2 = raw ∧
  HoldLatch._raw_last_change_ms (HoldLatch.update s raw now).2
  = (if eqb raw (HoldLatch._raw_last s) then HoldLatch._raw_last_change_ms s else now).
Proof. latch_cases s raw; done. Qed.

(** The stable value changes only to the level polled, and only when that
    level was already the last one seen and was first seen [min_stable_ms]
    ago. *)
Lemma HoldLatch_update_change s raw now :
  0 < HoldLatch.min_stable_ms s →
  HoldLatch._stable (HoldLatch.update s raw now).2 ≠ HoldLatch._stable s →
  HoldLatch._stable (HoldLatch.update s raw now).2 = raw ∧
  HoldLatch._stable s ≠ raw ∧
  HoldLatch._raw_last s = raw ∧
  HoldLatch.min_stable_ms s ≤ now - HoldLatch._raw_last_change_ms s.
Proof.
  latch_cases s raw; intros Hm Hch; bool_hyps; simpl in *;
    try done; try lia; repeat split; try done; try lia.
Qed.

Lemma HoldLatch_update_idle s now :
  HoldLatch._stable s = false →
  HoldLatch._stable (HoldLatch.update s false now).2 = false.
Proof. latch_cases s false; congruence. Qed.

(** The record of the raw input after any calls on a new latch: either no
    call has polled ON yet, or the calls end in a run of polls of the
    recorded level whose first one was made at the recorded time. *)
Lemma HoldLatch_run_raw_record m h calls :
  let s := (HoldLatch.run (HoldLatch.new m h) calls).2 in
  (HoldLatch._raw_last s = false ∧ HoldLatch._stable s = false) ∨
  ∃ pre steady,
    calls = pre ++ (HoldLatch._raw_last s, HoldLatch._raw_last_change_ms s) :: steady ∧
    Forall (λ c, c.1 = HoldLatch._raw_last s) steady.
Proof.
  induction calls as [|[raw now] calls IH] using rev_ind; [by left|].
  rewrite HoldLatch_run_snoc. cbn [snd].
  set (s := (HoldLatch.run (HoldLatch.new m h) calls).2) in *. cbn zeta in IH.
  destruct (HoldLatch_update_raw s raw now) as [Hr Hc]. rewrite Hr, Hc.
  destruct (eqb raw (HoldLatch._raw_last s)) eqn:E.
  - apply eqb_prop in E. subst raw.
    destruct IH as [[Hrl Hst]|(pre & steady & Hcalls & Hsteady)].
    + left. split; [done|]. rewrite Hrl. by apply HoldLatch_update_idle.
    + right. exists pre, (steady ++ [(HoldLatch._raw_last s, now)]).
      split; [by rewrite Hcalls at 1; rewrite <- app_assoc|].
      apply Forall_app. split; [done|]. by apply Forall_singleton.
  - right. exists calls, []. split; [done|]. apply Forall_nil_2.
Qed.

(** X2.  Debouncing is sound.  Take a latch built as
    [HoldLatch(min_stable_ms=m, hold_on_ms=h)] with [m > 0] and any calls
    made on it.  If the next call, polling [raw] at [now], changes the stable
    value, then the new stable value is [raw], and the calls made so far end
    in a run of polls that all read [raw], the first of them made at a clock
    reading [t0] with [now - t0 ≥ m]. *)
Theorem hold_latch_changes_only_after_steady_input m h calls raw now :
  0 < m →
  let s := (HoldLatch.run (HoldLatch.new m h) calls).2 in
  HoldLatch._stable (HoldLatch.update s raw now).2 ≠ HoldLatch._stable s →
  HoldLatch._stable (HoldLatch.update s raw now).2 = raw ∧
  ∃ pre t0 steady,
    calls = pre ++ (raw, t0) :: steady ∧
    Forall (λ c, c.1 = raw) steady ∧
    m ≤ now - t0.
Proof.
  intros Hm s Hch.
  assert (HoldLatch.min_stable_ms s = m) as Hmin.
  { unfold s. by rewrite HoldLatch_run_min_stable. }
  destruct (HoldLatch_update_change s raw now) as (Hnew & Hne & Hrl & Hle);
    [lia|done|].
  split; [done|].
  destruct (HoldLatch_run_raw_record m h calls)
    as [[Hrl' Hst']|(pre & steady & Hcalls & Hsteady)].
  - fold s in Hrl', Hst'. congruence.
  - fold s in Hcalls, Hsteady. rewrite Hrl in Hcalls, Hsteady.
    exists pre, (HoldLatch._raw_last_change_ms s), steady. split; [done|]. split; [done|]. lia.
Qed.

Lemma hold_latch_changes_only_after_steady_input_witness :
  HoldLatch._stable
    (HoldLatch.update (HoldLatch.run (HoldLatch.new 30 80) [(true, 0); (true, 10)]).2
       true 30).2 = true ∧
  ∃ pre t0 steady,
    [(true, 0); (true, 10)] = pre ++ (true, t0) :: steady ∧
    Forall (λ c : bool * Z, c.1 = true) steady ∧
    30 ≤ 30 - t0.
Proof.
  apply (hold_latch_changes_only_after_steady_input 30 80 [(true, 0); (true, 10)] true 30).
  - lia.
  - vm_compute. discriminate.
Defined.

(** A call that finds the polled level recorded for [min_stable_ms] makes
    it the stable value. *)
Lemma HoldLatch_update_accepts s v now :
  HoldLatch.min_stable_ms s ≤
    now - (if eqb v (HoldLatch._raw_last s) then HoldLatch._raw_last_change_ms s else now) →
  HoldLatch._stable (HoldLatch.update s v now).2 = v ∧
  (v = true → (HoldLatch.update s v now).1 = true) ∧
  (v = false → HoldLatch.hold_on_ms s ≤ 0 → (HoldLatch.update s v now).1 = false).
Proof.
  latch_cases s v; intros Hm; bool_hyps; simpl in *;
    repeat split; try done; try lia; intros; try done; try lia.
Qed.

Lemma HoldLatch_run_change_bound calls : ∀ s bound,
  HoldLatch._raw_last_change_ms s ≤ bound →
  Forall (λ c, c.2 ≤ bound) calls →
  HoldLatch._raw_last_change_ms (HoldLatch.run s calls).2 ≤ bound.
Proof.
  induction calls as [|[raw now] calls IH]; intros s bound Hs Hc; simpl; [done|].
  apply Forall_cons in Hc as [Hnow Hc]. simpl in Hnow.
  pose proof (HoldLatch_update_raw s raw now) as [_ Hch].
  destruct (HoldLatch.update s raw now) as [o s1]. simpl in *.
  specialize (IH s1 bound). destruct (HoldLatch.run s1 calls) as [os s2]. simpl in *.
  apply IH; [|done]. rewrite Hch. by destruct (eqb raw (HoldLatch._raw_last s)).
Qed.

Lemma HoldLatch_run_steady calls : ∀ s v,
  HoldLatch._raw_last s = v →
  Forall (λ c, c.1 = v) calls →
  HoldLatch._raw_last (HoldLatch.run s calls).2 = v ∧
  HoldLatch._raw_last_change_ms (HoldLatch.run s calls).2 = HoldLatch._raw_last_change_ms s.
Proof.
  induction calls as [|[raw now] calls IH]; intros s v Hs Hc; simpl; [done|].
  apply Forall_cons in Hc as [Hraw Hc]. simpl in Hraw. subst raw.
  pose proof (HoldLatch_update_raw s v now) as [Hr Hch].
  rewrite Hs, eqb_reflx in Hch.
  destruct (HoldLatch.update s v now) as [o s1]. simpl in *.
  specialize (IH s1 v Hr Hc). destruct (HoldLatch.run s1 calls) as [os s2]. simpl in *.
  by rewrite <- Hch.
Qed.

(** X3.  Debouncing is live.  On a latch built as
    [HoldLatch(min_stable_ms=m, hold_on_ms=h)], let any calls be made at clock
    readings up to [t0], then a call at [t0 ≥ 0] that polls the level [v],
    then further calls that all poll [v], the last of these calls being made
    at [now] with [now - t0 ≥ m].  Afterwards the stable value is [v]; the
    last call returns ON when [v] is ON, and OFF when [v] is OFF and no hold
    is configured. *)
Theorem hold_latch_accepts_steady_input m h earlier v t0 rest now :
  0 ≤ t0 →
  Forall (λ c, c.2 ≤ t0) earlier →
  Forall (λ c, c.1 = v) rest →
  last (((v, t0) :: rest).*2) = Some now →
  m ≤ now - t0 →
  let r := HoldLatch.run (HoldLatch.new m h) (earlier ++ (v, t0) :: rest) in
  HoldLatch._stable r.2 = v ∧
  (v = true → last r.1 = Some true) ∧
  (v = false → h ≤ 0 → last r.1 = Some false).
Proof.
  intros Ht0 Hearlier Hrest Hlast Hm r.
  set (s0 := (HoldLatch.run (HoldLatch.new m h) earlier).2).
  assert (HoldLatch._raw_last_change_ms s0 ≤ t0) as Hs0
    by (by apply HoldLatch_run_change_bound).
  assert (HoldLatch.min_stable_ms s0 = m) as Hmin0
    by (unfold s0; by rewrite HoldLatch_run_min_stable).
  assert (HoldLatch.hold_on_ms s0 = h) as Hh0
    by (unfold s0; by rewrite HoldLatch_run_config).
  destruct rest as [|c rest _] using rev_ind.
  - simpl in Hlast. injection Hlast as <-.
    unfold r. rewrite HoldLatch_run_snoc. cbn [fst snd]. fold s0.
    rewrite last_snoc.
    destruct (HoldLatch_update_accepts s0 v t0) as (H1 & H2 & H3).
    { rewrite Hmin0. destruct (eqb v (HoldLatch._raw_last s0)); lia. }
    split; [done|]. split; [intros Hv; by rewrite H2|].
    intros Hv Hh. rewrite H3; [done|done|lia].
  - apply Forall_app in Hrest as [Hrest Hc]. rewrite Forall_singleton in Hc.
    destruct c as [v' now']. simpl in Hc. subst v'.
    change ((v, t0) :: rest ++ [(v, now')]) with (((v, t0) :: rest) ++ [(v, now')]) in Hlast.
    rewrite fmap_app in Hlast. change ([(v, now')].*2) with [now'] in Hlast.
    rewrite last_snoc in Hlast. injection Hlast as ->.
    unfold r. rewrite app_comm_cons, app_assoc, HoldLatch_run_snoc. cbn [fst snd].
    rewrite last_snoc.
    set (s1 := (HoldLatch.run (HoldLatch.new m h) (earlier ++ (v, t0) :: rest)).2).
    assert (HoldLatch._raw_last s1 = v ∧ HoldLatch._raw_last_change_ms s1 ≤ t0 ∧
            HoldLatch.min_stable_ms s1 = m ∧ HoldLatch.hold_on_ms s1 = h)
      as (Hr1 & Hc1 & Hm1 & Hh1).
    { unfold s1. rewrite HoldLatch_run_app. cbn [snd]. fold s0.
      simpl HoldLatch.run.
      pose proof (HoldLatch_update_raw s0 v t0) as [Hr Hch].
      pose proof (HoldLatch_update_config s0 v t0) as [Hcf1 Hcf2].
      destruct (HoldLatch.update s0 v t0) as [o sa]. simpl in *.
      pose proof (HoldLatch_run_steady rest sa v Hr Hrest) as [Hr' Hch'].
      pose proof (HoldLatch_run_min_stable rest sa) as Hmm.
      pose proof (HoldLatch_run_config rest sa) as Hhh.
      destruct (HoldLatch.run sa rest) as [os sb]. simpl in *.
      split; [done|]. split; [|split; congruence].
      rewrite Hch', Hch. destruct (eqb v (HoldLatch._raw_last s0)); lia. }
    destruct (HoldLatch_update_accepts s1 v now) as (H1 & H2 & H3).
    { rewrite Hm1, Hr1, eqb_reflx. lia. }
    split; [done|]. split; [intros Hv; by rewrite H2|].
    intros Hv Hh. rewrite H3; [done|done|lia].
Qed.

Lemma hold_latch_accepts_steady_input_witness :
  let r := HoldLatch.run (HoldLatch.new 30 80)
             ([(false, 0)] ++ (true, 5) :: [(true, 20); (true, 35)]) in
  HoldLatch._stable r.2 = true ∧
  (true = true → last r.1 = Some true) ∧
  (true = false → 80 ≤ 0 → last r.1 = Some false).
Proof.
  apply (hold_latch_accepts_steady_input 30 80 [(false, 0)] true 5
           [(true, 20); (true, 35)] 35).
  - lia.
  - apply Forall_cons; split; [simpl; lia|]. apply Forall_nil_2.
  - repeat (apply Forall_cons; split; [reflexivity|]). apply Forall_nil_2.
  - reflexivity.
  - lia.
Defined.

(** ** FlashDetector: toggles *)

Lemma filter_none {A} (P : A → Prop) `{∀ x, Decision (P x)} (l : list A) :
  Forall (λ x, ¬ P x) l → filter P l = [].
Proof.
  induction 1 as [|x l Hx _ IH]; [done|]. by rewrite filter_cons_False.
Qed.

Lemma FlashDetector_update_min_toggles s v now :
  FlashDetector.min_toggles (FlashDetector.update s v now).2 = FlashDetector.min_toggles s.
Proof.
  unfold FlashDetector.update.
  by destruct (negb (eqb v (FlashDetector._last s))).
Qed.

Lemma FlashDetector_update_same s v now :
  FlashDetector._last s = v →
  (FlashDetector.update s v now).1 = true →
  FlashDetector.min_toggles s ≤ Z.of_nat (length (FlashDetector._toggle_times_ms s)).
Proof.
  intros <-. unfold FlashDetector.update. rewrite eqb_reflx. simpl.
  intros Hon%Z.leb_le.
  pose proof (length_filter (λ t, now - FlashDetector.window_ms s ≤ t)
                (FlashDetector._toggle_times_ms s)). lia.
Qed.

(** X4.  Flashing does not turn on without a toggle: whatever the state of
    a detector and whatever the two clock readings, if a call returns false
    and the next call is given the same value, the next call returns false
    too. *)
Theorem flash_detector_turns_on_only_by_toggle s v now1 now2 :
  let r1 := FlashDetector.update s v now1 in
  let r2 := FlashDetector.update r1.2 v now2 in
  r1.1 = false → r2.1 = false.
Proof.
  intros r1 r2 Hoff. destruct r2.1 eqn:Hon; [|done].
  apply FlashDetector_update_same in Hon; [|apply FlashDetector_update_last].
  unfold r1 in Hoff. rewrite FlashDetector_update_out in Hoff. fold r1 in Hoff.
  apply Z.leb_gt in Hoff. unfold r1 in Hon at 1.
  rewrite FlashDetector_update_min_toggles in Hon. lia.
Qed.

Lemma flash_detector_turns_on_only_by_toggle_witness :
  let r1 := FlashDetector.update (FlashDetector.new 1200 2) true 0 in
  let r2 := FlashDetector.update r1.2 true 100 in
  r2.1 = false.
Proof.
  apply (flash_detector_turns_on_only_by_toggle (FlashDetector.new 1200 2) true 0 100).
  reflexivity.
Defined.

Lemma FlashDetector_run_last calls : ∀ s,
  FlashDetector._last (FlashDetector.run s calls).2
  = default (FlashDetector._last s) (last calls.*1).
Proof.
  induction calls as [|[v t] calls IH] using rev_ind; intros s; [done|].
  rewrite FlashDetector_run_snoc, FlashDetector_update_last.
  rewrite fmap_app. change ([(v, t)].*1) with [v]. by rewrite last_snoc.
Qed.

Lemma FlashDetector_run_times calls : ∀ s t,
  t ∈ FlashDetector._toggle_times_ms (FlashDetector.run s calls).2 →
  t ∈ FlashDetector._toggle_times_ms s ∨ t ∈ calls.*2.
Proof.
  induction calls as [|[v now] calls IH] using rev_ind; intros s t; [by left|].
  rewrite FlashDetector_run_snoc, FlashDetector_update_times. cbn [fst snd].
  intros [_ Hin]%list_elem_of_filter. rewrite fmap_app.
  apply elem_of_app in Hin as [Hin|Hin].
  - destruct (IH s t Hin) as [?|?]; [by left|]. right. apply elem_of_app. by left.
  - right. apply elem_of_app. right.
    destruct (negb (eqb v _)); [done|]. by apply elem_of_nil in Hin.
Qed.

(** X5.  Flashing ends when the input has been quiet for longer than the
    window.  On a detector built as [FlashDetector(window_ms=w,
    min_toggles=n)], if every earlier call was made before [now - w], a call
    at [now] with the value last seen ([False] if there was no call) returns
    [n ≤ 0], that is false for any positive [n]. *)
Theorem flash_detector_off_after_quiet_window w n calls now :
  Forall (λ c, c.2 < now - w) calls →
  (FlashDetector.update (FlashDetector.run (FlashDetector.new w n) calls).2
     (default false (last calls.*1)) now).1
  = bool_decide (n ≤ 0).
Proof.
  intros Hold.
  set (s := (FlashDetector.run (FlashDetector.new w n) calls).2).
  rewrite FlashDetector_update_out, FlashDetector_update_times.
  assert (FlashDetector.min_toggles s = n) as -> by apply FlashDetector_run_min_toggles.
  assert (FlashDetector.window_ms s = w) as -> by apply FlashDetector_run_window.
  assert (FlashDetector._last s = default false (last calls.*1)) as ->
    by apply FlashDetector_run_last.
  rewrite eqb_reflx. simpl negb. cbv iota. rewrite app_nil_r.
  assert (filter (λ t, now - w ≤ t) (FlashDetector._toggle_times_ms s) = []) as ->.
  { apply filter_none. apply Forall_forall. intros t Ht.
    apply FlashDetector_run_times in Ht as [Ht|Ht]; [by apply elem_of_nil in Ht|].
    apply list_elem_of_fmap in Ht as (c & -> & Hc).
    rewrite Forall_forall in Hold. specialize (Hold c Hc). simpl in Hold. lia. }
  change (Z.of_nat (length (@nil Z))) with 0. destruct (Z.leb_spec n 0).
  - by rewrite bool_decide_eq_true_2.
  - by rewrite bool_decide_eq_false_2 by lia.
Qed.

Lemma flash_detector_off_after_quiet_window_witness :
  (FlashDetector.update
     (FlashDetector.run (FlashDetector.new 1200 2) [(true, 0); (false, 100)]).2
     (default false (last [(true, 0); (false, 100)].*1)) 1400).1
  = bool_decide (2 ≤ 0).
Proof.
  apply (flash_detector_off_after_quiet_window 1200 2 [(true, 0); (false, 100)] 1400).
  repeat (apply Forall_cons; split; [simpl; lia|]). apply Forall_nil_2.
Defined.

(** ** OutlierClamp on integer samples *)

Lemma Q_add_int (a b : Z) : f_add (inject_Z a) (inject_Z b) = inject_Z (a + b).
Proof.
  cbn [f_add QNum]. rewrite <- (inject_Z_Qred (a + b)). apply Qred_complete.
  unfold Qeq, inject_Z. simpl. lia.
Qed.

Lemma Q_sub_int (a b : Z) : f_sub (inject_Z a) (inject_Z b) = inject_Z (a - b).
Proof.
  cbn [f_sub QNum]. rewrite <- (inject_Z_Qred (a - b)). apply Qred_complete.
  unfold Qeq, inject_Z. simpl. lia.
Qed.

Lemma Q_neg_int (a : Z) : f_neg (inject_Z a) = inject_Z (- a).
Proof.
  cbn [f_neg QNum]. rewrite <- (inject_Z_Qred (- a)). apply Qred_complete.
  unfold Qeq, inject_Z. simpl. lia.
Qed.

Lemma Q_ltb_int (a b : Z) : f_ltb (inject_Z a) (inject_Z b) = (a <? b).
Proof.
  cbn [f_ltb QNum]. unfold Qcompare, inject_Z. simpl. rewrite !Z.mul_1_r.
  unfold Z.ltb. by destruct (a ?= b).
Qed.

(** X6.  On integers of magnitude at most 2^51, where every intermediate
    result is an integer below 2^53 and float arithmetic is exact, a clamp
    that has seen a sample limits the next one to within [max_step] of its
    last output: with step [m ≥ 0], last output [l] and sample [z] it returns
    [max (l - m) (min (l + m) z)], and that output, not the sample, is what
    it remembers. *)
Theorem outlier_clamp_limits_step (m l z : Z) :
  0 ≤ m ≤ 2 ^ 51 → - 2 ^ 51 ≤ l ≤ 2 ^ 51 → - 2 ^ 51 ≤ z ≤ 2 ^ 51 →
  OutlierClamp.update (OutlierClamp.mk (inject_Z m) true (inject_Z l)) (inject_Z z)
  = (inject_Z (Z.max (l - m) (Z.min (l + m) z)),
     OutlierClamp.mk (inject_Z m) true (inject_Z (Z.max (l - m) (Z.min (l + m) z)))).
Proof.
  intros Hm _ _. unfold OutlierClamp.update. cbn [OutlierClamp._has OutlierClamp._last
    OutlierClamp.max_step negb].
  rewrite Q_sub_int, Q_neg_int, !Q_ltb_int, Q_add_int, Q_sub_int.
  destruct (Z.ltb_spec m (z - l)); [|destruct (Z.ltb_spec (z - l) (- m))];
    repeat f_equal; lia.
Qed.

Lemma outlier_clamp_limits_step_witness :
  OutlierClamp.update (OutlierClamp.mk (inject_Z 120) true (inject_Z 0)) (inject_Z 1000)
  = (inject_Z (Z.max (0 - 120) (Z.min (0 + 120) 1000)),
     OutlierClamp.mk (inject_Z 120) true (inject_Z (Z.max (0 - 120) (Z.min (0 + 120) 1000)))).
Proof. apply (outlier_clamp_limits_step 120 0 1000); lia. Defined.

(** ** normalize_analog *)

(** X7.  [normalize_analog] raises only when a bound of the range does not
    convert to float.  Otherwise it returns 0.0 for an empty or reversed
    range ([max ≤ min]), whatever the sample and the invert flag; and in
    every case what it returns is 0.0, 1.0, or a value that compares
    strictly between them. *)
Theorem normalize_analog_range {F : Type} `{PyNum F} (raw : F) (amap : AnalogMap.t) :
  match f_of_int (AnalogMap.min amap), f_of_int (AnalogMap.max amap) with
  | Some lo, Some hi =>
      ∃ v, normalize_analog raw amap = Some v ∧
           (f_leb hi lo = true → v = f_lit 0) ∧
           (v = f_lit 0 ∨ v = f_lit 1 ∨
            (f_ltb (f_lit 0) v = true ∧ f_ltb v (f_lit 1) = true))
  | _, _ => normalize_analog raw amap = None
  end.
Proof.
  unfold normalize_analog.
  destruct (f_of_int (AnalogMap.min amap)) as [lo|]; [|done].
  destruct (f_of_int (AnalogMap.max amap)) as [hi|]; [|done]. cbn.
  destruct (f_leb hi lo) eqn:E.
  - eexists. split; [done|]. split; [done|]. by left.
  - eexists. split; [done|]. split; [done|].
    unfold py_max, py_min.
    repeat match goal with |- context [if f_ltb ?a ?b then _ else _] =>
      destruct (f_ltb a b) eqn:? end; auto.
Qed.

Lemma Q_ltb_lt (a b : Q) : f_ltb a b = true ↔ (a < b)%Q.
Proof.
  cbn [f_ltb QNum]. rewrite Qlt_alt. by destruct (a ?= b)%Q.
Qed.

Lemma Q_ltb_ge (a b : Q) : f_ltb a b = false ↔ (b <= a)%Q.
Proof.
  cbn [f_ltb QNum]. rewrite Qle_alt, <- (Qcompare_antisym a b).
  by destruct (a ?= b)%Q; simpl.
Qed.

Lemma Q_leb_le (a b : Q) : f_leb a b = true ↔ (a <= b)%Q.
Proof.
  cbn [f_leb QNum]. rewrite Qle_alt. by destruct (a ?= b)%Q.
Qed.

Lemma Q_clip_bounds lo hi x : (lo <= hi → lo <= Q_clip lo hi x <= hi)%Q.
Proof.
  intros Hle. unfold Q_clip.
  destruct (f_ltb x lo) eqn:E1.
  - destruct (f_ltb hi lo) eqn:E2.
    + apply Q_ltb_lt in E2. lra.
    + lra.
  - apply Q_ltb_ge in E1. destruct (f_ltb hi x) eqn:E2.
    + lra.
    + apply Q_ltb_ge in E2. lra.
Qed.

Lemma Q_clip_mono lo hi x y : (lo <= hi → x <= y → Q_clip lo hi x <= Q_clip lo hi y)%Q.
Proof.
  intros Hle Hxy. unfold Q_clip.
  destruct (f_ltb x lo) eqn:E1, (f_ltb y lo) eqn:E2;
    try apply Q_ltb_lt in E1; try apply Q_ltb_ge in E1;
    try apply Q_ltb_lt in E2; try apply Q_ltb_ge in E2;
    repeat match goal with |- context [if f_ltb ?a ?b then _ else _] =>
      let E := fresh in destruct (f_ltb a b) eqn:E;
      [apply Q_ltb_lt in E|apply Q_ltb_ge in E] end; lra.
Qed.

Lemma Q_clamp_unit_id (n : Q) : (0 <= n <= 1 → py_max (f_lit 0) (py_min (f_lit 1) n) == n)%Q.
Proof.
  intros [H0 H1]. unfold py_max, py_min. cbn [f_lit QNum].
  change (Qred 0) with 0%Q. change (Qred 1) with 1%Q.
  destruct (f_ltb n 1%Q) eqn:E1.
  - destruct (f_ltb 0%Q n) eqn:E0; [reflexivity|]. apply Q_ltb_ge in E0. lra.
  - apply Q_ltb_ge in E1. destruct (f_ltb 0%Q 1%Q) eqn:E0; [lra|].
    apply Q_ltb_ge in E0. lra.
Qed.

(** The value [normalize_analog] computes over the rationals, up to [==]. *)
Lemma normalize_analog_Q (raw : Q) (amap : AnalogMap.t) :
  AnalogMap.min amap < AnalogMap.max amap →
  ∃ v, normalize_analog raw amap = Some v ∧
       let lo := inject_Z (AnalogMap.min amap) in
       let hi := inject_Z (AnalogMap.max amap) in
       let n := ((Q_clip lo hi raw - lo) / (hi - lo))%Q in
       (v == if AnalogMap.invert amap then 1 - n else n)%Q ∧ (0 <= n <= 1)%Q.
Proof.
  intros Hlt. unfold normalize_analog. cbn [f_of_int QNum mbind option_bind].
  assert (inject_Z (AnalogMap.min amap) < inject_Z (AnalogMap.max amap))%Q as HltQ
    by (by rewrite <- Zlt_Qlt).
  destruct (f_leb _ _) eqn:E; [apply Q_leb_le in E; lra|].
  eexists. split; [done|]. cbn zeta.
  set (lo := inject_Z (AnalogMap.min amap)) in *.
  set (hi := inject_Z (AnalogMap.max amap)) in *.
  fold (Q_clip lo hi raw).
  pose proof (Q_clip_bounds lo hi raw ltac:(lra)) as [Hc0 Hc1].
  assert (0 <= (Q_clip lo hi raw - lo) / (hi - lo) <= 1)%Q as Hn.
  { split.
    - apply Qle_shift_div_l; lra.
    - apply Qle_shift_div_r; lra. }
  split; [|done].
  cbn [f_sub f_div f_lit QNum].
  destruct (AnalogMap.invert amap).
  - rewrite Q_clamp_unit_id; rewrite !Qred_correct; [reflexivity|]. lra.
  - rewrite Q_clamp_unit_id; rewrite !Qred_correct; [reflexivity|]. lra.
Qed.

Lemma normalize_analog_canonical (raw : Q) (amap : AnalogMap.t) (v : Q) :
  normalize_analog raw amap = Some v → Qred v = v.
Proof.
  unfold normalize_analog. cbn [f_of_int QNum mbind option_bind].
  destruct (f_leb _ _); intros [= <-]; [apply Qcanon.Qred_involutive|].
  unfold py_max, py_min. cbn [f_lit f_sub f_div QNum].
  repeat match goal with |- context [if ?b then _ else _] => destruct b end;
    apply Qcanon.Qred_involutive.
Qed.

Lemma Q_canonical_eq (p q : Q) : Qred p = p → Qred q = q → (p == q)%Q → p = q.
Proof. intros Hp Hq Heq. rewrite <- Hp, <- Hq. by apply Qred_complete. Qed.

(** X8.  In exact arithmetic, over a range with [min < max]:
    [normalize_analog] is monotone in the sample (rising, or falling when
    [invert] is set); every sample at or below [min] gives exactly 0 (1 when
    inverted) and every sample at or above [max] gives exactly 1 (0 when
    inverted). *)
Theorem normalize_analog_monotone_saturating (amap : AnalogMap.t) :
  AnalogMap.min amap < AnalogMap.max amap →
  (∀ raw1 raw2 : Q, (raw1 <= raw2)%Q →
     ∃ v1 v2, normalize_analog raw1 amap = Some v1 ∧
              normalize_analog raw2 amap = Some v2 ∧
              if AnalogMap.invert amap then (v2 <= v1)%Q else (v1 <= v2)%Q) ∧
  (∀ raw : Q, (raw <= inject_Z (AnalogMap.min amap))%Q →
     normalize_analog raw amap = Some (if AnalogMap.invert amap then 1 else 0)%Q) ∧
  (∀ raw : Q, (inject_Z (AnalogMap.max amap) <= raw)%Q →
     normalize_analog raw amap = Some (if AnalogMap.invert amap then 0 else 1)%Q).
Proof.
  intros Hlt.
  assert (inject_Z (AnalogMap.min amap) < inject_Z (AnalogMap.max amap))%Q as HltQ
    by (by rewrite <- Zlt_Qlt).
  split; [|split].
  - intros raw1 raw2 Hle.
    destruct (normalize_analog_Q raw1 amap Hlt) as (v1 & Hv1 & He1 & _).
    destruct (normalize_analog_Q raw2 amap Hlt) as (v2 & Hv2 & He2 & _).
    exists v1, v2. split; [done|]. split; [done|]. cbn zeta in He1, He2.
    set (lo := inject_Z (AnalogMap.min amap)) in *.
    set (hi := inject_Z (AnalogMap.max amap)) in *.
    pose proof (Q_clip_mono lo hi raw1 raw2 ltac:(lra) Hle) as Hc.
    assert ((Q_clip lo hi raw1 - lo) / (hi - lo) <= (Q_clip lo hi raw2 - lo) / (hi - lo))%Q
      as Hn.
    { unfold Qdiv. apply Qmult_le_compat_r; [lra|].
      apply Qlt_le_weak, Qinv_lt_0_compat. lra. }
    destruct (AnalogMap.invert amap); rewrite He1, He2; lra.
  - intros raw Hraw.
    destruct (normalize_analog_Q raw amap Hlt) as (v & Hv & He & _).
    rewrite Hv. f_equal. cbn zeta in He.
    set (lo := inject_Z (AnalogMap.min amap)) in *.
    set (hi := inject_Z (AnalogMap.max amap)) in *.
    assert (Q_clip lo hi raw == lo)%Q as Hc.
    { unfold Q_clip. destruct (f_ltb raw lo) eqn:E1.
      - destruct (f_ltb hi lo) eqn:E2; [apply Q_ltb_lt in E2; lra|reflexivity].
      - apply Q_ltb_ge in E1. destruct (f_ltb hi raw) eqn:E2;
          [apply Q_ltb_lt in E2|]; lra. }
    apply Q_canonical_eq;
      [by eapply normalize_analog_canonical|by destruct (AnalogMap.invert amap)|].
    revert He. destruct (AnalogMap.invert amap); intros ->;
      setoid_replace (Q_clip lo hi raw) with lo using relation Qeq by exact Hc;
      field; lra.
  - intros raw Hraw.
    destruct (normalize_analog_Q raw amap Hlt) as (v & Hv & He & _).
    rewrite Hv. f_equal. cbn zeta in He.
    set (lo := inject_Z (AnalogMap.min amap)) in *.
    set (hi := inject_Z (AnalogMap.max amap)) in *.
    assert (Q_clip lo hi raw == hi)%Q as Hc.
    { unfold Q_clip. destruct (f_ltb raw lo) eqn:E1.
      - apply Q_ltb_lt in E1. lra.
      - destruct (f_ltb hi raw) eqn:E2; [reflexivity|]. apply Q_ltb_ge in E2. lra. }
    apply Q_canonical_eq;
      [by eapply normalize_analog_canonical|by destruct (AnalogMap.invert amap)|].
    revert He. destruct (AnalogMap.invert amap); intros ->;
      setoid_replace (Q_clip lo hi raw) with hi using relation Qeq by exact Hc;
      field; lra.
Qed.

Lemma normalize_analog_monotone_saturating_witness :
  let amap := AnalogMap.mk "coolant_sender_raw" 100 900 true in
  (∀ raw1 raw2 : Q, (raw1 <= raw2)%Q →
     ∃ v1 v2, normalize_analog raw1 amap = Some v1 ∧
              normalize_analog raw2 amap = Some v2 ∧
              if AnalogMap.invert amap then (v2 <= v1)%Q else (v1 <= v2)%Q) ∧
  (∀ raw : Q, (raw <= inject_Z (AnalogMap.min amap))%Q →
     normalize_analog raw amap = Some (if AnalogMap.invert amap then 1 else 0)%Q) ∧
  (∀ raw : Q, (inject_Z (AnalogMap.max amap) <= raw)%Q →
     normalize_analog raw amap = Some (if AnalogMap.invert amap then 0 else 1)%Q).
Proof.
  apply (normalize_analog_monotone_saturating
           (AnalogMap.mk "coolant_sender_raw" 100 900 true)).
  simpl. lia.
Defined.

(** ** Choosing the serial port *)


Lemma str_le_trans a : ∀ b c, str_le a b → str_le b c → str_le a c.
Proof.
  unfold str_le, String.leb.
  induction a as [|x a IH]; intros [|y b] [|z c]; simpl; try done.
  unfold Ascii.compare.
  destruct (N.compare_spec (N_of_ascii x) (N_of_ascii y)) as [Hxy|Hxy|Hxy],
           (N.compare_spec (N_of_ascii y) (N_of_ascii z)) as [Hyz|Hyz|Hyz],
           (N.compare_spec (N_of_ascii x) (N_of_ascii z)) as [Hxz|Hxz|Hxz];
    try done; try lia.
  apply IH.
Qed.

Lemma str_le_transitive : Transitive str_le.
Proof. intros a b c. apply str_le_trans. Qed.

Lemma str_le_total : Total str_le.
Proof. intros a b. apply String.leb_total. Qed.

Lemma str_le_antisym : AntiSymm (=) str_le.
Proof. intros a b. apply String.leb_antisym. Qed.

#[local] Existing Instances str_le_transitive str_le_total str_le_antisym.

Lemma sorted_perm names names' : names ≡ₚ names' → sorted names = sorted names'.
Proof.
  intros Hp. apply (Sorted_unique str_le).
  - apply Sorted_merge_sort, _.
  - apply Sorted_merge_sort, _.
  - unfold sorted. by rewrite !merge_sort_Permutation.
Qed.

Lemma find_split {A} (f : A → bool) (l : list A) (x : A) :
  List.find f l = Some x →
  ∃ l1 l2, l = l1 ++ x :: l2 ∧ f x = true ∧ Forall (λ y, f y = false) l1.
Proof.
  induction l as [|y l IH]; simpl; [done|].
  destruct (f y) eqn:E.
  - intros [= ->]. exists [], l. by repeat split.
  - intros Hf. destruct (IH Hf) as (l1 & l2 & -> & Hx & Hl1).
    exists (y :: l1), l2. split; [done|]. split; [done|]. by apply Forall_cons.
Qed.

Lemma find_none_all {A} (f : A → bool) (l : list A) :
  List.find f l = None → Forall (λ y, f y = false) l.
Proof.
  induction l as [|y l IH]; simpl; [done|].
  destruct (f y) eqn:E; [done|]. intros Hf. apply Forall_cons. auto.
Qed.

(** The first match of a sorted list is the least match. *)
Lemma sorted_find_least names name :
  List.find is_arduino (sorted names) = Some name →
  name ∈ names ∧ is_arduino name = true ∧
  ∀ n, n ∈ names → is_arduino n = true → str_le name n.
Proof.
  intros Hf. destruct (find_split _ _ _ Hf) as (l1 & l2 & Hs & Hx & Hl1).
  assert (sorted names ≡ₚ names) as Hp by apply merge_sort_Permutation.
  split; [|split; [done|]].
  - rewrite <- Hp, Hs. apply elem_of_app. right. apply elem_of_cons. by left.
  - intros n Hn Han. rewrite <- Hp, Hs in Hn.
    pose proof (StronglySorted_merge_sort str_le names) as Hsorted.
    fold (sorted names) in Hsorted. rewrite Hs in Hsorted.
    apply StronglySorted_app_1_r in Hsorted.
    apply StronglySorted_inv in Hsorted as [_ Hall].
    apply elem_of_app in Hn as [Hn|Hn].
    + rewrite Forall_forall in Hl1. specialize (Hl1 n Hn). congruence.
    + apply elem_of_cons in Hn as [->|Hn].
      * destruct (total str_le name name); done.
      * rewrite Forall_forall in Hall. by apply Hall.
Qed.

Lemma sorted_head_least names name rest :
  sorted names = name :: rest →
  name ∈ names ∧ ∀ n, n ∈ names → str_le name n.
Proof.
  intros Hs.
  assert (sorted names ≡ₚ names) as Hp by apply merge_sort_Permutation.
  split.
  - rewrite <- Hp, Hs. apply elem_of_cons. by left.
  - intros n Hn. rewrite <- Hp, Hs in Hn.
    pose proof (StronglySorted_merge_sort str_le names) as Hsorted.
    fold (sorted names) in Hsorted. rewrite Hs in Hsorted.
    apply StronglySorted_inv in Hsorted as [_ Hall].
    apply elem_of_cons in Hn as [->|Hn].
    + destruct (total str_le name name); done.
    + rewrite Forall_forall in Hall. by apply Hall.
Qed.

(** X15.  [_pick_serial_port] returns the configured port whenever one is
    configured, whatever the by-id directory holds; with none configured it
    falls back to [/dev/ttyACM0] when the by-id directory does not exist,
    cannot be listed, or is empty. *)
Theorem pick_serial_port_configured_or_fallback SERIAL_PORT isdir listdir :
  (SERIAL_PORT ≠ "" → _pick_serial_port SERIAL_PORT isdir listdir = SERIAL_PORT) ∧
  (SERIAL_PORT = "" →
   isdir = false ∨ listdir = None ∨ listdir = Some [] →
   _pick_serial_port SERIAL_PORT isdir listdir = DEFAULT_FALLBACK_PORT).
Proof.
  split.
  - intros Hne. unfold _pick_serial_port.
    by rewrite (proj2 (String.eqb_neq SERIAL_PORT "") Hne).
  - intros -> Hdir. unfold _pick_serial_port. simpl.
    destruct isdir; [|done].
    destruct Hdir as [Hd|[->| ->]]; [done|done|done].
Qed.

(** X16.  With no port configured and the by-id directory listed, the
    choice does not depend on the order of the listing.  If some entry has
    [Arduino] or [arduino] in its name, the result is the path of the least
    such entry in string order; if none has and the directory is not empty,
    it is the path of the least entry. *)
Theorem pick_serial_port_least_arduino names names' :
  names ≡ₚ names' →
  _pick_serial_port "" true (Some names') = _pick_serial_port "" true (Some names) ∧
  ((∃ n, n ∈ names ∧ is_arduino n = true) →
   ∃ name, name ∈ names ∧ is_arduino name = true ∧
           (∀ n, n ∈ names → is_arduino n = true → str_le name n) ∧
           _pick_serial_port "" true (Some names) = path_join DEFAULT_BY_ID_GLOB name) ∧
  ((∀ n, n ∈ names → is_arduino n = false) → names ≠ [] →
   ∃ name, name ∈ names ∧ (∀ n, n ∈ names → str_le name n) ∧
           _pick_serial_port "" true (Some names) = path_join DEFAULT_BY_ID_GLOB name).
Proof.
  intros Hp. split; [|split].
  - unfold _pick_serial_port. simpl. by rewrite (sorted_perm names names').
  - intros (n & Hn & Han). unfold _pick_serial_port. simpl.
    destruct (List.find is_arduino (sorted names)) as [name|] eqn:Hf.
    + destruct (sorted_find_least names name Hf) as (H1 & H2 & H3).
      exists name. by repeat split.
    + apply find_none_all in Hf. rewrite Forall_forall in Hf.
      assert (n ∈ sorted names) as Hn' by (unfold sorted; by rewrite merge_sort_Permutation).
      specialize (Hf n Hn'). congruence.
  - intros Hnone Hne. unfold _pick_serial_port. simpl.
    destruct (List.find is_arduino (sorted names)) as [name|] eqn:Hf.
    + destruct (sorted_find_least names name Hf) as (H1 & H2 & _).
      specialize (Hnone name H1). congruence.
    + destruct (sorted names) as [|name rest] eqn:Hs.
      * exfalso. apply Hne. apply Permutation_nil_r.
        rewrite <- Hs. unfold sorted. by rewrite merge_sort_Permutation.
      * destruct (sorted_head_least names name rest Hs) as [H1 H2]. by exists name.
Qed.

Lemma pick_serial_port_least_arduino_witness :
  let names := ["usb-FTDI_FT232R-if00"; "usb-Arduino_Uno_B-if00"; "usb-Arduino_Uno_A-if00"] in
  let names' := ["usb-Arduino_Uno_B-if00"; "usb-FTDI_FT232R-if00"; "usb-Arduino_Uno_A-if00"] in
  _pick_serial_port "" true (Some names') = _pick_serial_port "" true (Some names) ∧
  ((∃ n, n ∈ names ∧ is_arduino n = true) →
   ∃ name, name ∈ names ∧ is_arduino name = true ∧
           (∀ n, n ∈ names → is_arduino n = true → str_le name n) ∧
           _pick_serial_port "" true (Some names) = path_join DEFAULT_BY_ID_GLOB name) ∧
  ((∀ n, n ∈ names → is_arduino n = false) → names ≠ [] →
   ∃ name, name ∈ names ∧ (∀ n, n ∈ names → str_le name n) ∧
           _pick_serial_port "" true (Some names) = path_join DEFAULT_BY_ID_GLOB name).
Proof.
  apply (pick_serial_port_least_arduino
           ["usb-FTDI_FT232R-if00"; "usb-Arduino_Uno_B-if00"; "usb-Arduino_Uno_A-if00"]
           ["usb-Arduino_Uno_B-if00"; "usb-FTDI_FT232R-if00"; "usb-Arduino_Uno_A-if00"]).
  apply perm_swap.
Defined.


(** ** The serial task *)

Lemma serial_run_snoc_gen {F : Type} `{PyNum F} ios : ∀ (t : SerialTask F) io,
  serial_run t (ios ++ [io]) = serial_run t ios ≫= λ t', serial_step t' io.
Proof.
  induction ios as [|io' ios IH]; intros t io; simpl.
  - by destruct (serial_step t io).
  - destruct (serial_step t io') as [t1|]; simpl; [apply IH|done].
Qed.



Section SerialTask_facts.
Context {F : Type} `{PyNum F}.
Implicit Types (t : SerialTask F) (io : serial_io F).

Lemma put_drop_oldest_last (objs : list (pyval F)) obj :
  put_drop_oldest (drop (length objs - QUEUE_MAXSIZE) objs) obj
  = drop (length (objs ++ [obj]) - QUEUE_MAXSIZE) (objs ++ [obj]).
Proof.
  unfold put_drop_oldest. rewrite length_drop, length_app. simpl.
  destruct (Nat.ltb_spec (length objs - (length objs - QUEUE_MAXSIZE)) QUEUE_MAXSIZE)
    as [Hlt|Hge].
  - assert (length objs < QUEUE_MAXSIZE)%nat by (unfold QUEUE_MAXSIZE in *; lia).
    replace (length objs - QUEUE_MAXSIZE)%nat with 0%nat by lia.
    replace (length objs + 1 - QUEUE_MAXSIZE)%nat with 0%nat by lia. done.
  - assert (QUEUE_MAXSIZE ≤ length objs)%nat by (unfold QUEUE_MAXSIZE in *; lia).
    replace (length objs + 1 - QUEUE_MAXSIZE)%nat
      with (S (length objs - QUEUE_MAXSIZE)) by lia.
    rewrite drop_app_le by (unfold QUEUE_MAXSIZE in *; lia).
    f_equal. generalize (length objs - QUEUE_MAXSIZE)%nat. intros n.
    clear. revert n. induction objs as [|x objs IH]; intros [|n]; simpl; auto.
Qed.

Lemma json_objects_snoc ios io :
  json_objects (ios ++ [io])
  = json_objects ios ++ match io with
                        | ReadJson _ (PDict m) => [PDict m]
                        | _ => []
                        end.
Proof.
  unfold json_objects. rewrite omap_app. f_equal.
  destruct io as [| | | | |now obj]; try done. by destruct obj.
Qed.

Lemma frames_ingested_snoc b ios io :
  frames_ingested b (ios ++ [io])
  = match io with
    | ReadJson now obj => serial_reader_line (frames_ingested b ios) now obj
    | _ => frames_ingested b ios
    end.
Proof. unfold frames_ingested. by rewrite fold_left_app. Qed.

(** X17.  Whatever the serial task has read, the debug queue holds the JSON
    objects among the parsed lines, in order, and of these the last 200 at
    most: a full queue drops its oldest entry.  A parsed line that is not a
    JSON object is never queued.  The builder is as [update_from_uno] on
    every accepted frame leaves it. *)
Theorem serial_queue_keeps_latest_objects (b : VehicleStateBuilder F) ios t :
  serial_run (serial_task_start b) ios = Some t →
  task_queue t = drop (length (json_objects ios) - QUEUE_MAXSIZE) (json_objects ios) ∧
  (length (task_queue t) ≤ QUEUE_MAXSIZE)%nat ∧
  task_builder t = frames_ingested b ios.
Proof.
  revert t. induction ios as [|io ios IH] using rev_ind; intros t.
  - intros [= <-]. by repeat split; simpl; try lia.
  - rewrite serial_run_snoc_gen.
    destruct (serial_run (serial_task_start b) ios) as [t0|]; [|done]. simpl.
    destruct (IH t0 eq_refl) as (Hq & Hlen & Hb).
    rewrite json_objects_snoc, frames_ingested_snoc.
    assert (∀ t', task_queue t' = task_queue t0 → task_builder t' = task_builder t0 →
                  task_queue t' = drop (length (json_objects ios ++ []) - QUEUE_MAXSIZE)
                                       (json_objects ios ++ []) ∧
                  (length (task_queue t') ≤ QUEUE_MAXSIZE)%nat ∧
                  task_builder t' = frames_ingested b ios) as Hsame.
    { intros t' -> ->. by rewrite app_nil_r. }
    unfold serial_step.
    destruct io as [| | | | |now obj], (task_port_open t0); try done;
      try (intros [= <-]; by apply Hsame).
    destruct obj; try (intros [= <-]; simpl;
      destruct (Hsame t0 eq_refl eq_refl) as (? & ? & ?); by repeat split).
    intros [= <-]. cbn [task_queue task_builder]. rewrite Hq, Hb.
    rewrite put_drop_oldest_last. split; [done|]. split; [|done].
    rewrite length_drop. unfold QUEUE_MAXSIZE. lia.
Qed.

End SerialTask_facts.

Lemma serial_queue_keeps_latest_objects_witness :
  let ios := [OpenRaises; OpenReturns; ReadJson 10 (PDict (uno_frame (PInt 1) true 0));
              ReadJunk; ReadJson 20 (PInt 42); OpenReturns;
              ReadJson 30 (PDict (uno_frame (PInt 2) false 7)); ReadTimeout] in
  let t := default (serial_task_start builder_new)
             (serial_run (serial_task_start builder_new) ios) in
  task_queue t = drop (length (json_objects ios) - QUEUE_MAXSIZE) (json_objects ios) ∧
  (length (task_queue t) ≤ QUEUE_MAXSIZE)%nat ∧
  task_builder t = frames_ingested builder_new ios.
Proof.
  apply (serial_queue_keeps_latest_objects (F:=Q) builder_new).
  vm_compute. reflexivity.
Defined.



(** ** More on the hub *)

Section Hub_more_facts.
Context {F : Type} `{PyNum F}.
Variable STALE_AFTER_MS : Z.
Implicit Types (h : Hub F) (e : event F) (b : VehicleStateBuilder F).

Lemma build_digital_field b ts snap path pin :
  (path, pin) ∈ hub_digital_fields →
  (build STALE_AFTER_MS b ts).1 = Some snap →
  ∃ inputs,
    as_dict (py_or (dict_get (last_frame b) "inputs" PNone) (PDict ∅)) = Some inputs ∧
    at_path path snap = Some (PBool (d inputs pin)).
Proof.
  intros Hin. unfold build.
  destruct (build_body STALE_AFTER_MS b ts (analog_state b)) as [r st'] eqn:Hb.
  simpl. intros ->.
  apply build_body_inv in Hb
    as (uptime & heartbeat & inputs & analog & a0 & a1 & a2 & a3 & a4 & a5
        & st1 & st2 & st3 & st4 & st5 & _ & _ & Hi & _ & _ & _ & _ & _ & _ & _ & ->).
  exists inputs. split; [done|].
  unfold hub_digital_fields in Hin.
  repeat (apply elem_of_cons in Hin as [[= -> ->]|Hin]); [..|by apply elem_of_nil in Hin];
    simpl; unfold py_dict; dict_lookup; simpl; by dict_lookup.
Qed.

Lemma build_ts_ms b ts snap :
  (build STALE_AFTER_MS b ts).1 = Some snap → at_path ["ts_ms"] snap = Some (PInt ts).
Proof.
  unfold build.
  destruct (build_body STALE_AFTER_MS b ts (analog_state b)) as [r st'] eqn:Hb.
  simpl. intros ->.
  apply build_body_inv in Hb
    as (uptime & heartbeat & inputs & analog & a0 & a1 & a2 & a3 & a4 & a5
        & st1 & st2 & st3 & st4 & st5 & _ & _ & _ & _ & _ & _ & _ & _ & _ & _ & ->).
  simpl; unfold py_dict; by dict_lookup.
Qed.

(** X19.  The digital fields of the hub have no memory: in a snapshot built
    after a frame has been accepted, each of the ten digital fields is the
    truth value of its pin in the [inputs] of that frame, [False] when the
    pin is missing; earlier frames play no part.  A frame whose [inputs] is
    missing, null or empty so turns all ten fields off. *)
Theorem hub_digital_fields_follow_last_frame b now frame ts snap path pin :
  (path, pin) ∈ hub_digital_fields →
  (build STALE_AFTER_MS (update_from_uno b now frame) ts).1 = Some snap →
  ∃ inputs,
    as_dict (py_or (dict_get frame "inputs" PNone) (PDict ∅)) = Some inputs ∧
    at_path path snap = Some (PBool (truthy (dict_get inputs pin (PBool false)))) ∧
    (truthy (dict_get frame "inputs" PNone) = false →
     at_path path snap = Some (PBool false)).
Proof.
  intros Hin Hb.
  destruct (build_digital_field _ ts snap path pin Hin Hb) as (inputs & Hi & Hp).
  simpl in Hi. exists inputs. split; [done|]. split; [done|].
  intros Hfalsy. rewrite Hp. unfold py_or in Hi. rewrite Hfalsy in Hi.
  injection Hi as <-. done.
Qed.

(** ** The pump *)

Lemma state_pump_dead h ts : pump_running h = false → state_pump STALE_AFTER_MS h ts = h.
Proof. unfold state_pump. by intros ->. Qed.

Lemma step_pump_dead h e :
  pump_running h = false →
  pump_running (step STALE_AFTER_MS h e) = false ∧
  latest_state (hub (step STALE_AFTER_MS h e)) = latest_state (hub h).
Proof.
  intros Hd. destruct e as [now obj|ts|ts|c|c]; simpl; try done.
  - by rewrite state_pump_dead.
  - unfold ws_handler_push. by case_bool_decide.
Qed.

Lemma run_pump_dead events : ∀ h,
  pump_running h = false →
  pump_running (run STALE_AFTER_MS h events) = false ∧
  latest_state (hub (run STALE_AFTER_MS h events)) = latest_state (hub h).
Proof.
  induction events as [|e events IH]; intros h Hd; simpl; [done|].
  destruct (step_pump_dead h e Hd) as [Hd' Hs].
  destruct (IH _ Hd') as [Hd'' Hs']. split; [done|]. congruence.
Qed.

(** X20.  [state_pump] has no handler: a [build] that raises ends it for
    good.  A last frame whose [uptime_ms] is truthy and that [int] rejects
    makes [build] raise.  Once a pump tick has met a [build] that raises,
    whatever happens later (good frames and further ticks included) the slot
    keeps the snapshot it held before that tick, and every push to a
    connected client sends that same snapshot. *)
Theorem hub_slot_frozen_after_build_raises :
  (∀ b ts,
     py_int (py_or (dict_get (last_frame b) "uptime_ms" (PInt 0)) (PInt 0)) = None →
     (build STALE_AFTER_MS b ts).1 = None) ∧
  (∀ h ts events,
     pump_running h = true →
     (build STALE_AFTER_MS (builder (hub h)) ts).1 = None →
     let h' := run STALE_AFTER_MS (step STALE_AFTER_MS h (PumpTick ts)) events in
     pump_running h' = false ∧
     latest_state (hub h') = latest_state (hub h) ∧
     ∀ c, c ∈ clients h' →
          sent_to (step STALE_AFTER_MS h' (WsPush c)) c
          = sent_to h' c ++ [latest_state (hub h)]).
Proof.
  split.
  - intros b ts Hup. unfold build, build_body, mbind, SE_bind, lift. by rewrite Hup.
  - intros h ts events Hrun Hraise h'.
    assert (pump_running (step STALE_AFTER_MS h (PumpTick ts)) = false ∧
            latest_state (hub (step STALE_AFTER_MS h (PumpTick ts))) = latest_state (hub h))
      as [Hd Hs].
    { simpl. unfold state_pump. rewrite Hrun.
      destruct (build STALE_AFTER_MS (builder (hub h)) ts) as [[snap|] b']; simpl in *; done. }
    destruct (run_pump_dead events _ Hd) as [Hd' Hs']. fold h' in Hd', Hs'.
    split; [done|]. split; [congruence|].
    intros c Hc. simpl. unfold ws_handler_push. rewrite bool_decide_eq_true_2 by done.
    rewrite sent_to_snoc, bool_decide_eq_true_2 by done. congruence.
Qed.

Lemma step_pump_inv h e :
  match e with
  | SerialLine _ (PDict frame) => accepted (PDict frame) = true → plain_frame frame
  | _ => True
  end →
  pump_inv h → pump_inv (step STALE_AFTER_MS h e).
Proof.
  intros He (Hrun & Hplain & Hcells). destruct e as [now obj|ts|ts|c|c]; simpl.
  - split; [done|]. simpl. unfold serial_reader_line. destruct obj; try done.
    destruct (accepted (PDict m)); [|done]. simpl. split; [by apply He|done].
  - unfold state_pump. rewrite Hrun.
    destruct (build_returns STALE_AFTER_MS (builder (hub h)) ts Hplain Hcells)
      as (snap & Hsnap & Hcells').
    pose proof (build_last_frame STALE_AFTER_MS (builder (hub h)) ts) as Hlf.
    destruct (build STALE_AFTER_MS (builder (hub h)) ts) as [r b']. simpl in *. subst r.
    split; [done|]. simpl. by rewrite Hlf.
  - done.
  - unfold ws_handler_push. by case_bool_decide.
  - done.
Qed.

(** X21.  As long as every accepted frame is plain (int [uptime_ms] and
    [heartbeat], object [inputs] and [analog], int samples that convert to
    float), the pump stays alive: after any such trace it is running, and a
    tick at clock reading [ts] fills the slot with a complete snapshot whose
    [ts_ms] is [ts]. *)
Theorem hub_pump_survives_plain_frames ts0 events :
  plain_traffic events →
  ∃ h0, main STALE_AFTER_MS ts0 = Some h0 ∧
        let h := run STALE_AFTER_MS h0 events in
        pump_running h = true ∧
        ∀ ts, let h' := step STALE_AFTER_MS h (PumpTick ts) in
              pump_running h' = true ∧
              at_path ["ts_ms"] (latest_state (hub h')) = Some (PInt ts) ∧
              snapshot_complete hub_channels (latest_state (hub h')) = true.
Proof.
  intros Hev. destruct (main_returns STALE_AFTER_MS ts0) as (snap & Hmain & Hst).
  eexists. split; [exact Hmain|].
  pose proof (main_invariants STALE_AFTER_MS ts0 _ Hmain) as [Hinv _].
  apply (run_hub_inv STALE_AFTER_MS events) in Hinv.
  set (h0 := mk_hub (mk_hub_state builder_new snap) true 0 ∅ []) in *.
  assert (pump_inv (run STALE_AFTER_MS h0 events)) as Hp.
  { assert (pump_inv h0) as Hp0.
    { split; [done|]. split.
      - repeat split; intros v; simpl; by rewrite lookup_empty.
      - intros k n. simpl. by rewrite lookup_empty. }
    clear Hinv. revert Hp0. generalize h0. clear h0 Hmain Hst.
    induction Hev as [|e events He _ IH]; intros h Hp; simpl; [done|].
    apply IH. by apply step_pump_inv. }
  cbn zeta. set (h := run STALE_AFTER_MS h0 events) in *.
  split; [apply Hp|]. intros ts.
  destruct Hp as (Hrun & Hplain & Hcells).
  pose proof (step_hub_inv STALE_AFTER_MS h (PumpTick ts) Hinv) as (_ & Hslot & _).
  split; [|split; [|done]].
  - simpl. unfold state_pump. rewrite Hrun.
    destruct (build_returns STALE_AFTER_MS (builder (hub h)) ts Hplain Hcells)
      as (snap' & Hsnap' & _).
    destruct (build STALE_AFTER_MS (builder (hub h)) ts) as [r b']. simpl in *. by subst r.
  - simpl. unfold state_pump. rewrite Hrun.
    destruct (build_returns STALE_AFTER_MS (builder (hub h)) ts Hplain Hcells)
      as (snap' & Hsnap' & _).
    pose proof (build_ts_ms (builder (hub h)) ts snap' Hsnap') as Hts.
    destruct (build STALE_AFTER_MS (builder (hub h)) ts) as [r b']. simpl in *. by subst r.
Qed.



(** ** The clients *)

Lemma hello_not_snapshot ts (m : pyval F) :
  snapshot_complete hub_channels m = true → m ≠ hello ts.
Proof.
  intros Hc ->. unfold snapshot_complete, hello, py_dict, has in Hc.
  revert Hc. dict_lookup. simpl. done.
Qed.

Lemma step_client_inv h e :
  hub_inv h → client_inv h → client_inv (step STALE_AFTER_MS h e).
Proof.
  intros (_ & Hslot & _) Hc. destruct e as [now obj|ts|ts|c|c]; simpl.
  - done.
  - unfold state_pump. destruct (pump_running h); [|done].
    by destruct (build STALE_AFTER_MS (builder (hub h)) ts) as [[snap|] b'].
  - unfold ws_handler_hello. intros c'.
    rewrite (sent_to_snoc h c' (connections h)).
    specialize (Hc c') as (Hc0 & Hc1). simpl. split.
    + intros Hle. destruct (Hc0 ltac:(lia)) as [Hnin Hnil].
      rewrite Hnil, bool_decide_eq_false_2 by lia. split; [|done].
      intros [Hin|Hin]%elem_of_union; [|done].
      apply elem_of_singleton in Hin. lia.
    + intros Hlt. case_bool_decide as Heq.
      * subst c'. destruct (Hc0 ltac:(lia)) as [_ ->]. by exists ts, [].
      * rewrite app_nil_r. apply Hc1. lia.
  - unfold ws_handler_push. case_bool_decide as Hin; [|done].
    intros c'. rewrite (sent_to_snoc h c' c). specialize (Hc c') as (Hc0 & Hc1).
    simpl. split.
    + intros Hle. destruct (Hc0 Hle) as [Hnin Hnil]. split; [done|].
      rewrite Hnil. case_bool_decide; [by subst|done].
    + intros Hlt. destruct (Hc1 Hlt) as (ts & rest & Hs & Hrest). rewrite Hs.
      case_bool_decide; [|rewrite app_nil_r; by exists ts, rest].
      exists ts, (rest ++ [latest_state (hub h)]). split; [done|].
      apply Forall_app. split; [done|]. by apply Forall_singleton.
  - intros c'. specialize (Hc c') as (Hc0 & Hc1). simpl. split; [|done].
    intros Hle. destruct (Hc0 Hle) as [Hnin Hnil]. split; [|done].
    by intros [Hin _]%elem_of_difference.
Qed.

Lemma run_client_inv events : ∀ h,
  hub_inv h → client_inv h → client_inv (run STALE_AFTER_MS h events).
Proof.
  induction events as [|e events IH]; intros h Hinv Hc; simpl; [done|].
  apply IH; [by apply step_hub_inv|by apply step_client_inv].
Qed.

Lemma step_gone h e c :
  (c < connections h)%nat → c ∉ clients h →
  (c < connections (step STALE_AFTER_MS h e))%nat ∧
  (c ∉ clients (step STALE_AFTER_MS h e)) ∧
  sent_to (step STALE_AFTER_MS h e) c = sent_to h c.
Proof.
  intros Hlt Hnin. destruct e as [now obj|ts|ts|c'|c']; simpl.
  - done.
  - unfold state_pump. destruct (pump_running h); [|done].
    by destruct (build STALE_AFTER_MS (builder (hub h)) ts) as [[snap|] b'].
  - unfold ws_handler_hello. rewrite (sent_to_snoc h c (connections h)). simpl.
    split; [lia|]. split.
    + intros [Hin|Hin]%elem_of_union; [|done]. apply elem_of_singleton in Hin. lia.
    + rewrite bool_decide_eq_false_2 by lia. by rewrite app_nil_r.
  - unfold ws_handler_push. case_bool_decide as Hin; [|done].
    rewrite (sent_to_snoc h c c'). simpl. split; [done|]. split; [done|].
    rewrite bool_decide_eq_false_2; [by rewrite app_nil_r|]. by intros ->.
  - split; [done|]. split; [|done]. by intros [Hin _]%elem_of_difference.
Qed.

Lemma run_gone events : ∀ h c,
  (c < connections h)%nat → c ∉ clients h →
  sent_to (run STALE_AFTER_MS h events) c = sent_to h c.
Proof.
  induction events as [|e events IH]; intros h c Hlt Hnin; simpl; [done|].
  destruct (step_gone h e c Hlt Hnin) as (Hlt' & Hnin' & Hs).
  by rewrite IH.
Qed.

(** X22.  What a client is sent, whatever happens.  A connection not yet
    accepted has been sent nothing.  Every accepted connection has been sent
    exactly one hello, first, and after it only complete snapshots.  A client
    whose handler has ended (a send failed) is sent nothing more. *)
Theorem hub_client_sees_hello_then_snapshots ts0 events :
  ∃ h0, main STALE_AFTER_MS ts0 = Some h0 ∧
        let h := run STALE_AFTER_MS h0 events in
        ∀ c,
          ((connections h ≤ c)%nat → (c ∉ clients h) ∧ sent_to h c = []) ∧
          ((c < connections h)%nat →
           (∃ ts rest,
              sent_to h c = hello ts :: rest ∧
              Forall (λ m, snapshot_complete hub_channels m = true ∧ ¬ is_hello m) rest) ∧
           (c ∉ clients h →
            ∀ later, sent_to (run STALE_AFTER_MS h later) c = sent_to h c)).
Proof.
  destruct (main_returns STALE_AFTER_MS ts0) as (snap & Hmain & Hst).
  eexists. split; [exact Hmain|].
  pose proof (main_invariants STALE_AFTER_MS ts0 _ Hmain) as [Hinv _].
  pose proof (run_client_inv events _ Hinv) as Hc.
  cbn zeta. intros c. destruct (Hc ltac:(by intros c'; split; [|simpl; lia]) c) as [Hc0 Hc1].
  split; [done|]. intros Hlt. split.
  - destruct (Hc1 Hlt) as (ts & rest & Hs & Hrest). exists ts, rest. split; [done|].
    eapply Forall_impl; [exact Hrest|]. intros m Hm. split; [done|].
    intros [ts' ->]. by eapply hello_not_snapshot.
  - intros Hnin later. by apply run_gone.
Qed.

End Hub_more_facts.

Lemma hub_digital_fields_follow_last_frame_witness :
  let b := update_from_uno (builder_new (F:=Q)) 0 (uno_frame (PInt 1) true 0) in
  let frame := analog_frame [("A0", PInt 512)] in
  let snap := default PNone (build 750 (update_from_uno b 100 frame) 110).1 in
  ∃ inputs,
    as_dict (py_or (dict_get frame "inputs" PNone) (PDict ∅)) = Some inputs ∧
    at_path ["indicators"; "left"] snap
      = Some (PBool (truthy (dict_get inputs "D2" (PBool false)))) ∧
    (truthy (dict_get frame "inputs" PNone) = false →
     at_path ["indicators"; "left"] snap = Some (PBool false)).
Proof.
  intros b frame snap.
  apply (hub_digital_fields_follow_last_frame 750 b 100 frame 110 snap
           ["indicators"; "left"] "D2").
  - apply elem_of_cons. by left.
  - vm_compute. reflexivity.
Defined.

Lemma hub_pump_survives_plain_frames_witness :
  let events := [SerialLine 10 (PDict (uno_frame (PInt 1) true 100)); PumpTick 20;
                 WsConnect 25; WsPush 0%nat] in
  ∃ h0, main (F:=Q) 750 0 = Some h0 ∧
        let h := run 750 h0 events in
        pump_running h = true ∧
        ∀ ts, let h' := step 750 h (PumpTick ts) in
              pump_running h' = true ∧
              at_path ["ts_ms"] (latest_state (hub h')) = Some (PInt ts) ∧
              snapshot_complete hub_channels (latest_state (hub h')) = true.
Proof.
  apply (hub_pump_survives_plain_frames (F:=Q) 750 0
           [SerialLine 10 (PDict (uno_frame (PInt 1) true 100)); PumpTick 20;
            WsConnect 25; WsPush 0%nat]).
  apply Forall_cons. split; [intros _; apply uno_frame_plain|].
  repeat (apply Forall_cons; split; [exact I|]). apply Forall_nil_2.
Defined.


(** ** More on the transformer *)

Section Transformer_more_facts.
Context {F : Type} `{PyNum F}.
Variable dict_of_list : list (pyval F) → option (gmap string (pyval F)).
Implicit Types (tr : VehicleStateTransformer F).

Lemma keeps_stabilisers_refl tr : keeps_stabilisers tr tr.
Proof. by repeat split. Qed.

Lemma keeps_stabilisers_trans tr1 tr2 tr3 :
  keeps_stabilisers tr1 tr2 → keeps_stabilisers tr2 tr3 → keeps_stabilisers tr1 tr3.
Proof.
  intros (?&?&?&?) (?&?&?&?). split; [congruence|]. repeat split; auto.
Qed.

Lemma is_Some_insert_keep {A} (m : gmap string A) k k' v :
  is_Some (m !! k') → is_Some (<[k := v]> m !! k').
Proof.
  intros Hs. destruct (decide (k = k')) as [->|Hne].
  - rewrite lookup_insert_eq. by eexists.
  - by rewrite lookup_insert_ne.
Qed.

Lemma digital_step_keeps raw_inputs now acc entry tr r tr' :
  digital_step raw_inputs now acc entry tr = (r, tr') → keeps_stabilisers tr tr'.
Proof.
  destruct entry as [d_pin name], tr as [pm0 ds fl cl em to lf].
  unfold digital_step, keeps_stabilisers. se_unfold. cbn.
  intros Hd. repeat (case_match; simplify_eq; cbn in * );
    repeat split; auto using is_Some_insert_keep.
Qed.

Lemma analog_step_keeps raw_analog out entry tr r tr' :
  analog_step raw_analog out entry tr = (r, tr') → keeps_stabilisers tr tr'.
Proof.
  destruct entry as [a_pin amap], tr as [pm0 ds fl cl em to lf].
  unfold analog_step, keeps_stabilisers. se_unfold. cbn.
  intros Hd. repeat (case_match; simplify_eq; cbn in * );
    repeat split; auto using is_Some_insert_keep.
Qed.

Lemma digital_loop_keeps raw_inputs now l acc tr r tr' :
  for_each (digital_step raw_inputs now) acc l tr = (r, tr') → keeps_stabilisers tr tr'.
Proof.
  apply (for_each_rel _ keeps_stabilisers).
  - apply keeps_stabilisers_refl.
  - apply keeps_stabilisers_trans.
  - intros ?????. apply digital_step_keeps.
Qed.

Lemma analog_loop_keeps raw_analog l acc tr r tr' :
  for_each (analog_step raw_analog) acc l tr = (r, tr') → keeps_stabilisers tr tr'.
Proof.
  apply (for_each_rel _ keeps_stabilisers).
  - apply keeps_stabilisers_refl.
  - apply keeps_stabilisers_trans.
  - intros ?????. apply analog_step_keeps.
Qed.

Lemma transform_keeps now frame tr :
  keeps_stabilisers tr (transform dict_of_list now frame tr).2.
Proof.
  rewrite transform_unfold. cbn zeta.
  set (tr0 := mk_transformer _ _ _ _ _ _ now).
  assert (keeps_stabilisers tr tr0) as H0 by (by repeat split).
  destruct (dict_copy _ _) as [raw_inputs|]; [|done].
  destruct (dict_copy _ _) as [raw_analog|]; [|done].
  destruct (for_each (digital_step raw_inputs now) _ _ _) as [[dig|] tr1] eqn:Hd;
    apply digital_loop_keeps in Hd; [|by eapply keeps_stabilisers_trans].
  destruct (for_each (analog_step raw_analog) _ _ _) as [[analog_out|] tr2] eqn:Ha;
    apply analog_loop_keeps in Ha; simpl;
    eapply keeps_stabilisers_trans; eauto; eapply keeps_stabilisers_trans; eauto.
Qed.

Lemma wired_keeps tr tr' : wired tr → keeps_stabilisers tr tr' → wired tr'.
Proof.
  intros [Hd Ha] (Hpm & Hds & Hcl & Hem). split.
  - intros d_pin name Hin. rewrite Hpm in Hin. eauto.
  - intros pin amap Hin. rewrite Hpm in Hin. destruct (Ha pin amap Hin). eauto.
Qed.

(** *** The constructor *)

Lemma transformer_new_pinmap pm : pinmap (transformer_new (F:=F) pm) = pm.
Proof. done. Qed.

Lemma transformer_new_dig pm n :
  _dig_stab (transformer_new (F:=F) pm) !! n
  = (if bool_decide (n ∈ (digital pm).*2)
     then Some (HoldLatch.new 30 (if is_indicator n then 80 else 0)) else None) ∧
  _flash (transformer_new (F:=F) pm) !! n
  = (if bool_decide (n ∈ (digital pm).*2) && is_indicator n
     then Some (FlashDetector.new 1200 2) else None).
Proof.
  unfold transformer_new. cbn [_dig_stab _flash].
  set (f := λ '(stab, flash) '(d_pin, name), _).
  assert (∀ l init,
    (fold_left f l init).1 !! n
    = (if bool_decide (n ∈ l.*2)
       then Some (HoldLatch.new 30 (if is_indicator n then 80 else 0)) else init.1 !! n) ∧
    (fold_left f l init).2 !! n
    = (if bool_decide (n ∈ l.*2) && is_indicator n
       then Some (FlashDetector.new 1200 2) else init.2 !! n)) as Hfold.
  { induction l as [|[d_pin name] l IH]; intros [stab flash]; [done|].
    cbn [fold_left]. destruct (IH (f (stab, flash) (d_pin, name))) as [-> ->].
    cbn [fmap list_fmap snd]. unfold f at 1 2. cbn [fst snd].
    destruct (decide (n = name)) as [->|Hne].
    - rewrite (bool_decide_eq_true_2 (name ∈ name :: l.*2)) by (apply elem_of_cons; by left).
      rewrite lookup_insert_eq. split; [by case_bool_decide|].
      destruct (is_indicator name); [|by rewrite !andb_false_r].
      rewrite lookup_insert_eq. by case_bool_decide.
    - rewrite lookup_insert_ne by done.
      assert (bool_decide (n ∈ name :: l.*2) = bool_decide (n ∈ l.*2)) as ->.
      { apply bool_decide_ext. rewrite elem_of_cons. split; [by intros [?|?]|by right]. }
      split; [done|]. destruct (is_indicator name); [|done].
      by rewrite lookup_insert_ne. }
  destruct (Hfold (digital pm) (∅, ∅)) as [-> ->]. simpl. by rewrite !lookup_empty.
Qed.

Lemma transformer_new_analog pm n :
  _analog_clamp (transformer_new (F:=F) pm) !! n
  = (if bool_decide (n ∈ (λ e, AnalogMap.name e.2) <$> analog pm)
     then Some (OutlierClamp.new (f_lit 120)) else None) ∧
  _analog_ema (transformer_new (F:=F) pm) !! n
  = (if bool_decide (n ∈ (λ e, AnalogMap.name e.2) <$> analog pm)
     then Some (EMA.new (f_lit (25 # 100))) else None).
Proof.
  unfold transformer_new. cbn [_analog_clamp _analog_ema].
  set (f := λ '(clamp, ema) '(a_pin, amap), _).
  assert (∀ l init,
    (fold_left f l init).1 !! n
    = (if bool_decide (n ∈ (λ e : string * AnalogMap.t, AnalogMap.name e.2) <$> l)
       then Some (OutlierClamp.new (f_lit 120)) else init.1 !! n) ∧
    (fold_left f l init).2 !! n
    = (if bool_decide (n ∈ (λ e : string * AnalogMap.t, AnalogMap.name e.2) <$> l)
       then Some (EMA.new (f_lit (25 # 100))) else init.2 !! n)) as Hfold.
  { induction l as [|[a_pin amap] l IH]; intros [clamp ema]; [done|].
    cbn [fold_left]. destruct (IH (f (clamp, ema) (a_pin, amap))) as [-> ->].
    cbn [fmap list_fmap snd]. unfold f at 1 2. cbn [fst snd].
    destruct (decide (n = AnalogMap.name amap)) as [->|Hne].
    - rewrite (bool_decide_eq_true_2 (AnalogMap.name amap ∈ AnalogMap.name amap :: _))
        by (apply elem_of_cons; by left).
      rewrite !lookup_insert_eq. by case_bool_decide.
    - rewrite !lookup_insert_ne by done.
      assert (bool_decide (n ∈ AnalogMap.name amap
                               :: ((λ e : string * AnalogMap.t, AnalogMap.name e.2) <$> l))
              = bool_decide (n ∈ (λ e : string * AnalogMap.t, AnalogMap.name e.2) <$> l))
        as ->; [|done].
      apply bool_decide_ext. rewrite elem_of_cons. split; [by intros [?|?]|by right]. }
  destruct (Hfold (analog pm) (∅, ∅)) as [-> ->]. simpl. by rewrite !lookup_empty.
Qed.

Lemma transformer_new_wired pm : wired (transformer_new (F:=F) pm).
Proof.
  split.
  - intros d_pin name Hin. destruct (transformer_new_dig pm name) as [-> _].
    rewrite bool_decide_eq_true_2; [by eexists|].
    apply list_elem_of_fmap. by exists (d_pin, name).
  - intros pin amap Hin.
    destruct (transformer_new_analog pm (AnalogMap.name amap)) as [-> ->].
    rewrite bool_decide_eq_true_2; [split; by eexists|].
    apply list_elem_of_fmap. by exists (pin, amap).
Qed.

(** *** [transform] returns *)

Lemma digital_step_returns raw_inputs now acc d_pin name tr :
  is_Some (_dig_stab tr !! name) →
  ∃ acc' tr', digital_step raw_inputs now acc (d_pin, name) tr = (Some acc', tr').
Proof.
  intros [latch Hl]. destruct tr as [pm0 ds fl cl em to lf]. simpl in Hl.
  unfold digital_step. se_unfold. cbn. rewrite Hl.
  destruct (HoldLatch.update latch _ now) as [stable latch']. cbn.
  case_bool_decide as Hfl; cbn.
  - destruct Hfl as [fd Hfd]. rewrite Hfd.
    destruct (FlashDetector.update fd stable now) as [flashing fd']. cbn. by eexists _, _.
  - by eexists _, _.
Qed.

Lemma digital_loop_returns raw_inputs now l : ∀ acc tr,
  (∀ d_pin name, (d_pin, name) ∈ l → is_Some (_dig_stab tr !! name)) →
  ∃ acc' tr', for_each (digital_step raw_inputs now) acc l tr = (Some acc', tr').
Proof.
  induction l as [|[d_pin name] l IH]; intros acc tr Hw; [by eexists _, _|].
  rewrite for_each_cons.
  destruct (digital_step_returns raw_inputs now acc d_pin name tr) as (acc1 & tr1 & Hs).
  { eapply Hw. apply elem_of_cons. by left. }
  rewrite Hs. apply IH. intros d_pin' name' Hin.
  apply digital_step_keeps in Hs as (_ & Hds & _).
  apply Hds. eapply Hw. apply elem_of_cons. by right.
Qed.

Lemma analog_step_returns raw_analog out pin amap tr :
  is_Some (_analog_clamp tr !! AnalogMap.name amap) →
  is_Some (_analog_ema tr !! AnalogMap.name amap) →
  is_Some (f_of_int (AnalogMap.min amap)) →
  is_Some (f_of_int (AnalogMap.max amap)) →
  (∀ raw_f, analog_reading raw_analog pin = Some raw_f → is_Some (f_to_int raw_f)) →
  ∃ out' tr', analog_step raw_analog out (pin, amap) tr = (Some out', tr').
Proof.
  intros [cl Hcl] [em Hem] [lo Hlo] [hi Hhi] Hint.
  destruct tr as [pm0 ds fl cls ems to lf]. simpl in Hcl, Hem.
  unfold analog_step. destruct (analog_reading raw_analog pin) as [raw_f|]; [|by eexists _, _].
  destruct (Hint raw_f eq_refl) as [raw_i Hi].
  se_unfold. cbn. rewrite Hcl.
  destruct (OutlierClamp.update cl raw_f) as [clamped cl']. cbn. rewrite Hem.
  destruct (EMA.update em clamped) as [smooth em']. cbn.
  unfold normalize_analog. rewrite Hlo, Hhi. cbn.
  destruct (f_leb hi lo); cbn; rewrite Hi; by eexists _, _.
Qed.

Lemma analog_loop_returns raw_analog l : ∀ out tr,
  (∀ pin amap, (pin, amap) ∈ l →
     is_Some (_analog_clamp tr !! AnalogMap.name amap) ∧
     is_Some (_analog_ema tr !! AnalogMap.name amap) ∧
     is_Some (f_of_int (AnalogMap.min amap)) ∧
     is_Some (f_of_int (AnalogMap.max amap))) →
  (∀ pin raw_f, analog_reading raw_analog pin = Some raw_f → is_Some (f_to_int raw_f)) →
  ∃ out' tr', for_each (analog_step raw_analog) out l tr = (Some out', tr').
Proof.
  induction l as [|[pin amap] l IH]; intros out tr Hw Hint; [by eexists _, _|].
  rewrite for_each_cons.
  destruct (Hw pin amap ltac:(apply elem_of_cons; by left)) as (H1 & H2 & H3 & H4).
  destruct (analog_step_returns raw_analog out pin amap tr H1 H2 H3 H4 (Hint pin))
    as (out1 & tr1 & Hs).
  rewrite Hs. apply IH; [|done]. intros pin' amap' Hin.
  apply analog_step_keeps in Hs as (_ & _ & Hcl & Hem).
  destruct (Hw pin' amap' ltac:(apply elem_of_cons; by right)) as (?&?&?&?).
  repeat split; auto.
Qed.

Lemma transform_returns now frame tr :
  wired tr → ranges_ok (pinmap tr) → transformer_frame_ok frame →
  ∃ snap, (transform dict_of_list now frame tr).1 = Some snap.
Proof.
  intros [Hwd Hwa] Hr ((Hup & Hhb & Hin & Han) & Hseq & Hint).
  rewrite transform_unfold. cbn zeta.
  set (tr0 := mk_transformer _ _ _ _ _ _ now).
  assert (∃ m, dict_copy dict_of_list (py_or (dict_get frame "inputs" (PDict ∅)) (PDict ∅))
               = Some m) as [raw_inputs ->].
  { unfold dict_get. destruct (frame !! "inputs") as [v|] eqn:E; simpl.
    - destruct (Hin v eq_refl) as [m ->]. unfold py_or.
      destruct (truthy (PDict m)); by eexists.
    - by eexists. }
  assert (∃ m, dict_copy dict_of_list (py_or (dict_get frame "analog" (PDict ∅)) (PDict ∅))
               = Some m ∧
               ∀ pin raw_f, analog_reading m pin = Some raw_f → is_Some (f_to_int raw_f))
    as (raw_analog & -> & Hsamples).
  { unfold dict_get. destruct (frame !! "analog") as [v|] eqn:E; simpl.
    - destruct (Han v eq_refl) as (m & -> & Hm). unfold py_or.
      destruct (truthy (PDict m)); eexists; (split; [done|]).
      + intros pin raw_f. unfold analog_reading, dict_get.
        destruct (m !! pin) as [w|] eqn:Ew; simpl; [|done].
        destruct (Hm pin w Ew) as (z & -> & _). simpl. intros Hz.
        by eapply Hint.
      + intros pin raw_f. unfold analog_reading, dict_get. by rewrite lookup_empty.
    - eexists. split; [done|]. intros pin raw_f.
      unfold analog_reading, dict_get. by rewrite lookup_empty. }
  destruct (digital_loop_returns raw_inputs now (digital (pinmap tr)) (∅, ∅) tr0)
    as (dig & tr1 & Hd); [by apply Hwd|]. rewrite Hd.
  destruct (analog_loop_returns raw_analog (analog (pinmap tr)) ∅ tr1)
    as (analog_out & tr2 & Ha); [|done|].
  { intros pin amap Hin'. apply digital_loop_keeps in Hd as (_ & _ & Hcl & Hem).
    destruct (Hwa pin amap Hin') as [H1 H2]. destruct (Hr pin amap Hin') as [H3 H4].
    repeat split; auto. }
  rewrite Ha. cbn [fst]. unfold assemble, dict_get.
  assert (∀ k, (∀ v, frame !! k = Some v → ∃ z, v = PInt z) →
               ∃ z, py_int (default (PInt 0) (frame !! k)) = Some z) as Hk.
  { intros k Hv. destruct (frame !! k) as [v|]; simpl; [|by eexists].
    destruct (Hv v eq_refl) as [z ->]. by eexists. }
  destruct (Hk "seq" Hseq) as [s ->]. destruct (Hk "uptime_ms" Hup) as [u ->].
  destruct (Hk "heartbeat" Hhb) as [b ->]. simpl. by eexists.
Qed.

Lemma transform_run_snoc frames : ∀ tr now frame,
  transform_run dict_of_list tr (frames ++ [(now, frame)])
  = ((transform_run dict_of_list tr frames).1
       ++ [(transform dict_of_list now frame (transform_run dict_of_list tr frames).2).1],
     (transform dict_of_list now frame (transform_run dict_of_list tr frames).2).2).
Proof.
  induction frames as [|[now' frame'] frames IH]; intros tr now frame; simpl.
  - by destruct (transform dict_of_list now frame tr).
  - destruct (transform dict_of_list now' frame' tr) as [r tr1].
    rewrite IH. by destruct (transform_run dict_of_list tr1 frames).
Qed.

Lemma transform_run_keeps frames : ∀ tr,
  keeps_stabilisers tr (transform_run dict_of_list tr frames).2 ∧
  stale_timeout_ms (transform_run dict_of_list tr frames).2 = stale_timeout_ms tr.
Proof.
  induction frames as [|[now frame] frames IH] using rev_ind; intros tr.
  - split; [apply keeps_stabilisers_refl|done].
  - rewrite transform_run_snoc. cbn [snd]. destruct (IH tr) as [Hk Ht]. split.
    + eapply keeps_stabilisers_trans; [exact Hk|apply transform_keeps].
    + by destruct (transform_last_frame_ms dict_of_list now frame
                     (transform_run dict_of_list tr frames).2) as [_ ->].
Qed.

(** X9.  A transformer never raises on plain input.  Take the transformer
    the constructor builds for a pin map whose analog ranges convert to
    float, and feed it any frames that are plain (int [seq], [uptime_ms] and
    [heartbeat] when present, object [inputs] and [analog], int samples that
    [float] and then [int] accept): every call of [transform] returns a
    snapshot; in particular no stabiliser is ever missing. *)
Theorem transformer_serves_every_plain_frame pm frames :
  ranges_ok pm →
  Forall (λ f, transformer_frame_ok f.2) frames →
  Forall is_Some (transform_run dict_of_list (transformer_new pm) frames).1.
Proof.
  intros Hr Hframes.
  induction frames as [|[now frame] frames IH] using rev_ind; [apply Forall_nil_2|].
  apply Forall_app in Hframes as [Hframes Hf]. rewrite Forall_singleton in Hf.
  rewrite transform_run_snoc. cbn [fst]. apply Forall_app. split; [by apply IH|].
  apply Forall_singleton.
  destruct (transform_run_keeps frames (transformer_new pm)) as [Hk _].
  destruct (transform_returns now frame
              (transform_run dict_of_list (transformer_new pm) frames).2)
    as [snap Hsnap]; [| |done|by rewrite Hsnap].
  - eapply wired_keeps; [apply transformer_new_wired|done].
  - destruct Hk as [-> _]. by rewrite transformer_new_pinmap.
Qed.

(** *** The snapshot of [transform] *)

Lemma analog_step_entry raw_analog out pin amap tr out' tr' n e :
  analog_step raw_analog out (pin, amap) tr = (Some out', tr') →
  out' !! n = Some e →
  out !! n = Some e ∨
  (AnalogMap.name amap = n ∧ is_Some (analog_reading raw_analog pin) ∧
   analog_entry_full e = true).
Proof.
  unfold analog_step. destruct (analog_reading raw_analog pin) as [raw_f|];
    [|intros [= <- _]; by left].
  se_unfold. intros Hs. repeat (case_match; simplify_eq; cbn in * ).
  intros Hl. destruct (decide (AnalogMap.name amap = n)) as [Heq|Hne].
  - right. split; [done|]. split; [by eexists|].
    rewrite Heq, lookup_insert_eq in Hl. injection Hl as <-.
    unfold analog_entry_full, py_dict, has. by dict_lookup.
  - left. by rewrite lookup_insert_ne in Hl.
Qed.

Lemma analog_loop_entries raw_analog l : ∀ out tr out' tr' n e,
  for_each (analog_step raw_analog) out l tr = (Some out', tr') →
  out' !! n = Some e →
  out !! n = Some e ∨
  ((∃ pin amap, (pin, amap) ∈ l ∧ AnalogMap.name amap = n ∧
                is_Some (analog_reading raw_analog pin)) ∧
   analog_entry_full e = true).
Proof.
  induction l as [|[pin amap] l IH]; intros out tr out' tr' n e Hrun Hl.
  - injection Hrun as <- _. by left.
  - rewrite for_each_cons in Hrun.
    destruct (analog_step raw_analog out (pin, amap) tr) as [[out1|] tr1] eqn:Hs; [|done].
    destruct (IH out1 tr1 out' tr' n e Hrun Hl) as [Hl1|[(pin' & amap' & Hin & Hn & Hr) Hfull]].
    + destruct (analog_step_entry _ _ _ _ _ _ _ n e Hs Hl1) as [?|(Hn & Hr & Hfull)];
        [by left|].
      right. split; [|done]. exists pin, amap. split; [apply elem_of_cons; by left|done].
    + right. split; [|done]. exists pin', amap'. split; [apply elem_of_cons; by right|done].
Qed.

Lemma assemble_fixed now frame named flashing analog_out snap :
  assemble now frame named flashing analog_out = Some snap →
  transformer_fixed_keys snap = true ∧
  at_path ["ts_ms"] snap = Some (PInt now) ∧
  at_path ["_health"; "stale"] snap = Some (PBool false) ∧
  at_path ["_health"; "last_rx_ms"] snap = None ∧
  at_path ["analog"] snap = Some (PDict analog_out) ∧
  (∀ path name, (path, name) ∈ transformer_level_fields →
                at_path path snap = Some (named_get named name)) ∧
  (∀ path name, (path, name) ∈ transformer_flash_fields →
                at_path path snap = Some (named_get flashing name)).
Proof.
  unfold assemble. intros Ha.
  destruct (py_int (dict_get frame "seq" (PInt 0))); [|done].
  destruct (py_int (dict_get frame "uptime_ms" (PInt 0))); [|done].
  destruct (py_int (dict_get frame "heartbeat" (PInt 0))); [|done].
  simpl in Ha. injection Ha as <-.
  split; [|split; [|split; [|split; [|split; [|split]]]]].
  - unfold transformer_fixed_keys, py_dict, has, dict_of, has.
    dict_lookup. simpl. by dict_lookup.
  - simpl. unfold py_dict. by dict_lookup.
  - simpl. unfold py_dict. dict_lookup. simpl. by dict_lookup.
  - simpl. unfold py_dict. dict_lookup. simpl. by dict_lookup.
  - simpl. unfold py_dict. by dict_lookup.
  - intros path name Hin. unfold transformer_level_fields in Hin.
    repeat (apply elem_of_cons in Hin as [[= -> ->]|Hin]); [..|by apply elem_of_nil in Hin];
      simpl; unfold py_dict; dict_lookup; simpl; by dict_lookup.
  - intros path name Hin. unfold transformer_flash_fields in Hin.
    repeat (apply elem_of_cons in Hin as [[= -> ->]|Hin]); [..|by apply elem_of_nil in Hin];
      simpl; unfold py_dict; dict_lookup; simpl; by dict_lookup.
Qed.

(** X10.  The shape of every snapshot [transform] returns: the fixed keys
    with rightly typed values, [ts_ms] the clock reading of the call,
    [_health] with [stale = False] and without [last_rx_ms]; and under
    [analog] an entry only for a channel that a pin with a usable sample in
    this frame is mapped to, each entry with an int [raw] and float [smooth]
    and [norm], never null. *)
Theorem transform_snapshot_shape now frame tr snap tr' :
  transform dict_of_list now frame tr = (Some snap, tr') →
  transformer_fixed_keys snap = true ∧
  at_path ["ts_ms"] snap = Some (PInt now) ∧
  at_path ["_health"; "stale"] snap = Some (PBool false) ∧
  at_path ["_health"; "last_rx_ms"] snap = None ∧
  ∃ analog_out,
    at_path ["analog"] snap = Some (PDict analog_out) ∧
    ∀ n e, analog_out !! n = Some e →
           analog_entry_full e = true ∧
           ∃ pin amap, (pin, amap) ∈ analog (pinmap tr) ∧ AnalogMap.name amap = n ∧
                       is_Some (frame_reading dict_of_list frame pin).
Proof.
  rewrite transform_unfold. cbn zeta. intros Ht.
  destruct (dict_copy dict_of_list (py_or (dict_get frame "inputs" (PDict ∅)) (PDict ∅)))
    as [raw_inputs|]; [|done].
  destruct (dict_copy dict_of_list (py_or (dict_get frame "analog" (PDict ∅)) (PDict ∅)))
    as [raw_analog|] eqn:Hra; [|done].
  destruct (for_each (digital_step raw_inputs now) _ _ _) as [[dig|] tr1] eqn:Hd; [|done].
  destruct (for_each (analog_step raw_analog) _ _ _) as [[analog_out|] tr2] eqn:Ha;
    [|done].
  injection Ht as Hs <-.
  destruct (assemble_fixed _ _ _ _ _ _ Hs) as (H1 & H2 & H3 & H4 & H5 & _).
  split; [done|]. split; [done|]. split; [done|]. split; [done|].
  exists analog_out. split; [done|]. intros n e Hl.
  destruct (analog_loop_entries _ _ _ _ _ _ n e Ha Hl)
    as [Hempty|[(pin & amap & Hin & Hn & Hr) Hfull]]; [by rewrite lookup_empty in Hempty|].
  split; [done|]. exists pin, amap. split; [done|]. split; [done|].
  unfold frame_reading. by rewrite Hra.
Qed.

(** X11.  A signal name that no pin of the pin map is mapped to reads OFF:
    in every snapshot [transform] returns, the level field looked up under
    that name, and for the two indicators the flashing field too, is
    [False], whatever the frame holds. *)
Theorem transform_unmapped_signal_reads_off now frame tr snap tr' path name :
  (path, name) ∈ transformer_level_fields ++ transformer_flash_fields →
  (∀ d_pin name', (d_pin, name') ∈ digital (pinmap tr) → name' ≠ name) →
  transform dict_of_list now frame tr = (Some snap, tr') →
  at_path path snap = Some (PBool false).
Proof.
  intros Hin Hun. rewrite transform_unfold. cbn zeta. intros Ht.
  destruct (dict_copy dict_of_list (py_or (dict_get frame "inputs" (PDict ∅)) (PDict ∅)))
    as [raw_inputs|]; [|done].
  destruct (dict_copy dict_of_list (py_or (dict_get frame "analog" (PDict ∅)) (PDict ∅)))
    as [raw_analog|]; [|done].
  destruct (for_each (digital_step raw_inputs now) _ _ _) as [[dig|] tr1] eqn:Hd; [|done].
  destruct (for_each (analog_step raw_analog) _ _ _) as [[analog_out|] tr2] eqn:Ha;
    [|done].
  injection Ht as Hs <-.
  apply (digital_loop_other raw_inputs now name) in Hd as [_ Hacc]; [|done].
  destruct (Hacc dig eq_refl) as [Hn Hf]. simpl in Hn, Hf.
  rewrite lookup_empty in Hn, Hf.
  destruct (assemble_fixed _ _ _ _ _ _ Hs) as (_ & _ & _ & _ & _ & Hlev & Hfl).
  apply elem_of_app in Hin as [Hin|Hin].
  - rewrite (Hlev path name Hin). unfold named_get. by rewrite Hn.
  - rewrite (Hfl path name Hin). unfold named_get. by rewrite Hf.
Qed.


(** *** A frame whose header does not convert *)

(** X12.  [transform] converts [seq], [uptime_ms] and [heartbeat] with
    [int] only after both loops have run.  When one of them is present and
    [int] rejects it (null, say), [transform] raises, yet it leaves the
    transformer exactly as the same frame with that field set to 0 would:
    latches, flash detectors, clamps and EMAs have taken the frame in, and
    [_last_frame_ms] is the clock reading of the call. *)
Theorem transform_raises_after_consuming_frame now frame tr k :
  k ∈ ["seq"; "uptime_ms"; "heartbeat"] →
  py_int (dict_get frame k (PInt 0)) = None →
  (transform dict_of_list now frame tr).1 = None ∧
  (transform dict_of_list now frame tr).2
  = (transform dict_of_list now (<[k := PInt 0]> frame) tr).2 ∧
  _last_frame_ms (transform dict_of_list now frame tr).2 = now.
Proof.
  intros Hk Hbad. split; [|split; [|apply transform_last_frame_ms]].
  - rewrite transform_unfold. cbn zeta.
    destruct (dict_copy _ _) as [raw_inputs|]; [|done].
    destruct (dict_copy _ _) as [raw_analog|]; [|done].
    destruct (for_each (digital_step raw_inputs now) _ _ _) as [[dig|] tr1]; [|done].
    destruct (for_each (analog_step raw_analog) _ _ _) as [[analog_out|] tr2]; [|done].
    cbn [fst]. unfold assemble.
    repeat (apply elem_of_cons in Hk as [->|Hk]); [..|by apply elem_of_nil in Hk].
    + by rewrite Hbad.
    + destruct (py_int (dict_get frame "seq" (PInt 0))); [|done]. simpl. by rewrite Hbad.
    + destruct (py_int (dict_get frame "seq" (PInt 0))); [|done]. simpl.
      destruct (py_int (dict_get frame "uptime_ms" (PInt 0))); [|done]. simpl.
      by rewrite Hbad.
  - rewrite !transform_unfold. cbn zeta.
    assert (k ≠ "inputs" ∧ k ≠ "analog") as [Hki Hka].
    { repeat (apply elem_of_cons in Hk as [->|Hk]); [..|by apply elem_of_nil in Hk]; done. }
    rewrite !(dict_get_insert_ne frame k) by done.
    destruct (dict_copy _ _) as [raw_inputs|]; [|done].
    destruct (dict_copy _ _) as [raw_analog|]; [|done].
    destruct (for_each (digital_step raw_inputs now) _ _ _) as [[dig|] tr1]; [|done].
    by destruct (for_each (analog_step raw_analog) _ _ _) as [[analog_out|] tr2].
Qed.


(** *** A new transformer *)

(** X13.  The first sample of a channel passes unfiltered.  On a transformer
    fresh from the constructor, for a channel mapped from one pin whose
    sample [float] accepts as [raw_f], a [transform] that returns reports
    [smooth] = [raw_f] rounded to 2 places and [norm] =
    [normalize_analog(raw_f)] rounded to 4 places: the clamp and the EMA start
    from the sample. *)
Theorem transform_first_sample_unfiltered pm now frame l1 pin amap l2 raw_f :
  analog pm = l1 ++ (pin, amap) :: l2 →
  (∀ pin' amap', (pin', amap') ∈ l1 ++ l2 →
                 AnalogMap.name amap' ≠ AnalogMap.name amap) →
  frame_reading dict_of_list frame pin = Some raw_f →
  let r := transform dict_of_list now frame (transformer_new pm) in
  is_Some r.1 →
  ∃ norm raw_i,
    normalize_analog raw_f amap = Some norm ∧
    f_to_int raw_f = Some raw_i ∧
    (r.1 ≫= at_path ["analog"; AnalogMap.name amap])
    = Some (py_dict [("raw", PInt raw_i);
                     ("smooth", PFloat (f_round 2 raw_f));
                     ("norm", PFloat (f_round 4 norm))]).
Proof.
  intros Hl Hu Hr r [snap Hsnap]. unfold r in *.
  destruct (transform dict_of_list now frame (transformer_new pm)) as [o tr'] eqn:Ht.
  simpl in Hsnap. subst o.
  destruct (transformer_new_analog pm (AnalogMap.name amap)) as [Hcl Hem].
  rewrite bool_decide_eq_true_2 in Hcl, Hem
    by (rewrite Hl; apply list_elem_of_fmap; exists (pin, amap);
        split; [done|]; apply elem_of_app; right; apply elem_of_cons; by left).
  destruct (transform_analog_entry dict_of_list now frame _ snap tr' l1 pin amap l2 raw_f
              _ _ Ht Hl Hu Hr Hcl Hem) as (norm & raw_i & Hn & Hi & He & _).
  exists norm, raw_i. by repeat split.
Qed.


(** *** health_state *)

Lemma health_state_minimal tr now k :
  k ∈ ["seq"; "indicators"; "warnings"; "spares"; "analog"] →
  at_path [k] (health_state tr now) = None.
Proof.
  intros Hk. unfold health_state. cbn [at_path]. unfold py_dict.
  repeat (apply elem_of_cons in Hk as [->|Hk]); [..|by apply elem_of_nil in Hk];
    by dict_lookup.
Qed.

Lemma health_state_never tr now :
  _last_frame_ms tr = 0 →
  at_path ["_health"; "stale"] (health_state tr now) = Some (PBool true).
Proof.
  intros H0. by destruct (health_state_stale dict_of_list 0 ∅ tr now) as (-> & _ & _).
Qed.

(** X14.  [health_state] of a transformer built by the constructor reports
    stale before any frame.  After any calls of [transform], returning or
    raising, the last made at wall-clock reading [now0], it reports stale
    exactly when more than 1500 ms have passed since, or when [now0] was 0,
    the value that stands for "never".  It is the minimal dict: no [seq],
    no digital or analog fields. *)
Theorem health_state_after_frames pm frames now0 frame now :
  let tr := (transform_run dict_of_list (transformer_new pm)
               (frames ++ [(now0, frame)])).2 in
  at_path ["_health"; "stale"] (health_state (transformer_new (F:=F) pm) now)
    = Some (PBool true) ∧
  at_path ["_health"; "stale"] (health_state tr now)
    = Some (PBool (bool_decide (now0 = 0 ∨ now - now0 > 1500))) ∧
  (∀ k, k ∈ ["seq"; "indicators"; "warnings"; "spares"; "analog"] →
        at_path [k] (health_state tr now) = None).
Proof.
  intros tr. split; [|split].
  - apply health_state_never. reflexivity.
  - unfold tr. rewrite transform_run_snoc. cbn [snd].
    set (tr1 := (transform_run dict_of_list (transformer_new pm) frames).2).
    assert (stale_timeout_ms tr1 = 1500) as Hto.
    { unfold tr1. destruct (transform_run_keeps frames (transformer_new pm))
        as [_ ->]. reflexivity. }
    destruct (decide (now0 = 0)) as [->|Hne].
    + rewrite bool_decide_eq_true_2 by (by left).
      apply health_state_never.
      destruct (transform_last_frame_ms dict_of_list 0 frame tr1) as [Hl _]. exact Hl.
    + destruct (health_state_stale dict_of_list now0 frame tr1 now) as (_ & Hs & _).
      rewrite (Hs Hne), Hto. do 2 f_equal. apply bool_decide_ext.
      split; [by right|]. by intros [?|?].
  - intros k Hk. by apply health_state_minimal.
Qed.



End Transformer_more_facts.

Lemma example_frame_ok seq_v d2 a0 : transformer_frame_ok (uno_frame (PInt seq_v) d2 a0).
Proof.
  split; [apply uno_frame_plain|]. split.
  - intros v Hv. vm_compute in Hv. injection Hv as <-. by eexists.
  - intros m pin z r _ _ _. by eexists.
Qed.

Lemma transformer_serves_every_plain_frame_witness :
  Forall is_Some
    (transform_run no_list_dicts (transformer_new example_pinmap)
       [(1000, uno_frame (PInt 1) true 0); (1100, uno_frame (PInt 2) true 1000)]).1.
Proof.
  apply (transformer_serves_every_plain_frame (F:=Q) no_list_dicts example_pinmap
           [(1000, uno_frame (PInt 1) true 0); (1100, uno_frame (PInt 2) true 1000)]).
  - intros pin amap _. split; by eexists.
  - repeat (apply Forall_cons; split; [apply example_frame_ok|]). apply Forall_nil_2.
Defined.

Lemma transform_snapshot_shape_witness :
  let tr := transformer_new (F:=Q) example_pinmap in
  let frame := uno_frame (PInt 1) true 512 in
  let r := transform no_list_dicts 1000 frame tr in
  let snap := default PNone r.1 in
  transformer_fixed_keys snap = true ∧
  at_path ["ts_ms"] snap = Some (PInt 1000) ∧
  at_path ["_health"; "stale"] snap = Some (PBool false) ∧
  at_path ["_health"; "last_rx_ms"] snap = None ∧
  ∃ analog_out,
    at_path ["analog"] snap = Some (PDict analog_out) ∧
    ∀ n e, analog_out !! n = Some e →
           analog_entry_full e = true ∧
           ∃ pin amap, (pin, amap) ∈ analog (pinmap tr) ∧ AnalogMap.name amap = n ∧
                       is_Some (frame_reading no_list_dicts frame pin).
Proof.
  intros tr frame r snap.
  apply (transform_snapshot_shape no_list_dicts 1000 frame tr snap r.2).
  vm_compute. reflexivity.
Defined.

Lemma transform_unmapped_signal_reads_off_witness :
  let r := transform no_list_dicts 1000 (uno_frame (PInt 1) true 512)
             (transformer_new (F:=Q) example_pinmap) in
  at_path ["warnings"; "brake"] (default PNone r.1) = Some (PBool false).
Proof.
  intros r.
  apply (transform_unmapped_signal_reads_off no_list_dicts 1000
           (uno_frame (PInt 1) true 512) (transformer_new example_pinmap)
           (default PNone r.1) r.2 ["warnings"; "brake"] "brake_warning").
  - apply elem_of_app. left. repeat (apply elem_of_cons; first [by left|right]).
  - intros d_pin name' Hin.
    change (digital (pinmap (transformer_new (F:=Q) example_pinmap)))
      with (digital example_pinmap) in Hin.
    unfold example_pinmap in Hin. cbn [digital] in Hin.
    do 3 (apply elem_of_cons in Hin as [Hin|Hin]; [injection Hin as _ ->; discriminate|]).
    by apply elem_of_nil in Hin.
  - vm_compute. reflexivity.
Defined.

Lemma transform_raises_after_consuming_frame_witness :
  let tr := transformer_new (F:=Q) example_pinmap in
  let frame := uno_frame PNone true 512 in
  (transform no_list_dicts 1000 frame tr).1 = None ∧
  (transform no_list_dicts 1000 frame tr).2
  = (transform no_list_dicts 1000 (<["seq" := PInt 0]> frame) tr).2 ∧
  _last_frame_ms (transform no_list_dicts 1000 frame tr).2 = 1000.
Proof.
  intros tr frame.
  apply (transform_raises_after_consuming_frame no_list_dicts 1000 frame tr "seq").
  - apply elem_of_cons. by left.
  - reflexivity.
Defined.

Lemma transform_first_sample_unfiltered_witness :
  let fuel := AnalogMap.mk "fuel_sender_raw" 0 1023 false in
  let r := transform no_list_dicts 1000 (uno_frame (PInt 1) false 1000)
             (transformer_new (F:=Q) example_pinmap) in
  ∃ norm raw_i,
    normalize_analog (1000 # 1)%Q fuel = Some norm ∧
    f_to_int (1000 # 1)%Q = Some raw_i ∧
    (r.1 ≫= at_path ["analog"; "fuel_sender_raw"])
    = Some (py_dict [("raw", PInt raw_i);
                     ("smooth", PFloat (f_round 2 (1000 # 1)%Q));
                     ("norm", PFloat (f_round 4 norm))]).
Proof.
  intros fuel r.
  apply (transform_first_sample_unfiltered no_list_dicts example_pinmap 1000
           (uno_frame (PInt 1) false 1000)
           [] "A0" fuel [("A1", AnalogMap.mk "coolant_sender_raw" 0 1023 false)]
           (1000 # 1)%Q).
  - reflexivity.
  - intros pin' amap' Hin. apply elem_of_cons in Hin as [Hin|Hin].
    + injection Hin as -> ->. discriminate.
    + by apply elem_of_nil in Hin.
  - reflexivity.
  - vm_compute. eexists. reflexivity.
Defined.

(** ** One signal and one channel across frames *)

Section Transformer_signals_facts.
Context {F : Type} `{PyNum F}.
Variable dict_of_list : list (pyval F) → option (gmap string (pyval F)).
Implicit Types (tr : VehicleStateTransformer F).

Lemma digital_step_untracked raw_inputs now acc d_pin name tr latch acc' tr' :
  _dig_stab tr !! name = Some latch →
  _flash tr !! name = None →
  digital_step raw_inputs now acc (d_pin, name) tr = (Some acc', tr') →
  let raw_val := truthy (dict_get raw_inputs d_pin (PBool false)) in
  acc'.1 !! name = Some (HoldLatch.update latch raw_val now).1 ∧
  acc'.2 !! name = acc.2 !! name ∧
  _dig_stab tr' !! name = Some (HoldLatch.update latch raw_val now).2 ∧
  _flash tr' !! name = None.
Proof.
  intros Hl Hf. destruct tr as [pm0 ds fl cl em to lf]. simpl in Hl, Hf.
  unfold digital_step. se_unfold. cbn. rewrite Hl.
  destruct (HoldLatch.update latch _ now) as [stable latch'] eqn:Eu. cbn.
  rewrite Hf, bool_decide_eq_false_2 by (by intros [? ?]). cbn.
  intros [= <- <-]. cbn. by rewrite !lookup_insert_eq.
Qed.

(** One call of [transform] as the latch and the flash detector of a signal
    see it, the signal being mapped from one pin. *)
Lemma transform_signal now frame tr snap tr' l1 d_pin name l2 latch :
  transform dict_of_list now frame tr = (Some snap, tr') →
  digital (pinmap tr) = l1 ++ (d_pin, name) :: l2 →
  (∀ d_pin' name', (d_pin', name') ∈ l1 ++ l2 → name' ≠ name) →
  _dig_stab tr !! name = Some latch →
  ∃ raw_val,
    frame_level dict_of_list frame d_pin = Some raw_val ∧
    let r := HoldLatch.update latch raw_val now in
    _dig_stab tr' !! name = Some r.2 ∧
    (∀ path, (path, name) ∈ transformer_level_fields →
             at_path path snap = Some (PBool r.1)) ∧
    match _flash tr !! name with
    | Some fd =>
        _flash tr' !! name = Some (FlashDetector.update fd r.1 now).2 ∧
        ∀ path, (path, name) ∈ transformer_flash_fields →
                at_path path snap = Some (PBool (FlashDetector.update fd r.1 now).1)
    | None => _flash tr' !! name = None
    end.
Proof.
  rewrite transform_unfold. cbn zeta. intros Ht Hl Huniq Hlatch.
  unfold frame_level.
  destruct (dict_copy dict_of_list (py_or (dict_get frame "inputs" (PDict ∅)) (PDict ∅)))
    as [raw_inputs|]; [|done].
  destruct (dict_copy dict_of_list (py_or (dict_get frame "analog" (PDict ∅)) (PDict ∅)))
    as [raw_analog|]; [|done].
  destruct (for_each (digital_step raw_inputs now) _ _ _) as [[dig|] tr1] eqn:Hd; [|done].
  destruct (for_each (analog_step raw_analog) _ _ _) as [[analog_out|] tr2] eqn:Ha;
    [|done].
  injection Ht as Hs <-.
  eexists. split; [done|]. cbn zeta.
  rewrite Hl, for_each_app in Hd.
  destruct (for_each (digital_step raw_inputs now) (∅, ∅) l1 _) as [[acc1|] tra] eqn:Hd1;
    [|done].
  rewrite for_each_cons in Hd.
  destruct (digital_step raw_inputs now acc1 (d_pin, name) tra) as [[acc2|] trb] eqn:Hd2;
    [|done].
  apply (digital_loop_other raw_inputs now name) in Hd1 as [(Hla & Hfa & _) Hacc1].
  2:{ intros d_pin' name' Hin. apply (Huniq d_pin' name'). apply elem_of_app. by left. }
  simpl in Hla, Hfa. rewrite Hlatch in Hla.
  destruct (Hacc1 acc1 eq_refl) as [_ Hacc1f]. simpl in Hacc1f.
  rewrite lookup_empty in Hacc1f.
  apply (digital_loop_other raw_inputs now name) in Hd as [(Hlc & Hfc & _) Hacc].
  2:{ intros d_pin' name' Hin. apply (Huniq d_pin' name'). apply elem_of_app. by right. }
  destruct (Hacc dig eq_refl) as [Hn Hf].
  apply analog_loop_digital_side in Ha as (Hds & Hfl & _ & _).
  destruct (assemble_fixed _ _ _ _ _ _ Hs) as (_ & _ & _ & _ & _ & Hlev & Hflf).
  destruct (_flash tr !! name) as [fd|] eqn:Hfd.
  - destruct (digital_step_tracked _ _ _ _ _ _ _ _ _ _ Hla Hfa Hd2)
      as (Hn2 & Hf2 & Hl2 & Hfb).
    rewrite Hn2 in Hn. rewrite Hf2 in Hf.
    split; [by rewrite Hds, Hlc, Hl2|]. split.
    + intros path Hin. rewrite (Hlev path name Hin). unfold named_get. by rewrite Hn.
    + split; [by rewrite Hfl, Hfc, Hfb|].
      intros path Hin. rewrite (Hflf path name Hin). unfold named_get. by rewrite Hf.
  - destruct (digital_step_untracked _ _ _ _ _ _ _ _ _ Hla Hfa Hd2)
      as (Hn2 & Hf2 & Hl2 & Hfb).
    rewrite Hn2 in Hn.
    split; [by rewrite Hds, Hlc, Hl2|]. split.
    + intros path Hin. rewrite (Hlev path name Hin). unfold named_get. by rewrite Hn.
    + by rewrite Hfl, Hfc, Hfb.
Qed.

Lemma FlashDetector_run_app calls1 : ∀ s calls2,
  FlashDetector.run s (calls1 ++ calls2) =
  ((FlashDetector.run s calls1).1
     ++ (FlashDetector.run (FlashDetector.run s calls1).2 calls2).1,
   (FlashDetector.run (FlashDetector.run s calls1).2 calls2).2).
Proof.
  induction calls1 as [|[v now] calls1 IH]; intros s calls2; simpl.
  - by destruct (FlashDetector.run s calls2).
  - destruct (FlashDetector.update s v now) as [o s1].
    rewrite IH. destruct (FlashDetector.run s1 calls1) as [os s2]. simpl.
    by destruct (FlashDetector.run s2 calls2).
Qed.

Lemma HoldLatch_run_length calls : ∀ s, length (HoldLatch.run s calls).1 = length calls.
Proof.
  induction calls as [|[raw now] calls IH]; intros s; simpl; [done|].
  destruct (HoldLatch.update s raw now) as [o s1]. specialize (IH s1).
  destruct (HoldLatch.run s1 calls) as [os s2]. simpl in *. by rewrite IH.
Qed.

(** X23.  Across frames, each digital signal of the transformer is its
    latch followed by its flash detector.  Take the transformer the
    constructor builds, a signal mapped from one pin, and any frames on which
    [transform] returns.  The values of the signal's level field in the
    snapshots are, in order, what a [HoldLatch(30, 80)] (hold 0 for a signal
    that is no indicator) returns on the pin's readings at the clock readings
    of the calls; for an indicator, the values of its flashing field are what
    a [FlashDetector(1200, 2)] returns when fed those debounced values; and
    the latch and detector the transformer holds are the ones so reached. *)
Theorem transformer_signal_is_latch_run pm frames l1 d_pin name l2 :
  digital pm = l1 ++ (d_pin, name) :: l2 →
  (∀ d_pin' name', (d_pin', name') ∈ l1 ++ l2 → name' ≠ name) →
  let r := transform_run dict_of_list (transformer_new pm) frames in
  Forall is_Some r.1 →
  let calls := latch_calls dict_of_list d_pin frames in
  let latch := HoldLatch.run (HoldLatch.new 30 (if is_indicator name then 80 else 0)) calls in
  let detector := FlashDetector.run (FlashDetector.new 1200 2) (zip latch.1 calls.*2) in
  _dig_stab r.2 !! name = Some latch.2 ∧
  _flash r.2 !! name = (if is_indicator name then Some detector.2 else None) ∧
  (∀ path, (path, name) ∈ transformer_level_fields →
           (λ o, o ≫= at_path path) <$> r.1 = (λ b, Some (PBool b)) <$> latch.1) ∧
  (∀ path, (path, name) ∈ transformer_flash_fields →
           (λ o, o ≫= at_path path) <$> r.1 = (λ b, Some (PBool b)) <$> detector.1).
Proof.
  intros Hl Huniq. cbn zeta.
  assert (name ∈ (digital pm).*2) as Hname.
  { rewrite Hl. apply list_elem_of_fmap. exists (d_pin, name). split; [done|].
    apply elem_of_app. right. apply elem_of_cons. by left. }
  assert (∀ path, (path, name) ∈ transformer_flash_fields → is_indicator name = true)
    as Hind.
  { intros path Hin. unfold transformer_flash_fields in Hin.
    apply elem_of_cons in Hin as [Hin|Hin]; [by injection Hin as _ ->|].
    apply elem_of_cons in Hin as [Hin|Hin]; [by injection Hin as _ ->|].
    by apply elem_of_nil in Hin. }
  induction frames as [|[now frame] frames IH] using rev_ind.
  - intros _. cbn [transform_run fst snd].
    destruct (transformer_new_dig pm name) as [-> ->].
    rewrite bool_decide_eq_true_2 by done. cbn [andb].
    split; [done|]. split; [by destruct (is_indicator name)|]. by split.
  - rewrite transform_run_snoc. cbn [fst snd]. intros Hall.
    apply Forall_app in Hall as [Hall Hlast]. rewrite Forall_singleton in Hlast.
    destruct (IH Hall) as (Hst & Hfd & Hlev & Hfl). clear IH.
    set (tr1 := (transform_run dict_of_list (transformer_new pm) frames).2) in *.
    destruct (transform dict_of_list now frame tr1) as [o tr2] eqn:Ht.
    destruct Hlast as [snap Hsnap]. simpl in Hsnap. subst o. cbn [fst snd].
    assert (digital (pinmap tr1) = l1 ++ (d_pin, name) :: l2) as Hpm.
    { unfold tr1. destruct (transform_run_keeps dict_of_list frames (transformer_new pm))
        as [[-> _] _]. done. }
    destruct (transform_signal now frame tr1 snap tr2 l1 d_pin name l2 _ Ht Hpm Huniq Hst)
      as (raw_val & Hraw & Hst2 & Hlev2 & Hfl2). cbn zeta in Hst2, Hlev2.
    unfold latch_calls. rewrite fmap_app. cbn [fmap list_fmap fst snd].
    rewrite Hraw. cbn [default].
    fold (latch_calls dict_of_list d_pin frames).
    set (calls := latch_calls dict_of_list d_pin frames) in *.
    rewrite HoldLatch_run_snoc. cbn [fst snd].
    set (latch := HoldLatch.run _ calls) in *.
    rewrite fmap_app. cbn [fmap list_fmap snd].
    rewrite zip_with_app by (unfold latch; by rewrite HoldLatch_run_length, length_fmap).
    cbn [zip_with]. rewrite FlashDetector_run_app. cbn [fst snd].
    set (det := FlashDetector.run _ (zip latch.1 calls.*2)) in *.
    cbn [FlashDetector.run].
    rewrite Hfd in Hfl2.
    split; [done|]. split; [|split].
    + destruct (is_indicator name); [|done]. destruct Hfl2 as [-> _].
      by destruct (FlashDetector.update det.2 _ now).
    + intros path Hin. rewrite !fmap_app. cbn [fmap list_fmap option_bind mbind].
      by rewrite (Hlev path Hin), (Hlev2 path Hin).
    + intros path Hin. rewrite !fmap_app. rewrite (Hfl path Hin). f_equal.
      rewrite (Hind path Hin) in Hfl2. destruct Hfl2 as [_ Hf2].
      cbn [fmap list_fmap option_bind mbind]. rewrite (Hf2 path Hin).
      by destruct (FlashDetector.update det.2 _ now).
Qed.

End Transformer_signals_facts.

Section Transformer_channels_facts.
Context {F : Type} `{PyNum F}.
Variable dict_of_list : list (pyval F) → option (gmap string (pyval F)).
Implicit Types (tr : VehicleStateTransformer F).

Lemma filter_chain_snoc readings : ∀ (cl : OutlierClamp.t F) (em : EMA.t F) o,
  filter_chain cl em (readings ++ [o]) =
  let st := (filter_chain cl em readings).2 in
  match o with
  | None => ((filter_chain cl em readings).1 ++ [None], st)
  | Some raw_f =>
      let c := OutlierClamp.update st.1 raw_f in
      let e := EMA.update st.2 c.1 in
      ((filter_chain cl em readings).1 ++ [Some (raw_f, e.1)], (c.2, e.2))
  end.
Proof.
  induction readings as [|[raw|] readings IH]; intros cl em o; simpl.
  - destruct o as [raw_f|]; [|done].
    destruct (OutlierClamp.update cl raw_f) as [c cl'] eqn:Ec. simpl.
    by destruct (EMA.update em c) as [s em'] eqn:Ee.
  - destruct (OutlierClamp.update cl raw) as [c cl'].
    destruct (EMA.update em c) as [s em']. rewrite IH.
    destruct (filter_chain cl' em' readings) as [outs st]. simpl. by destruct o.
  - rewrite IH. destruct (filter_chain cl em readings) as [outs st]. simpl. by destruct o.
Qed.

(** X24.  Across frames, each analog channel of the transformer is its
    clamp followed by its EMA.  Take the transformer the constructor builds,
    a channel mapped from one pin, and any frames on which [transform]
    returns.  A frame without a usable sample for the pin gives no entry and
    leaves both filters alone; the others give, in order, the entries made
    from the sample and from the output of [EMA(0.25)] on the output of
    [OutlierClamp(120)] on it, each filter carrying its state from the
    previous usable sample; and the filters the transformer holds are the
    ones so reached. *)
Theorem transformer_channel_is_filter_chain pm frames l1 pin amap l2 :
  analog pm = l1 ++ (pin, amap) :: l2 →
  (∀ pin' amap', (pin', amap') ∈ l1 ++ l2 →
                 AnalogMap.name amap' ≠ AnalogMap.name amap) →
  let r := transform_run dict_of_list (transformer_new pm) frames in
  Forall is_Some r.1 →
  let readings := (λ f, frame_reading dict_of_list f.2 pin) <$> frames in
  let chain := filter_chain (OutlierClamp.new (f_lit 120)) (EMA.new (f_lit (25 # 100)))
                 readings in
  (λ o, o ≫= at_path ["analog"; AnalogMap.name amap]) <$> r.1
    = analog_entry amap <$> chain.1 ∧
  _analog_clamp r.2 !! AnalogMap.name amap = Some chain.2.1 ∧
  _analog_ema r.2 !! AnalogMap.name amap = Some chain.2.2.
Proof.
  intros Hl Huniq. cbn zeta.
  assert (AnalogMap.name amap ∈ (λ e, AnalogMap.name e.2) <$> analog pm) as Hname.
  { rewrite Hl. apply list_elem_of_fmap. exists (pin, amap). split; [done|].
    apply elem_of_app. right. apply elem_of_cons. by left. }
  induction frames as [|[now frame] frames IH] using rev_ind.
  - intros _. cbn [transform_run fst snd fmap list_fmap filter_chain].
    destruct (transformer_new_analog pm (AnalogMap.name amap)) as [-> ->].
    by rewrite bool_decide_eq_true_2.
  - rewrite transform_run_snoc. cbn [fst snd]. intros Hall.
    apply Forall_app in Hall as [Hall Hlast]. rewrite Forall_singleton in Hlast.
    destruct (IH Hall) as (Hent & Hcl & Hem). clear IH.
    set (tr1 := (transform_run dict_of_list (transformer_new pm) frames).2) in *.
    destruct (transform dict_of_list now frame tr1) as [o tr2] eqn:Ht.
    destruct Hlast as [snap Hsnap]. simpl in Hsnap. subst o. cbn [fst snd].
    assert (analog (pinmap tr1) = l1 ++ (pin, amap) :: l2) as Hpm.
    { unfold tr1. destruct (transform_run_keeps dict_of_list frames (transformer_new pm))
        as [[-> _] _]. done. }
    rewrite !fmap_app. cbn [fmap list_fmap snd].
    rewrite filter_chain_snoc. cbn zeta.
    set (chain := filter_chain _ _ _) in *.
    destruct (frame_reading dict_of_list frame pin) as [raw_f|] eqn:Hr.
    + destruct (transform_analog_entry dict_of_list now frame tr1 snap tr2 l1 pin amap l2
                  raw_f _ _ Ht Hpm Huniq Hr Hcl Hem)
        as (norm & raw_i & Hn & Hi & He & Hcl2 & Hem2).
      cbn [fst snd]. rewrite fmap_app, Hent. split; [|done].
      f_equal. cbn [fmap list_fmap option_bind mbind]. rewrite He.
      unfold analog_entry. cbn [mbind option_bind fst snd]. by rewrite Hn, Hi.
    + destruct (transform_omits_channel dict_of_list now frame tr1 snap tr2
                  (AnalogMap.name amap) Ht) as (He & Hcl2 & Hem2).
      { intros pin' amap' Hin Hnm. rewrite Hpm in Hin.
        apply elem_of_app in Hin as [Hin|Hin].
        - exfalso. apply (Huniq pin' amap'); [|done]. apply elem_of_app. by left.
        - apply elem_of_cons in Hin as [[= -> ->]|Hin]; [done|].
          exfalso. apply (Huniq pin' amap'); [|done]. apply elem_of_app. by right. }
      cbn [fst snd]. rewrite fmap_app, Hent. split; [|by rewrite Hcl2, Hem2].
      f_equal. cbn [fmap list_fmap option_bind mbind]. by rewrite He.
Qed.

End Transformer_channels_facts.

Lemma transformer_signal_is_latch_run_witness :
  let frames := [(0, uno_frame (PInt 1) true 0); (30, uno_frame (PInt 2) true 0);
                 (100, uno_frame (PInt 3) false 0)] in
  let r := transform_run no_list_dicts (transformer_new (F:=Q) example_pinmap) frames in
  let calls := latch_calls no_list_dicts "D2" frames in
  let latch := HoldLatch.run (HoldLatch.new 30 (if is_indicator "left_indicator"
                                                then 80 else 0)) calls in
  let detector := FlashDetector.run (FlashDetector.new 1200 2) (zip latch.1 calls.*2) in
  _dig_stab r.2 !! "left_indicator" = Some latch.2 ∧
  _flash r.2 !! "left_indicator"
    = (if is_indicator "left_indicator" then Some detector.2 else None) ∧
  (∀ path, (path, "left_indicator") ∈ transformer_level_fields →
           (λ o, o ≫= at_path path) <$> r.1 = (λ b, Some (PBool b)) <$> latch.1) ∧
  (∀ path, (path, "left_indicator") ∈ transformer_flash_fields →
           (λ o, o ≫= at_path path) <$> r.1 = (λ b, Some (PBool b)) <$> detector.1).
Proof.
  apply (transformer_signal_is_latch_run (F:=Q) no_list_dicts example_pinmap
           [(0, uno_frame (PInt 1) true 0); (30, uno_frame (PInt 2) true 0);
            (100, uno_frame (PInt 3) false 0)]
           [] "D2" "left_indicator"
           [("D3", "right_indicator"); ("D4", "high_beam")]).
  - reflexivity.
  - intros d_pin' name' Hin.
    do 2 (apply elem_of_cons in Hin as [Hin|Hin]; [injection Hin as _ ->; discriminate|]).
    by apply elem_of_nil in Hin.
  - vm_compute. repeat (apply Forall_cons; split; [by eexists|]). apply Forall_nil_2.
Defined.

Lemma transformer_channel_is_filter_chain_witness :
  let fuel := AnalogMap.mk "fuel_sender_raw" 0 1023 false in
  let frames := [(0, uno_frame (PInt 1) true 0);
                 (100, analog_frame [("A1", PInt 512)]);
                 (200, uno_frame (PInt 3) true 1000)] in
  let r := transform_run no_list_dicts (transformer_new (F:=Q) example_pinmap) frames in
  let readings := (λ f, frame_reading no_list_dicts f.2 "A0") <$> frames in
  let chain := filter_chain (OutlierClamp.new (f_lit 120)) (EMA.new (f_lit (25 # 100)))
                 readings in
  (λ o, o ≫= at_path ["analog"; AnalogMap.name fuel]) <$> r.1
    = analog_entry fuel <$> chain.1 ∧
  _analog_clamp r.2 !! AnalogMap.name fuel = Some chain.2.1 ∧
  _analog_ema r.2 !! AnalogMap.name fuel = Some chain.2.2.
Proof.
  apply (transformer_channel_is_filter_chain (F:=Q) no_list_dicts example_pinmap
           [(0, uno_frame (PInt 1) true 0);
            (100, analog_frame [("A1", PInt 512)]);
            (200, uno_frame (PInt 3) true 1000)]
           [] "A0" (AnalogMap.mk "fuel_sender_raw" 0 1023 false)
           [("A1", AnalogMap.mk "coolant_sender_raw" 0 1023 false)]).
  - reflexivity.
  - intros pin' amap' Hin. apply elem_of_cons in Hin as [Hin|Hin].
    + injection Hin as -> ->. discriminate.
    + by apply elem_of_nil in Hin.
  - vm_compute. repeat (apply Forall_cons; split; [by eexists|]). apply Forall_nil_2.
Defined.

(** ** Instances of the properties stated for all inputs *)

Lemma pick_serial_port_configured_or_fallback_witness :
  _pick_serial_port "/dev/ttyUSB0" true (Some ["usb-Arduino_Uno-if00"]) = "/dev/ttyUSB0" ∧
  _pick_serial_port "" true None = DEFAULT_FALLBACK_PORT.
Proof.
  split.
  - apply (proj1 (pick_serial_port_configured_or_fallback "/dev/ttyUSB0" true
                    (Some ["usb-Arduino_Uno-if00"]))).
    discriminate.
  - apply (proj2 (pick_serial_port_configured_or_fallback "" true None));
      [reflexivity|]. right. by left.
Defined.


Lemma hub_slot_frozen_after_build_raises_witness :
  let bad := <["uptime_ms" := PStr "n/a"]> (uno_frame (PInt 1) true 0) in
  ∃ h0, main (F:=Q) 750 0 = Some h0 ∧
    let h := run 750 h0 [PumpTick 5; WsConnect 6; SerialLine 10 (PDict bad)] in
    let h' := run 750 (step 750 h (PumpTick 20))
                [SerialLine 30 (PDict (uno_frame (PInt 2) false 0)); PumpTick 40] in
    pump_running h' = false ∧
    latest_state (hub h') = latest_state (hub h) ∧
    ∀ c, c ∈ clients h' →
         sent_to (step 750 h' (WsPush c)) c = sent_to h' c ++ [latest_state (hub h)].
Proof.
  intros bad. eexists. split; [reflexivity|]. intros h.
  apply (proj2 (hub_slot_frozen_after_build_raises (F:=Q) 750) h 20
           [SerialLine 30 (PDict (uno_frame (PInt 2) false 0)); PumpTick 40]).
  - vm_compute. reflexivity.
  - apply (proj1 (hub_slot_frozen_after_build_raises (F:=Q) 750)).
    vm_compute. reflexivity.
Defined.
